(** * Wobbly Tower: the judgment layer of [GameScene.tsx]

    A shallow embedding of the stability evaluator
    ([calculatePlacementStability]), the per-frame tower monitor and score
    bookkeeping ([animate]), the commit-placement operation
    ([internalAddBlock]) and the camera gesture handlers, followed by the
    properties established about them.

    JavaScript numbers are modelled as real numbers: [Math.abs], [Math.max],
    [Math.min], [Math.sqrt], [Math.acos] and [Math.PI] become [Rabs], [Rmax],
    [Rmin], [sqrt], [acos] and [PI]; rounding, NaN and the infinities are
    outside the model.  Comparisons are the boolean tests [<?] and [<=?]
    below. *)

From Stdlib Require Import Reals Lra List Bool Lia Arith ZArith.
Import ListNotations.
Open Scope R_scope.

(** ** Numbers *)

Definition ltb (a b : R) : bool := if Rlt_dec a b then true else false.
Definition leb (a b : R) : bool := if Rle_dec a b then true else false.

Notation "a <? b" := (ltb a b) (at level 70, no associativity) : R_scope.
Notation "a <=? b" := (leb a b) (at level 70, no associativity) : R_scope.

(** ** Data model ([types.ts]) *)

Inductive BlockShapeType := CUBE_S | RECT_TALL | RECT_WIDE | CYLINDER_S.

Inductive Shape := Box | Cylinder.

Definition shape_eqb (a b : Shape) : bool :=
  match a, b with
  | Box, Box | Cylinder, Cylinder => true
  | _, _ => false
  end.

(** For a box the half-extents; for a cylinder [dim_x] is the radius,
    [dim_y] the height and [dim_z] the segment count. *)
Record BlockDimensions := mkDim { dim_x : R; dim_y : R; dim_z : R }.

Record BlockDefinition := mkDef {
  type : BlockShapeType;
  dimensions : BlockDimensions;
  mass : R;
  color : Z;
  friction : R;
  restitution : R;
  shape : Shape
}.

Record Vec3 := mkVec { vec_x : R; vec_y : R; vec_z : R }.

(** The pose of a rigid body as the tick reads it from the physics engine.
    [up_dot] is the value the engine yields for
    [quaternion.vmult(localUp).normalize().dot(worldUp)]: the alignment of
    the body's up-vector with world-up. *)
Record Body := mkBody { position : Vec3; up_dot : R }.

(** A placed block; the render mesh and the string identifier carry no
    logic and are left out, as is the display name of a definition. *)
Record PhysicsObject := mkObj { body : Body; definition : BlockDefinition }.

(** ** Constants ([constants.ts]) *)

Definition BLOCK_DEFINITIONS (t : BlockShapeType) : BlockDefinition :=
  match t with
  | CUBE_S => mkDef CUBE_S (mkDim 0.5 0.5 0.5) 1 0xff6347%Z 0.8 0.05 Box
  | RECT_TALL => mkDef RECT_TALL (mkDim 0.25 1 0.25) 1.5 0x4682b4%Z 0.7 0.05 Box
  | RECT_WIDE => mkDef RECT_WIDE (mkDim 1 0.25 0.5) 2.5 0x3cb371%Z 0.9 0.05 Box
  | CYLINDER_S => mkDef CYLINDER_S (mkDim 0.4 0.75 16) 1.2 0xffd700%Z 0.6 0.1 Cylinder
  end.

Definition GROUND_LEVEL : R := 0.
Definition BLOCK_SPAWN_HEIGHT_OFFSET : R := 0.2.
Definition GAME_OVER_FALL_THRESHOLD_Y : R := -5.
Definition FALLEN_BLOCK_DOT_THRESHOLD : R := 0.5.

Definition INITIAL_CAMERA_POSITION_VECTOR : Vec3 := mkVec 5 7 10.
Definition INITIAL_CAMERA_LOOK_AT_VECTOR : Vec3 := mkVec 0 3 0.

Definition GHOST_BLOCK_X_MOVEMENT_STEP : R := 0.2.
Definition GHOST_BLOCK_ROTATION_STEP : R := PI / 12.
Definition GHOST_BLOCK_FINE_ROTATION_STEP : R := PI / 36.

Definition degToRad (degrees : R) : R := degrees * (PI / 180).

Definition CAMERA_MIN_ZOOM_DISTANCE : R := 3.
Definition CAMERA_MAX_ZOOM_DISTANCE : R := 35.
Definition CAMERA_ZOOM_SPEED : R := 0.015.
Definition CAMERA_MIN_POLAR_ANGLE : R := degToRad 5.
Definition CAMERA_MAX_POLAR_ANGLE : R := degToRad 88.
Definition CAMERA_ROTATION_SPEED_X : R := 0.015.
Definition CAMERA_ROTATION_SPEED_Y : R := 0.015.
Definition CAMERA_PAN_SPEED : R := 0.3.

Definition STABILITY_INDICATOR_OFFSET_Y : R := 0.05.

Definition PLACEMENT_STABILITY_GREEN_THRESHOLD_BOX : R := 0.4.
Definition PLACEMENT_STABILITY_YELLOW_THRESHOLD_BOX : R := 0.8.
Definition PLACEMENT_STABILITY_GREEN_THRESHOLD_CYLINDER : R := 0.3.
Definition PLACEMENT_STABILITY_YELLOW_THRESHOLD_CYLINDER : R := 0.7.

Definition TOWER_INSTABILITY_WARNING_DOT_THRESHOLD : R := 0.866.

(** The camera presets; the front and side presets scale the look-at height
    by [lookAtYFactor], the top preset has a fixed [lookAtY]. *)
Record CameraPresetConfig := mkPreset {
  preset_phi : R;
  preset_theta : R;
  preset_radius : R;
  preset_lookAtYFactor : R;
  preset_lookAtY : R;
  preset_lookAtX : R;
  preset_lookAtZ : R
}.

Definition CAMERA_PRESET_FRONT : CameraPresetConfig :=
  mkPreset (PI / 2.5) (PI / 2) 12 0.4 0 0 0.
Definition CAMERA_PRESET_TOP : CameraPresetConfig :=
  mkPreset 0.01 0 18 0 (GROUND_LEVEL + 1) 0 0.
Definition CAMERA_PRESET_SIDE : CameraPresetConfig :=
  mkPreset (PI / 2.5) 0 12 0.4 0 0 0.

(** The three indicator colours ([STABILITY_INDICATOR_COLOR_*]). *)
Inductive StabilityColor :=
| STABILITY_INDICATOR_COLOR_GREEN
| STABILITY_INDICATOR_COLOR_YELLOW
| STABILITY_INDICATOR_COLOR_RED.

Abbreviation GREEN := STABILITY_INDICATOR_COLOR_GREEN.
Abbreviation YELLOW := STABILITY_INDICATOR_COLOR_YELLOW.
Abbreviation RED := STABILITY_INDICATOR_COLOR_RED.

(** ** Component state of [GameScene]

    The refs and React state the handlers read and write.  A ref holding an
    engine object ([worldRef], [sceneRef], [cameraRef], [rendererRef], the
    ghost mesh, the indicator mesh) is modelled by whether it is set;
    [ghostBlockPositionY] and [stabilityIndicatorColor] are the two
    properties of those meshes the logic reads back or publishes.

    A React state variable or prop that is updated from a key press or a
    click and the ref that mirrors it ([ghostBlockXOffset] and its proxy
    ref, [blockToPlace] and [blockToPlaceRef], [canAddBlock] and the closure
    that captured it) are one field: React commits such an update and runs
    the mirroring effect before the next event is handled.  [isGameOverRef]
    is the ref alone: the [isGameOver] prop is set from inside a frame, and
    the ref follows it only when React has committed, which is an input of
    its own below. *)
Record Scene := mkScene {
  worldRef : bool;
  sceneRef : bool;
  cameraRef : bool;
  rendererRef : bool;
  physicsObjectsRef : list PhysicsObject;
  ghostBlockRef : bool;
  ghostBlockPositionY : R;
  stabilityIndicatorRef : bool;
  ghostBlockXOffset : R;
  ghostBlockYRotation : R;
  isGameOverRef : bool;
  blockToPlaceRef : option BlockDefinition;
  maxAchievedHeightInGameRef : R;
  currentHighestBlockYRef : R;
  isSceneReady : bool;
  canAddBlock : bool;
  stabilityIndicatorColor : StabilityColor
}.

Definition set_physicsObjectsRef (v : list PhysicsObject) (s : Scene) : Scene :=
  mkScene (worldRef s) (sceneRef s) (cameraRef s) (rendererRef s) v
    (ghostBlockRef s) (ghostBlockPositionY s) (stabilityIndicatorRef s)
    (ghostBlockXOffset s) (ghostBlockYRotation s) (isGameOverRef s)
    (blockToPlaceRef s) (maxAchievedHeightInGameRef s)
    (currentHighestBlockYRef s) (isSceneReady s) (canAddBlock s)
    (stabilityIndicatorColor s).

Definition set_ghostBlockPositionY (v : R) (s : Scene) : Scene :=
  mkScene (worldRef s) (sceneRef s) (cameraRef s) (rendererRef s)
    (physicsObjectsRef s) (ghostBlockRef s) v (stabilityIndicatorRef s)
    (ghostBlockXOffset s) (ghostBlockYRotation s) (isGameOverRef s)
    (blockToPlaceRef s) (maxAchievedHeightInGameRef s)
    (currentHighestBlockYRef s) (isSceneReady s) (canAddBlock s)
    (stabilityIndicatorColor s).

Definition setGhostBlockXOffset (v : R) (s : Scene) : Scene :=
  mkScene (worldRef s) (sceneRef s) (cameraRef s) (rendererRef s)
    (physicsObjectsRef s) (ghostBlockRef s) (ghostBlockPositionY s)
    (stabilityIndicatorRef s) v (ghostBlockYRotation s) (isGameOverRef s)
    (blockToPlaceRef s) (maxAchievedHeightInGameRef s)
    (currentHighestBlockYRef s) (isSceneReady s) (canAddBlock s)
    (stabilityIndicatorColor s).

Definition setGhostBlockYRotation (v : R) (s : Scene) : Scene :=
  mkScene (worldRef s) (sceneRef s) (cameraRef s) (rendererRef s)
    (physicsObjectsRef s) (ghostBlockRef s) (ghostBlockPositionY s)
    (stabilityIndicatorRef s) (ghostBlockXOffset s) v (isGameOverRef s)
    (blockToPlaceRef s) (maxAchievedHeightInGameRef s)
    (currentHighestBlockYRef s) (isSceneReady s) (canAddBlock s)
    (stabilityIndicatorColor s).

Definition set_isGameOverRef (v : bool) (s : Scene) : Scene :=
  mkScene (worldRef s) (sceneRef s) (cameraRef s) (rendererRef s)
    (physicsObjectsRef s) (ghostBlockRef s) (ghostBlockPositionY s)
    (stabilityIndicatorRef s) (ghostBlockXOffset s) (ghostBlockYRotation s) v
    (blockToPlaceRef s) (maxAchievedHeightInGameRef s)
    (currentHighestBlockYRef s) (isSceneReady s) (canAddBlock s)
    (stabilityIndicatorColor s).

Definition set_blockToPlaceRef (v : option BlockDefinition) (s : Scene) : Scene :=
  mkScene (worldRef s) (sceneRef s) (cameraRef s) (rendererRef s)
    (physicsObjectsRef s) (ghostBlockRef s) (ghostBlockPositionY s)
    (stabilityIndicatorRef s) (ghostBlockXOffset s) (ghostBlockYRotation s)
    (isGameOverRef s) v (maxAchievedHeightInGameRef s)
    (currentHighestBlockYRef s) (isSceneReady s) (canAddBlock s)
    (stabilityIndicatorColor s).

Definition set_maxAchievedHeightInGameRef (v : R) (s : Scene) : Scene :=
  mkScene (worldRef s) (sceneRef s) (cameraRef s) (rendererRef s)
    (physicsObjectsRef s) (ghostBlockRef s) (ghostBlockPositionY s)
    (stabilityIndicatorRef s) (ghostBlockXOffset s) (ghostBlockYRotation s)
    (isGameOverRef s) (blockToPlaceRef s) v
    (currentHighestBlockYRef s) (isSceneReady s) (canAddBlock s)
    (stabilityIndicatorColor s).

Definition set_currentHighestBlockYRef (v : R) (s : Scene) : Scene :=
  mkScene (worldRef s) (sceneRef s) (cameraRef s) (rendererRef s)
    (physicsObjectsRef s) (ghostBlockRef s) (ghostBlockPositionY s)
    (stabilityIndicatorRef s) (ghostBlockXOffset s) (ghostBlockYRotation s)
    (isGameOverRef s) (blockToPlaceRef s) (maxAchievedHeightInGameRef s)
    v (isSceneReady s) (canAddBlock s) (stabilityIndicatorColor s).

Definition setCanAddBlock (v : bool) (s : Scene) : Scene :=
  mkScene (worldRef s) (sceneRef s) (cameraRef s) (rendererRef s)
    (physicsObjectsRef s) (ghostBlockRef s) (ghostBlockPositionY s)
    (stabilityIndicatorRef s) (ghostBlockXOffset s) (ghostBlockYRotation s)
    (isGameOverRef s) (blockToPlaceRef s) (maxAchievedHeightInGameRef s)
    (currentHighestBlockYRef s) (isSceneReady s) v (stabilityIndicatorColor s).

Definition set_stabilityIndicatorColor (v : StabilityColor) (s : Scene) : Scene :=
  mkScene (worldRef s) (sceneRef s) (cameraRef s) (rendererRef s)
    (physicsObjectsRef s) (ghostBlockRef s) (ghostBlockPositionY s)
    (stabilityIndicatorRef s) (ghostBlockXOffset s) (ghostBlockYRotation s)
    (isGameOverRef s) (blockToPlaceRef s) (maxAchievedHeightInGameRef s)
    (currentHighestBlockYRef s) (isSceneReady s) (canAddBlock s) v.

(** ** Stability evaluator ([calculatePlacementStability]) *)

(** [maxBlockY] starts at minus infinity, which every real exceeds; [None]
    stands for it. *)
Definition exceeds (y : R) (maxBlockY : option R) : bool :=
  match maxBlockY with
  | None => true
  | Some m => m <? y
  end.

Definition highestBlockStep (acc : option R * option PhysicsObject)
    (obj : PhysicsObject) : option R * option PhysicsObject :=
  if exceeds (vec_y (position (body obj))) (fst acc)
  then (Some (vec_y (position (body obj))), Some obj)
  else acc.

(** The [forEach] loop selecting [highestBlock]. *)
Definition findHighestBlock (objs : list PhysicsObject) : option PhysicsObject :=
  snd (fold_left highestBlockStep objs (None, None)).

Definition effectiveAllowed (targetHalf ghostHalf threshold : R) : R :=
  Rmax 0 (targetHalf - ghostHalf) + ghostHalf * threshold.

(** The verdict once the ghost definition, the ghost offset and the target
    block are known (the body of the function after [highestBlock] is found). *)
Definition stabilityAgainst (ghostDef : BlockDefinition) (ghostX : R)
    (highestBlock : PhysicsObject) : StabilityColor :=
  let ghostZ := 0 in
  let targetDef := definition highestBlock in
  let targetX := vec_x (position (body highestBlock)) in
  let targetZ := vec_z (position (body highestBlock)) in
  let offsetX := Rabs (ghostX - targetX) in
  let offsetZ := Rabs (ghostZ - targetZ) in
  if shape_eqb (shape ghostDef) Box && shape_eqb (shape targetDef) Box then
    let ghostHalfWidthX := dim_x (dimensions ghostDef) in
    let ghostHalfDepthZ := dim_z (dimensions ghostDef) in
    let targetHalfWidthX := dim_x (dimensions targetDef) in
    let targetHalfDepthZ := dim_z (dimensions targetDef) in
    let effectiveAllowedOffsetXGreen :=
      effectiveAllowed targetHalfWidthX ghostHalfWidthX PLACEMENT_STABILITY_GREEN_THRESHOLD_BOX in
    let effectiveAllowedOffsetZGreen :=
      effectiveAllowed targetHalfDepthZ ghostHalfDepthZ PLACEMENT_STABILITY_GREEN_THRESHOLD_BOX in
    let effectiveAllowedOffsetXYellow :=
      effectiveAllowed targetHalfWidthX ghostHalfWidthX PLACEMENT_STABILITY_YELLOW_THRESHOLD_BOX in
    let effectiveAllowedOffsetZYellow :=
      effectiveAllowed targetHalfDepthZ ghostHalfDepthZ PLACEMENT_STABILITY_YELLOW_THRESHOLD_BOX in
    if (offsetX <=? effectiveAllowedOffsetXGreen) && (offsetZ <=? effectiveAllowedOffsetZGreen)
    then GREEN
    else if (offsetX <=? effectiveAllowedOffsetXYellow) && (offsetZ <=? effectiveAllowedOffsetZYellow)
    then YELLOW
    else RED
  else if shape_eqb (shape ghostDef) Cylinder || shape_eqb (shape targetDef) Cylinder then
    let ghostRadius := dim_x (dimensions ghostDef) in
    let targetRadius := dim_x (dimensions targetDef) in
    let radialDistance := sqrt (offsetX * offsetX + offsetZ * offsetZ) in
    let effectiveAllowedRadialDistanceGreen :=
      effectiveAllowed targetRadius ghostRadius PLACEMENT_STABILITY_GREEN_THRESHOLD_CYLINDER in
    let effectiveAllowedRadialDistanceYellow :=
      effectiveAllowed targetRadius ghostRadius PLACEMENT_STABILITY_YELLOW_THRESHOLD_CYLINDER in
    if radialDistance <=? effectiveAllowedRadialDistanceGreen then GREEN
    else if radialDistance <=? effectiveAllowedRadialDistanceYellow then YELLOW
    else RED
  else YELLOW.

Definition calculatePlacementStability (s : Scene) : StabilityColor :=
  match blockToPlaceRef s with
  | None => GREEN
  | Some ghostDef =>
      if negb (ghostBlockRef s) || (length (physicsObjectsRef s) =? 0)%nat then GREEN
      else
        let ghostX := ghostBlockXOffset s in
        match findHighestBlock (physicsObjectsRef s) with
        | None => GREEN
        | Some highestBlock => stabilityAgainst ghostDef ghostX highestBlock
        end
  end.

(** ** Tower monitor and game loop ([animate]) *)

(** The callbacks to the surrounding application. *)
Inductive Callback :=
| onScoreUpdate (score : R)
| onGameOver (finalScore : R)
| onBlockSuccessfullyPlaced.

(** The locals the [forEach] over the placed blocks accumulates. *)
Record TowerScan := mkScan {
  highestBlockYForFrame : R;
  anyBlockFallenOffWorld : bool;
  anyBlockTippedOverGameEnd : bool;
  unstableBlockCountForWarning : nat
}.

Definition scanStart : TowerScan := mkScan GROUND_LEVEL false false 0.

(** The guard of the tip-over test:
    [length >= 2 && !isGameOverRef.current && !anyBlockTippedOverGameEnd]. *)
Definition tipCheckGuard (blockCount : nat) (gameOver : bool) (acc : TowerScan) : bool :=
  (2 <=? blockCount)%nat && negb gameOver && negb (anyBlockTippedOverGameEnd acc).

(** One iteration of the loop, for block [obj]. *)
Definition scanBlock (blockCount : nat) (gameOver : bool) (acc : TowerScan)
    (obj : PhysicsObject) : TowerScan :=
  let topOfBlock := vec_y (position (body obj)) + dim_y (dimensions (definition obj)) in
  let dotProduct := up_dot (body obj) in
  mkScan
    (if highestBlockYForFrame acc <? topOfBlock then topOfBlock
     else highestBlockYForFrame acc)
    (if (vec_y (position (body obj)) <? GAME_OVER_FALL_THRESHOLD_Y) && negb gameOver
     then true else anyBlockFallenOffWorld acc)
    (if tipCheckGuard blockCount gameOver acc
     then (if dotProduct <? FALLEN_BLOCK_DOT_THRESHOLD then true
           else anyBlockTippedOverGameEnd acc)
     else anyBlockTippedOverGameEnd acc)
    (if negb gameOver && (dotProduct <? TOWER_INSTABILITY_WARNING_DOT_THRESHOLD)
     then S (unstableBlockCountForWarning acc)
     else unstableBlockCountForWarning acc).

Definition scanTower (objs : list PhysicsObject) (gameOver : bool) : TowerScan :=
  fold_left (scanBlock (length objs) gameOver) objs scanStart.

(** [world.step]: the engine moves every registered body; the new poses are
    the engine's, one per placed block in registry order. *)
Fixpoint worldStep (poses : list Body) (objs : list PhysicsObject) : list PhysicsObject :=
  match objs, poses with
  | obj :: objs', pose :: poses' => mkObj pose (definition obj) :: worldStep poses' objs'
  | _, _ => objs
  end.

Definition currentTowerHeightForScore (objs : list PhysicsObject) (highestY : R) : R :=
  if (0 <? length objs)%nat then highestY - GROUND_LEVEL else 0.

(** One animation frame.  [poses] is what [world.step(1/60)] leaves in the
    bodies.  The vignette style, the mesh transforms and the render call are
    display only and not modelled. *)
Definition animate (poses : list Body) (s : Scene) : Scene * list Callback :=
  if negb (worldRef s) || negb (sceneRef s) || negb (cameraRef s) || negb (rendererRef s)
  then (s, [])
  else
    let s := set_physicsObjectsRef (worldStep poses (physicsObjectsRef s)) s in
    let scan := scanTower (physicsObjectsRef s) (isGameOverRef s) in
    let s := set_currentHighestBlockYRef (highestBlockYForFrame scan) s in
    let height := currentTowerHeightForScore (physicsObjectsRef s) (currentHighestBlockYRef s) in
    let score := if negb (isGameOverRef s) then [onScoreUpdate (Rmax 0 height)] else [] in
    let s := if negb (isGameOverRef s)
             then set_maxAchievedHeightInGameRef (Rmax (maxAchievedHeightInGameRef s) height) s
             else s in
    let over := if (anyBlockFallenOffWorld scan || anyBlockTippedOverGameEnd scan)
                   && negb (isGameOverRef s)
                then [onGameOver (Rmax 0 (maxAchievedHeightInGameRef s))] else [] in
    let s :=
      match blockToPlaceRef s with
      | Some blockToPlace =>
          if ghostBlockRef s && stabilityIndicatorRef s && negb (isGameOverRef s) && isSceneReady s
          then
            let yPositionForGhost :=
              if (0 <? length (physicsObjectsRef s))%nat
              then currentHighestBlockYRef s + dim_y (dimensions blockToPlace) + BLOCK_SPAWN_HEIGHT_OFFSET
              else GROUND_LEVEL + dim_y (dimensions blockToPlace) + BLOCK_SPAWN_HEIGHT_OFFSET in
            let s := set_ghostBlockPositionY yPositionForGhost s in
            set_stabilityIndicatorColor (calculatePlacementStability s) s
          else s
      | None => s
      end in
    (s, score ++ over).

(** ** Commit placement ([internalAddBlock]) *)

(** The body created for the new block: at the ghost's lateral offset and
    height; its orientation is a rotation about the vertical axis, which
    leaves the up-vector on world-up. *)
Definition newBlock (definition : BlockDefinition) (s : Scene) : PhysicsObject :=
  mkObj (mkBody (mkVec (ghostBlockXOffset s) (ghostBlockPositionY s) 0) 1) definition.

Definition internalAddBlock (s : Scene) : Scene * list Callback :=
  match blockToPlaceRef s with
  | None => (s, [])
  | Some definition =>
      if negb (worldRef s) || negb (sceneRef s) || isGameOverRef s
         || negb (canAddBlock s) || negb (ghostBlockRef s)
      then (s, [])
      else
        let s := setCanAddBlock false s in
        let s := set_physicsObjectsRef (physicsObjectsRef s ++ [newBlock definition s]) s in
        let s := setGhostBlockXOffset 0 s in
        let s := setGhostBlockYRotation 0 s in
        (s, [onBlockSuccessfullyPlaced])
  end.

(** The callback of [setTimeout(() => setCanAddBlock(true), 200)]. *)
Definition cooldownElapsed (s : Scene) : Scene := setCanAddBlock true s.

(** ** Block keys ([handleKeyDown], second half) *)

Inductive BlockKey := ArrowLeft | ArrowRight | KeyR (shiftKey : bool) | Space | Enter.

(** The remainder [a % b] of JavaScript, with the sign of the dividend. *)
Definition jsRem (a b : R) : R :=
  if 0 <=? a / b then a - b * IZR (Int_part (a / b))
  else a + b * IZR (Int_part (- (a / b))).

Definition handleBlockKey (key : BlockKey) (s : Scene) : Scene * list Callback :=
  if isGameOverRef s || negb (isSceneReady s) || negb (ghostBlockRef s)
     || match blockToPlaceRef s with None => true | Some _ => false end
  then (s, [])
  else
    match key with
    | ArrowLeft => (setGhostBlockXOffset (ghostBlockXOffset s - GHOST_BLOCK_X_MOVEMENT_STEP) s, [])
    | ArrowRight => (setGhostBlockXOffset (ghostBlockXOffset s + GHOST_BLOCK_X_MOVEMENT_STEP) s, [])
    | KeyR shiftKey =>
        let rotationStep :=
          if shiftKey then GHOST_BLOCK_FINE_ROTATION_STEP else GHOST_BLOCK_ROTATION_STEP in
        (setGhostBlockYRotation (jsRem (ghostBlockYRotation s + rotationStep) (2 * PI)) s, [])
    | Space | Enter => internalAddBlock s
    end.

(** ** The surrounding application ([App.tsx]) and whole games

    [handleBlockSuccessfullyPlaced] hands over the next block, which the
    ghost effect answers by resetting the ghost offset and rotation; the
    placement comes from a key press or a click, and React commits the
    update before the next event, so it is applied right after the handler
    that issued the callback.  [handleGameOver] only sets the application's
    [isGameOver]: the scene's [isGameOverRef] is untouched by the callback
    and is set when React has re-rendered the scene with the new prop and
    run the effect that copies it, the input [GameOverCommitted]. *)
Definition deliver (next : BlockDefinition) (s : Scene) (cb : Callback) : Scene :=
  match cb with
  | onScoreUpdate _ => s
  | onGameOver _ => s
  | onBlockSuccessfullyPlaced =>
      setGhostBlockYRotation 0 (setGhostBlockXOffset 0 (set_blockToPlaceRef (Some next) s))
  end.

(** The inputs of a game.  In a schedule React produces, [GameOverCommitted]
    follows an [onGameOver] callback, with any number of other inputs,
    frames included, in between. *)
Inductive Input :=
| Frame (poses : list Body)
| Key (key : BlockKey)
| PlaceButton
| CooldownTimer
| GameOverCommitted.

(** Every input carries the block the application would supply next. *)
Definition step (s : Scene) (i : Input * BlockDefinition) : Scene * list Callback :=
  let '(s', cbs) :=
    match fst i with
    | Frame poses => animate poses s
    | Key key => handleBlockKey key s
    | PlaceButton => internalAddBlock s
    | CooldownTimer => (cooldownElapsed s, [])
    | GameOverCommitted => (set_isGameOverRef true s, [])
    end in
  (fold_left (deliver (snd i)) cbs s', cbs).

(** A game: the callbacks of each input, in order, and the final state. *)
Fixpoint run (s : Scene) (inputs : list (Input * BlockDefinition))
  : Scene * list (list Callback) :=
  match inputs with
  | [] => (s, [])
  | i :: rest =>
      let '(s1, cbs) := step s i in
      let '(s2, trace) := run s1 rest in
      (s2, cbs :: trace)
  end.

(** The scene once the mount effect has run and the first block is handed
    over: everything set up, nothing placed. *)
Definition newGame (first : BlockDefinition) : Scene :=
  mkScene true true true true [] true 0 true 0 0 false (Some first) 0 GROUND_LEVEL
    true true GREEN.

(** ** Camera gesture controller *)

Record CameraState := mkCam {
  isDragging : bool;
  lastMouseX : R;
  lastMouseY : R;
  lookAt : Vec3;
  phi : R;
  theta : R;
  radius : R
}.

Record TouchState := mkTouch {
  isInteracting : bool;
  isOrbiting : bool;
  isPinching : bool;
  isP_anning : bool;
  lastTouchX1 : R;
  lastTouchY1 : R;
  lastTouchX2 : R;
  lastTouchY2 : R;
  initialPinchDistance : R;
  initialPanMidX : R;
  initialPanMidY : R
}.

(** [cameraStateRef] and [touchStateRef] together. *)
Record Controller := mkCtl { cs : CameraState; ts : TouchState }.

Record Touch := mkTouchPoint { clientX : R; clientY : R }.

(** Vector helpers of the graphics library, as the handlers use them. *)
Definition distanceTo (a b : Vec3) : R :=
  sqrt ((vec_x a - vec_x b) * (vec_x a - vec_x b)
        + (vec_y a - vec_y b) * (vec_y a - vec_y b)
        + (vec_z a - vec_z b) * (vec_z a - vec_z b)).

Definition multiplyScalar (v : Vec3) (k : R) : Vec3 :=
  mkVec (vec_x v * k) (vec_y v * k) (vec_z v * k).

Definition addVec (a b : Vec3) : Vec3 :=
  mkVec (vec_x a + vec_x b) (vec_y a + vec_y b) (vec_z a + vec_z b).

Definition vecLength (v : Vec3) : R :=
  sqrt (vec_x v * vec_x v + vec_y v * vec_y v + vec_z v * vec_z v).

(** [normalize] divides by [length() || 1]. *)
Definition normalize (v : Vec3) : Vec3 :=
  multiplyScalar v (1 / (if Req_dec_T (vecLength v) 0 then 1 else vecLength v)).

Definition crossVectors (a b : Vec3) : Vec3 :=
  mkVec (vec_y a * vec_z b - vec_z a * vec_y b)
        (vec_z a * vec_x b - vec_x a * vec_z b)
        (vec_x a * vec_y b - vec_y a * vec_x b).

Definition atan2 (y x : R) : R :=
  if 0 <? x then atan (y / x)
  else if x <? 0 then (if 0 <=? y then atan (y / x) + PI else atan (y / x) - PI)
  else if 0 <? y then PI / 2
  else if y <? 0 then - (PI / 2)
  else 0.

Definition initialCameraState : CameraState :=
  mkCam false 0 0 INITIAL_CAMERA_LOOK_AT_VECTOR
    (acos ((vec_y INITIAL_CAMERA_POSITION_VECTOR - vec_y INITIAL_CAMERA_LOOK_AT_VECTOR)
           / distanceTo INITIAL_CAMERA_POSITION_VECTOR INITIAL_CAMERA_LOOK_AT_VECTOR))
    (atan2 (vec_x INITIAL_CAMERA_POSITION_VECTOR - vec_x INITIAL_CAMERA_LOOK_AT_VECTOR)
           (vec_z INITIAL_CAMERA_POSITION_VECTOR - vec_z INITIAL_CAMERA_LOOK_AT_VECTOR))
    (distanceTo INITIAL_CAMERA_POSITION_VECTOR INITIAL_CAMERA_LOOK_AT_VECTOR).

Definition initialTouchState : TouchState :=
  mkTouch false false false false 0 0 0 0 0 0 0.

Definition initialController : Controller := mkCtl initialCameraState initialTouchState.

(** [Math.max(MIN, Math.min(MAX, v))] for the polar angle and the zoom. *)
Definition clampPolar (v : R) : R :=
  Rmax CAMERA_MIN_POLAR_ANGLE (Rmin CAMERA_MAX_POLAR_ANGLE v).

Definition clampZoom (v : R) : R :=
  Rmax CAMERA_MIN_ZOOM_DISTANCE (Rmin CAMERA_MAX_ZOOM_DISTANCE v).

Definition handleMouseDown (button : nat) (x y : R) (c : Controller) : Controller :=
  if negb (button =? 0)%nat || isInteracting (ts c) then c
  else mkCtl (mkCam true x y (lookAt (cs c)) (phi (cs c)) (theta (cs c)) (radius (cs c)))
             (ts c).

Definition handleMouseMove (x y : R) (c : Controller) : Controller :=
  if negb (isDragging (cs c)) || isInteracting (ts c) then c
  else
    let deltaX := x - lastMouseX (cs c) in
    let deltaY := y - lastMouseY (cs c) in
    mkCtl (mkCam (isDragging (cs c)) x y (lookAt (cs c))
             (clampPolar (phi (cs c) - deltaY * CAMERA_ROTATION_SPEED_Y))
             (theta (cs c) - deltaX * CAMERA_ROTATION_SPEED_X)
             (radius (cs c)))
          (ts c).

Definition handleMouseUp (c : Controller) : Controller :=
  mkCtl (mkCam false (lastMouseX (cs c)) (lastMouseY (cs c)) (lookAt (cs c))
           (phi (cs c)) (theta (cs c)) (radius (cs c)))
        (ts c).

Definition handleWheel (deltaY : R) (c : Controller) : Controller :=
  if isInteracting (ts c) then c
  else mkCtl (mkCam (isDragging (cs c)) (lastMouseX (cs c)) (lastMouseY (cs c))
                (lookAt (cs c)) (phi (cs c)) (theta (cs c))
                (clampZoom (radius (cs c) + deltaY * CAMERA_ZOOM_SPEED)))
             (ts c).

(** The handlers are registered on the mount element, so [mountRef] is set
    whenever they run. *)
Definition handleTouchStart (touches : list Touch) (c : Controller) : Controller :=
  let cam := mkCam false (lastMouseX (cs c)) (lastMouseY (cs c)) (lookAt (cs c))
               (phi (cs c)) (theta (cs c)) (radius (cs c)) in
  let t := ts c in
  match touches with
  | [t0] =>
      mkCtl cam
        (mkTouch true true false false (clientX t0) (clientY t0)
           (lastTouchX2 t) (lastTouchY2 t)
           (initialPinchDistance t) (initialPanMidX t) (initialPanMidY t))
  | [t0; t1] =>
      let dx := clientX t0 - clientX t1 in
      let dy := clientY t0 - clientY t1 in
      mkCtl cam
        (mkTouch true false false true
           (clientX t0) (clientY t0) (clientX t1) (clientY t1)
           (sqrt (dx * dx + dy * dy))
           ((clientX t0 + clientX t1) / 2) ((clientY t0 + clientY t1) / 2))
  | _ =>
      mkCtl cam
        (mkTouch true (isOrbiting t) (isPinching t) (isP_anning t)
           (lastTouchX1 t) (lastTouchY1 t) (lastTouchX2 t) (lastTouchY2 t)
           (initialPinchDistance t) (initialPanMidX t) (initialPanMidY t))
  end.

Definition pinchThreshold : R := 2.
Definition panThreshold : R := 2.

(** The mode decision of a two-finger move: taken only while neither mode is
    set. *)
Definition decideGesture (pinchDelta panDeltaX panDeltaY : R) (t : TouchState) : TouchState :=
  if negb (isPinching t) && negb (isP_anning t) then
    if (Rmax (Rabs panDeltaX) (Rabs panDeltaY) <? Rabs pinchDelta)
       && (pinchThreshold <? Rabs pinchDelta)
    then mkTouch (isInteracting t) (isOrbiting t) true false
           (lastTouchX1 t) (lastTouchY1 t) (lastTouchX2 t) (lastTouchY2 t)
           (initialPinchDistance t) (initialPanMidX t) (initialPanMidY t)
    else mkTouch (isInteracting t) (isOrbiting t) false true
           (lastTouchX1 t) (lastTouchY1 t) (lastTouchX2 t) (lastTouchY2 t)
           (initialPinchDistance t) (initialPanMidX t) (initialPanMidY t)
  else t.

(** [forward] is what [cameraRef.current.getWorldDirection] yields, [None]
    when the camera ref is not set. *)
Definition handleTouchMove (touches : list Touch) (forward : option Vec3)
    (c : Controller) : Controller :=
  if negb (isInteracting (ts c)) then c
  else
    let cam := cs c in
    let t := ts c in
    match touches with
    | [t0] =>
        if isOrbiting t then
          let deltaX := clientX t0 - lastTouchX1 t in
          let deltaY := clientY t0 - lastTouchY1 t in
          mkCtl (mkCam (isDragging cam) (lastMouseX cam) (lastMouseY cam) (lookAt cam)
                   (clampPolar (phi cam - deltaY * CAMERA_ROTATION_SPEED_Y * 0.75))
                   (theta cam - deltaX * CAMERA_ROTATION_SPEED_X * 0.75)
                   (radius cam))
                (mkTouch (isInteracting t) (isOrbiting t) (isPinching t) (isP_anning t)
                   (clientX t0) (clientY t0) (lastTouchX2 t) (lastTouchY2 t)
                   (initialPinchDistance t) (initialPanMidX t) (initialPanMidY t))
        else c
    | [t0; t1] =>
        let dx := clientX t0 - clientX t1 in
        let dy := clientY t0 - clientY t1 in
        let currentPinchDistance := sqrt (dx * dx + dy * dy) in
        let pinchDelta := currentPinchDistance - initialPinchDistance t in
        let currentPanMidX := (clientX t0 + clientX t1) / 2 in
        let currentPanMidY := (clientY t0 + clientY t1) / 2 in
        let panDeltaX := currentPanMidX - initialPanMidX t in
        let panDeltaY := currentPanMidY - initialPanMidY t in
        let t := decideGesture pinchDelta panDeltaX panDeltaY t in
        if isPinching t then
          mkCtl (mkCam (isDragging cam) (lastMouseX cam) (lastMouseY cam) (lookAt cam)
                   (phi cam) (theta cam)
                   (clampZoom (radius cam
                               - (currentPinchDistance - initialPinchDistance t)
                                 * CAMERA_ZOOM_SPEED * 15)))
                (mkTouch (isInteracting t) (isOrbiting t) (isPinching t) (isP_anning t)
                   (lastTouchX1 t) (lastTouchY1 t) (lastTouchX2 t) (lastTouchY2 t)
                   currentPinchDistance (initialPanMidX t) (initialPanMidY t))
        else if isP_anning t then
          match forward with
          | None => mkCtl cam t
          | Some direction =>
              let forward := normalize (mkVec (vec_x direction) 0 (vec_z direction)) in
              let right := normalize (crossVectors (mkVec 0 1 0) forward) in
              let panSpeedFactor := 0.005 * radius cam in
              let lookAt1 :=
                addVec (lookAt cam) (multiplyScalar right (- panDeltaX * panSpeedFactor)) in
              let lookAt2 :=
                addVec lookAt1 (multiplyScalar forward (- panDeltaY * panSpeedFactor)) in
              mkCtl (mkCam (isDragging cam) (lastMouseX cam) (lastMouseY cam) lookAt2
                       (phi cam) (theta cam) (radius cam))
                    (mkTouch (isInteracting t) (isOrbiting t) (isPinching t) (isP_anning t)
                       (lastTouchX1 t) (lastTouchY1 t) (lastTouchX2 t) (lastTouchY2 t)
                       (initialPinchDistance t) currentPanMidX currentPanMidY)
          end
        else mkCtl cam t
    | _ => c
    end.

Definition handleTouchEnd (touches : list Touch) (c : Controller) : Controller :=
  let t := ts c in
  match touches with
  | [] =>
      mkCtl (cs c)
        (mkTouch false false false false
           (lastTouchX1 t) (lastTouchY1 t) (lastTouchX2 t) (lastTouchY2 t)
           (initialPinchDistance t) (initialPanMidX t) (initialPanMidY t))
  | [t0] =>
      mkCtl (cs c)
        (mkTouch (isInteracting t) true false false
           (clientX t0) (clientY t0) (lastTouchX2 t) (lastTouchY2 t)
           (initialPinchDistance t) (initialPanMidX t) (initialPanMidY t))
  | _ => c
  end.

(** The camera keys of [handleKeyDown] (first half). *)
Inductive CameraKey := KeyW | KeyS | KeyA | KeyD.

Definition handleCameraKey (key : CameraKey) (c : Controller) : Controller :=
  let cam := cs c in
  let l := lookAt cam in
  let l' :=
    match key with
    | KeyW => mkVec (vec_x l) (vec_y l) (vec_z l - CAMERA_PAN_SPEED)
    | KeyS => mkVec (vec_x l) (vec_y l) (vec_z l + CAMERA_PAN_SPEED)
    | KeyA => mkVec (vec_x l - CAMERA_PAN_SPEED) (vec_y l) (vec_z l)
    | KeyD => mkVec (vec_x l + CAMERA_PAN_SPEED) (vec_y l) (vec_z l)
    end in
  mkCtl (mkCam (isDragging cam) (lastMouseX cam) (lastMouseY cam) l'
           (phi cam) (theta cam) (radius cam))
        (ts c).

Inductive CameraPreset := front | top | side.

(** [currentHighestBlockY] and [blockCount] are read from the scene refs. *)
Definition setCameraPreset (preset : CameraPreset) (currentHighestBlockY : R)
    (blockCount : nat) (c : Controller) : Controller :=
  let cam := cs c in
  let config :=
    match preset with
    | front => CAMERA_PRESET_FRONT
    | top => CAMERA_PRESET_TOP
    | side => CAMERA_PRESET_SIDE
    end in
  let lookAtY :=
    match preset with
    | front | side => currentHighestBlockY * preset_lookAtYFactor config
    | top => if (0 <? blockCount)%nat then currentHighestBlockY / 2 else preset_lookAtY config
    end in
  mkCtl (mkCam (isDragging cam) (lastMouseX cam) (lastMouseY cam)
           (mkVec (preset_lookAtX config) lookAtY (preset_lookAtZ config))
           (clampPolar (preset_phi config)) (preset_theta config) (preset_radius config))
        (ts c).

Inductive CameraInput :=
| MouseDown (button : nat) (x y : R)
| MouseMove (x y : R)
| MouseUp
| Wheel (deltaY : R)
| TouchStart (touches : list Touch)
| TouchMove (touches : list Touch) (forward : option Vec3)
| TouchEnd (touches : list Touch)
| CameraKeyDown (key : CameraKey)
| SelectPreset (preset : CameraPreset) (currentHighestBlockY : R) (blockCount : nat).

Definition cameraStep (c : Controller) (i : CameraInput) : Controller :=
  match i with
  | MouseDown button x y => handleMouseDown button x y c
  | MouseMove x y => handleMouseMove x y c
  | MouseUp => handleMouseUp c
  | Wheel deltaY => handleWheel deltaY c
  | TouchStart touches => handleTouchStart touches c
  | TouchMove touches forward => handleTouchMove touches forward c
  | TouchEnd touches => handleTouchEnd touches c
  | CameraKeyDown key => handleCameraKey key c
  | SelectPreset preset y n => setCameraPreset preset y n c
  end.

Definition cameraRun (c : Controller) (inputs : list CameraInput) : Controller :=
  fold_left cameraStep inputs c.

(** ** Vocabulary of the statements *)

Definition centerY (obj : PhysicsObject) : R := vec_y (position (body obj)).

Definition topY (obj : PhysicsObject) : R :=
  vec_y (position (body obj)) + dim_y (dimensions (definition obj)).

(** What the selection loop knows after the blocks [seen]. *)
Definition selected (seen : list PhysicsObject)
    (acc : option R * option PhysicsObject) : Prop :=
  (seen = [] /\ acc = (None, None))
  \/ exists b, acc = (Some (centerY b), Some b) /\ In b seen
               /\ forall o, In o seen -> centerY o <= centerY b.

(** Concrete scenes: a placed block of a catalogue type at a position, and
    a running, fully set-up scene with the given blocks and ghost. *)
Definition blockAt (t : BlockShapeType) (x y z dot : R) : PhysicsObject :=
  mkObj (mkBody (mkVec x y z) dot) (BLOCK_DEFINITIONS t).

Definition sceneWith (objs : list PhysicsObject) (ghost : BlockShapeType) (ghostX : R) : Scene :=
  mkScene true true true true objs true 0 true ghostX 0 false
    (Some (BLOCK_DEFINITIONS ghost)) 0 GROUND_LEVEL true true GREEN.

(** A small cube carrying a wide slab, next to a tall pillar standing on the
    ground: the slab has the highest centre, the pillar the highest top. *)
Definition slabAndPillar : list PhysicsObject :=
  [blockAt CUBE_S 1 0.5 0 1; blockAt RECT_WIDE 1 1.25 0 1; blockAt RECT_TALL (-1) 1 0 1].

(** The arguments of the game-over and score callbacks in a list of
    callbacks, in order. *)
Definition gameOverArgs (cbs : list Callback) : list R :=
  flat_map (fun cb => match cb with onGameOver v => [v] | _ => [] end) cbs.

Definition scoreArgs (cbs : list Callback) : list R :=
  flat_map (fun cb => match cb with onScoreUpdate v => [v] | _ => [] end) cbs.

(** The guard at the head of [animate]. *)
Definition refsReady (s : Scene) : bool :=
  worldRef s && sceneRef s && cameraRef s && rendererRef s.

(** The tower scan, the tower height and the terminal condition of the frame
    that starts in [s] when the engine leaves [poses]. *)
Definition frameScan (poses : list Body) (s : Scene) : TowerScan :=
  scanTower (worldStep poses (physicsObjectsRef s)) (isGameOverRef s).

Definition frameHeight (poses : list Body) (s : Scene) : R :=
  currentTowerHeightForScore (worldStep poses (physicsObjectsRef s))
    (highestBlockYForFrame (frameScan poses s)).

Definition terminalCondition (poses : list Body) (s : Scene) : bool :=
  anyBlockFallenOffWorld (frameScan poses s) || anyBlockTippedOverGameEnd (frameScan poses s).

(** All callbacks of a game, in order. *)
Definition callbacksOf (s : Scene) (inputs : list (Input * BlockDefinition)) : list Callback :=
  concat (snd (run s inputs)).

(** [best m seen]: [m] is the largest of the scores [seen], or zero when
    none has been published. *)
Definition best (m : R) (seen : list R) : Prop :=
  0 <= m /\ (forall sc, In sc seen -> sc <= m) /\ (In m seen \/ (seen = [] /\ m = 0)).

(** A one-block game: the cube is dropped, rests on the ground for a frame
    and then falls out of the world. *)
Definition cubeFallsOff : list (Input * BlockDefinition) :=
  [(PlaceButton, BLOCK_DEFINITIONS CUBE_S);
   (Frame [mkBody (mkVec 0 0.5 0) 1], BLOCK_DEFINITIONS CUBE_S);
   (Frame [mkBody (mkVec 0 (-6) 0) 1], BLOCK_DEFINITIONS CUBE_S)].

(** The cooldown timer does not fire among [inputs]. *)
Definition noCooldownTimer (inputs : list (Input * BlockDefinition)) : Prop :=
  Forall (fun i => fst i <> CooldownTimer) inputs.

(** The camera invariant: polar angle and zoom distance within their
    configured ranges. *)
Definition cameraInRange (c : Controller) : Prop :=
  CAMERA_MIN_POLAR_ANGLE <= phi (cs c) <= CAMERA_MAX_POLAR_ANGLE
  /\ CAMERA_MIN_ZOOM_DISTANCE <= radius (cs c) <= CAMERA_MAX_ZOOM_DISTANCE.

(** A run of two-finger move events, each with the two touch points and the
    camera direction at that moment. *)
Definition twoFingerMoves (moves : list (Touch * Touch * option Vec3))
    (c : Controller) : Controller :=
  fold_left (fun c m => handleTouchMove [fst (fst m); snd (fst m)] (snd m) c) moves c.

(** The pinch and pan signals of a two-finger move, as [handleTouchMove]
    computes them. *)
Definition pinchSignal (t0 t1 : Touch) (t : TouchState) : R :=
  Rabs (sqrt ((clientX t0 - clientX t1) * (clientX t0 - clientX t1)
              + (clientY t0 - clientY t1) * (clientY t0 - clientY t1))
        - initialPinchDistance t).

Definition panSignal (t0 t1 : Touch) (t : TouchState) : R :=
  Rmax (Rabs ((clientX t0 + clientX t1) / 2 - initialPanMidX t))
       (Rabs ((clientY t0 + clientY t1) / 2 - initialPanMidY t)).

(** Two fingers land 100 pixels apart and spread to 200 pixels apart about
    the same midpoint. *)
Definition fingersDown : list Touch := [mkTouchPoint 0 0; mkTouchPoint 100 0].
Definition fingersSpread : list Touch := [mkTouchPoint (-50) 0; mkTouchPoint 150 0].

(** ** Further vocabulary *)

(** A block tilted past the warning threshold. *)
Definition isUnstable (obj : PhysicsObject) : bool :=
  up_dot (body obj) <? TOWER_INSTABILITY_WARNING_DOT_THRESHOLD.


(** The number of successful placements signalled in a list of callbacks,
    and the number of cooldown timer firings among inputs. *)
Definition placedCount (cbs : list Callback) : nat :=
  length (filter (fun cb => match cb with
                            | onBlockSuccessfullyPlaced => true
                            | _ => false
                            end) cbs).

Definition timerCount (inputs : list (Input * BlockDefinition)) : nat :=
  length (filter (fun i => match fst i with
                           | CooldownTimer => true
                           | _ => false
                           end) inputs).

(** The placements the cooldown flag currently allows. *)
Definition placementBudget (s : Scene) : nat := if canAddBlock s then 1 else 0.

(** The underside of a block. *)
Definition bottomY (obj : PhysicsObject) : R :=
  vec_y (position (body obj)) - dim_y (dimensions (definition obj)).


(** The verdicts in order of concern. *)
Definition severity (c : StabilityColor) : nat :=
  match c with
  | STABILITY_INDICATOR_COLOR_GREEN => 0
  | STABILITY_INDICATOR_COLOR_YELLOW => 1
  | STABILITY_INDICATOR_COLOR_RED => 2
  end.


(** ** The render camera ([animate], last step)

    The world position the frame gives the camera, from the orbit state. *)
Definition cameraPosition (cam : CameraState) : Vec3 :=
  mkVec (vec_x (lookAt cam) + radius cam * sin (phi cam) * sin (theta cam))
        (vec_y (lookAt cam) + radius cam * cos (phi cam))
        (vec_z (lookAt cam) + radius cam * sin (phi cam) * cos (theta cam)).

(** Inputs other than a preset selection; mouse and wheel inputs. *)
Definition isPresetInput (i : CameraInput) : bool :=
  match i with
  | SelectPreset _ _ _ => true
  | _ => false
  end.

Definition isMouseInput (i : CameraInput) : bool :=
  match i with
  | MouseDown _ _ _ | MouseMove _ _ | MouseUp | Wheel _ => true
  | _ => false
  end.

(** Two controllers show the same view. *)
Definition sameView (a b : CameraState) : Prop :=
  phi a = phi b /\ theta a = theta b /\ radius a = radius b /\ lookAt a = lookAt b.


(** One finger lands, two more join, one lifts, and the remaining two, 200
    pixels apart about the origin, move: the only way into pinch mode. *)
Definition pinchReached : Controller :=
  handleTouchMove [mkTouchPoint (-100) 0; mkTouchPoint 100 0] None
    (handleTouchEnd [mkTouchPoint (-100) 0; mkTouchPoint 100 0]
       (handleTouchStart [mkTouchPoint (-100) 0; mkTouchPoint 100 0; mkTouchPoint 0 50]
          (handleTouchStart [mkTouchPoint (-100) 0] initialController))).


(** ** Shapes ([createThreeGeometry], [createCannonShape])

    The render geometry and the physics shape built for a definition, by
    the constructor called and its arguments. *)
Inductive BufferGeometry :=
| BoxGeometry (width height depth : R)
| CylinderGeometry (radiusTop radiusBottom height radialSegments : R)
| CircleGeometry (circleRadius segments : R)
| PlaneGeometry (width height : R).

Inductive CannonShape :=
| CannonBox (halfExtents : Vec3)
| CannonCylinder (radiusTop radiusBottom height numSegments : R).

Definition createThreeGeometry (d : BlockDefinition) : BufferGeometry :=
  match shape d with
  | Box => BoxGeometry (dim_x (dimensions d) * 2) (dim_y (dimensions d) * 2)
             (dim_z (dimensions d) * 2)
  | Cylinder => CylinderGeometry (dim_x (dimensions d)) (dim_x (dimensions d))
                  (dim_y (dimensions d) * 2) (dim_z (dimensions d))
  end.

Definition createCannonShape (d : BlockDefinition) : CannonShape :=
  match shape d with
  | Box => CannonBox (mkVec (dim_x (dimensions d)) (dim_y (dimensions d))
                        (dim_z (dimensions d)))
  | Cylinder => CannonCylinder (dim_x (dimensions d)) (dim_x (dimensions d))
                  (dim_y (dimensions d) * 2) (dim_z (dimensions d))
  end.

(** The vertical extent and the extent along x of a geometry and of a
    shape, read off the constructor arguments. *)
Definition geometryHeight (g : BufferGeometry) : R :=
  match g with
  | BoxGeometry _ height _ => height
  | CylinderGeometry _ _ height _ => height
  | CircleGeometry _ _ => 0
  | PlaneGeometry _ _ => 0
  end.

Definition geometryWidth (g : BufferGeometry) : R :=
  match g with
  | BoxGeometry width _ _ => width
  | CylinderGeometry radiusTop _ _ _ => radiusTop * 2
  | CircleGeometry circleRadius _ => circleRadius * 2
  | PlaneGeometry width _ => width
  end.

Definition shapeHeight (c : CannonShape) : R :=
  match c with
  | CannonBox halfExtents => vec_y halfExtents * 2
  | CannonCylinder _ _ height _ => height
  end.

Definition shapeWidth (c : CannonShape) : R :=
  match c with
  | CannonBox halfExtents => vec_x halfExtents * 2
  | CannonCylinder radiusTop _ _ _ => radiusTop * 2
  end.

(** ** Contact materials ([internalAddBlock]) *)

Record ContactMaterial := mkContact { contact_friction : R; contact_restitution : R }.

Definition blockGroundContactMaterial : ContactMaterial := mkContact 0.7 0.05.

Definition blockBlockContactMaterial (newDef : BlockDefinition)
    (existingObj : PhysicsObject) : ContactMaterial :=
  mkContact (Rmin (friction newDef) (friction (definition existingObj)) * 0.9)
            (Rmin (restitution newDef) (restitution (definition existingObj)) * 0.5).

(** The contact materials a placement registers: one against the ground
    when the ground material is found, one against every placed block. *)
Definition contactMaterialsFor (groundMat : bool) (newDef : BlockDefinition)
    (objs : list PhysicsObject) : list ContactMaterial :=
  (if groundMat then [blockGroundContactMaterial] else [])
  ++ map (blockBlockContactMaterial newDef) objs.

(** ** Instability vignette ([animate]) *)

Definition TOWER_INSTABILITY_VIGNETTE_BASE_OPACITY : R := 0.1.
Definition TOWER_INSTABILITY_VIGNETTE_MAX_OPACITY : R := 0.5.
Definition TOWER_INSTABILITY_VIGNETTE_BASE_SPREAD : R := 20.
Definition TOWER_INSTABILITY_VIGNETTE_MAX_SPREAD : R := 80.
Definition TOWER_INSTABILITY_BLOCK_COUNT_FOR_MAX_EFFECT : R := 3.

(** The box shadow set on the overlay: an inset red shadow with its blur,
    spread and opacity, or none. *)
Inductive VignetteStyle :=
| InsetShadow (blur spread opacity : R)
| NoShadow.

Definition towerInstabilityVignette (gameOver : bool)
    (unstableBlockCount : nat) : VignetteStyle :=
  if negb gameOver then
    let factor :=
      Rmin 1 (INR unstableBlockCount / TOWER_INSTABILITY_BLOCK_COUNT_FOR_MAX_EFFECT) in
    let opacity :=
      TOWER_INSTABILITY_VIGNETTE_BASE_OPACITY
      + (TOWER_INSTABILITY_VIGNETTE_MAX_OPACITY - TOWER_INSTABILITY_VIGNETTE_BASE_OPACITY)
        * factor in
    let spread :=
      TOWER_INSTABILITY_VIGNETTE_BASE_SPREAD
      + (TOWER_INSTABILITY_VIGNETTE_MAX_SPREAD - TOWER_INSTABILITY_VIGNETTE_BASE_SPREAD)
        * factor in
    let blur := spread * 0.75 in
    if (0 <? unstableBlockCount)%nat then InsetShadow blur spread opacity
    else InsetShadow 0 0 0
  else NoShadow.

Definition vignetteOpacity (v : VignetteStyle) : R :=
  match v with
  | InsetShadow _ _ opacity => opacity
  | NoShadow => 0
  end.

Definition vignetteSpread (v : VignetteStyle) : R :=
  match v with
  | InsetShadow _ spread _ => spread
  | NoShadow => 0
  end.

Definition vignetteBlur (v : VignetteStyle) : R :=
  match v with
  | InsetShadow blur _ _ => blur
  | NoShadow => 0
  end.


(** ** The application ([App.tsx])

    [storedHighScore] is the local-storage item ['wobblyTowerHighScore'] as
    the number it parses to, [None] when it is absent or no number.  The
    random draws of [getRandomBlockDefinition] are inputs. *)
Record App := mkApp {
  currentScore : R;
  highScore : R;
  storedHighScore : option R;
  selectedBlockDefinition : BlockDefinition;
  nextBlockDefinition : option BlockDefinition;
  isGameOver : bool;
  gameKey : nat;
  isDelegationEnabled : bool
}.

(** [Number(localStorage.getItem(...)) || 0]. *)
Definition loadHighScore (stored : option R) : R :=
  match stored with
  | Some v => v
  | None => 0
  end.

Definition getRandomBlockDefinition (randomType : BlockShapeType) : BlockDefinition :=
  BLOCK_DEFINITIONS randomType.

(** The state of the first render; [draw] is the draw of the initial
    selected block. *)
Definition initialApp (stored : option R) (draw : BlockShapeType) : App :=
  mkApp 0 (loadHighScore stored) stored (getRandomBlockDefinition draw) None false 0 false.

Definition initializeGameBlocks (draw1 draw2 : BlockShapeType) (a : App) : App :=
  mkApp (currentScore a) (highScore a) (storedHighScore a)
    (getRandomBlockDefinition draw1) (Some (getRandomBlockDefinition draw2))
    (isGameOver a) (gameKey a) (isDelegationEnabled a).

Definition handleBlockSuccessfullyPlaced (draw1 draw2 : BlockShapeType) (a : App) : App :=
  match nextBlockDefinition a with
  | Some next =>
      mkApp (currentScore a) (highScore a) (storedHighScore a)
        next (Some (getRandomBlockDefinition draw1))
        (isGameOver a) (gameKey a) (isDelegationEnabled a)
  | None => initializeGameBlocks draw1 draw2 a
  end.

Definition handleGameOver (finalScore : R) (a : App) : App :=
  if highScore a <? finalScore
  then mkApp finalScore finalScore (Some finalScore)
         (selectedBlockDefinition a) (nextBlockDefinition a)
         true (gameKey a) (isDelegationEnabled a)
  else mkApp finalScore (highScore a) (storedHighScore a)
         (selectedBlockDefinition a) (nextBlockDefinition a)
         true (gameKey a) (isDelegationEnabled a).

Definition setCurrentScore (score : R) (a : App) : App :=
  mkApp score (highScore a) (storedHighScore a)
    (selectedBlockDefinition a) (nextBlockDefinition a)
    (isGameOver a) (gameKey a) (isDelegationEnabled a).

Definition handleRestart (draw1 draw2 : BlockShapeType) (a : App) : App :=
  initializeGameBlocks draw1 draw2
    (mkApp 0 (highScore a) (storedHighScore a)
       (selectedBlockDefinition a) (nextBlockDefinition a)
       false (S (gameKey a)) (isDelegationEnabled a)).

Definition handleDelegationToggle (a : App) : App :=
  mkApp (currentScore a) (highScore a) (storedHighScore a)
    (selectedBlockDefinition a) (nextBlockDefinition a)
    (isGameOver a) (gameKey a) (negb (isDelegationEnabled a)).

Inductive AppInput :=
| BlockPlaced (draw1 draw2 : BlockShapeType)
| GameOver (finalScore : R)
| ScoreUpdate (score : R)
| Restart (draw1 draw2 : BlockShapeType)
| DelegationToggle.

Definition appStep (a : App) (i : AppInput) : App :=
  match i with
  | BlockPlaced draw1 draw2 => handleBlockSuccessfullyPlaced draw1 draw2 a
  | GameOver finalScore => handleGameOver finalScore a
  | ScoreUpdate score => setCurrentScore score a
  | Restart draw1 draw2 => handleRestart draw1 draw2 a
  | DelegationToggle => handleDelegationToggle a
  end.

Definition appRun (a : App) (inputs : list AppInput) : App := fold_left appStep inputs a.

(** The application after its first render and the mount effect, which
    draws the first two blocks. *)
Definition mountedApp (stored : option R) (draw0 draw1 draw2 : BlockShapeType) : App :=
  initializeGameBlocks draw1 draw2 (initialApp stored draw0).

(** The final scores reported among the inputs. *)
Definition finalScores (inputs : list AppInput) : list R :=
  flat_map (fun i => match i with GameOver v => [v] | _ => [] end) inputs.

(** A definition of the catalogue. *)
Definition fromCatalogue (d : BlockDefinition) : Prop :=
  exists t, d = BLOCK_DEFINITIONS t.


(** ** Ghost and indicator meshes (the effect on [isSceneReady],
    [blockToPlace], [isGameOver])

    A mesh is its geometry, the fields of [userData] and the material the
    effect reads back, and its visibility. *)
Definition blockType_eqb (a b : BlockShapeType) : bool :=
  match a, b with
  | CUBE_S, CUBE_S | RECT_TALL, RECT_TALL | RECT_WIDE, RECT_WIDE
  | CYLINDER_S, CYLINDER_S => true
  | _, _ => false
  end.

Record GhostMesh := mkGhost {
  ghost_geometry : BufferGeometry;
  ghost_color : Z;
  ghost_blockType : BlockShapeType;
  ghost_visible : bool
}.

Record IndicatorMesh := mkIndicator {
  indicator_geometry : BufferGeometry;
  indicator_blockShape : option Shape;
  indicator_visible : bool
}.

Record Meshes := mkMeshes {
  ghostMesh : option GhostMesh;
  indicatorMesh : option IndicatorMesh
}.

Definition noMeshes : Meshes := mkMeshes None None.

Definition indicatorGeometryFor (d : BlockDefinition) : BufferGeometry :=
  match shape d with
  | Cylinder => CircleGeometry (dim_x (dimensions d)) (dim_z (dimensions d))
  | Box => PlaneGeometry (dim_x (dimensions d) * 2) (dim_z (dimensions d) * 2)
  end.

Definition hideGhost (g : GhostMesh) : GhostMesh :=
  mkGhost (ghost_geometry g) (ghost_color g) (ghost_blockType g) false.

Definition hideIndicator (i : IndicatorMesh) : IndicatorMesh :=
  mkIndicator (indicator_geometry i) (indicator_blockShape i) false.

(** The effect; the flag returned says whether it ran to its end and so
    reset the ghost offset and rotation to zero. *)
Definition ghostEffect (ready sceneSet gameOver : bool)
    (currentBlockDef : option BlockDefinition) (m : Meshes) : Meshes * bool :=
  if negb ready || negb sceneSet then
    (mkMeshes (if sceneSet then None else ghostMesh m)
              (if sceneSet then None else indicatorMesh m), false)
  else
    match currentBlockDef with
    | None => (mkMeshes (option_map hideGhost (ghostMesh m))
                        (option_map hideIndicator (indicatorMesh m)), false)
    | Some d =>
        if gameOver
        then (mkMeshes (option_map hideGhost (ghostMesh m))
                       (option_map hideIndicator (indicatorMesh m)), false)
        else
          let ghost :=
            match ghostMesh m with
            | None => mkGhost (createThreeGeometry d) (color d) (type d) true
            | Some g =>
                if negb (blockType_eqb (ghost_blockType g) (type d))
                   || negb (ghost_color g =? color d)%Z
                then mkGhost (createThreeGeometry d) (color d) (type d) true
                else mkGhost (ghost_geometry g) (ghost_color g) (ghost_blockType g) true
            end in
          let indicator :=
            match indicatorMesh m with
            | None => mkIndicator (indicatorGeometryFor d) (Some (shape d)) true
            | Some i =>
                mkIndicator
                  (match indicator_blockShape i with
                   | Some sh => if shape_eqb sh (shape d) then indicator_geometry i
                                else indicatorGeometryFor d
                   | None => indicatorGeometryFor d
                   end)
                  (Some (shape d)) true
            end in
          (mkMeshes (Some ghost) (Some indicator), true)
    end.

(** The effect run for a series of catalogue blocks in a running game. *)
Definition showBlocks (types : list BlockShapeType) (m : Meshes) : Meshes :=
  fold_left (fun m t => fst (ghostEffect true true false (Some (BLOCK_DEFINITIONS t)) m))
    types m.

(** The ghost mesh shows the catalogue block of its recorded type. *)
Definition ghostShowsItsType (m : Meshes) : Prop :=
  match ghostMesh m with
  | None => True
  | Some g =>
      ghost_geometry g = createThreeGeometry (BLOCK_DEFINITIONS (ghost_blockType g))
      /\ ghost_color g = color (BLOCK_DEFINITIONS (ghost_blockType g))
  end.

(** ** Game-over schedules *)

(** [gameOversCarryBest seen cbs]: every game-over callback among [cbs]
    carries a value that is not negative and is the largest of the scores
    published before it, those of [seen] followed by those of [cbs] up to
    that callback. *)
Fixpoint gameOversCarryBest (seen : list R) (cbs : list Callback) : Prop :=
  match cbs with
  | [] => True
  | onScoreUpdate sc :: rest => gameOversCarryBest (seen ++ [sc]) rest
  | onGameOver v :: rest =>
      (0 <= v /\ In v seen /\ forall sc, In sc seen -> sc <= v)
      /\ gameOversCarryBest seen rest
  | onBlockSuccessfullyPlaced :: rest => gameOversCarryBest seen rest
  end.

(** The schedule in which the application's [isGameOver] reaches
    [isGameOverRef] before anything else happens: [GameOverCommitted] comes
    right after every input that issued the game-over callback. *)
Fixpoint promptly (s : Scene) (inputs : list (Input * BlockDefinition))
  : list (Input * BlockDefinition) :=
  match inputs with
  | [] => []
  | i :: rest =>
      let '(s1, cbs) := step s i in
      match gameOverArgs cbs with
      | [] => i :: promptly s1 rest
      | _ :: _ =>
          i :: (GameOverCommitted, snd i)
            :: promptly (fst (step s1 (GameOverCommitted, snd i))) rest
      end
  end.

(** The one-block game with one more frame before [isGameOverRef] is set:
    the cube has fallen further. *)
Definition cubeFallsTwice : list (Input * BlockDefinition) :=
  cubeFallsOff ++ [(Frame [mkBody (mkVec 0 (-7) 0) 1], BLOCK_DEFINITIONS CUBE_S)].

(** * Properties *)

(** ** Comparisons *)

Lemma ltb_true_iff (a b : R) : (a <? b) = true <-> a < b.
Proof. unfold ltb; destruct (Rlt_dec a b); split; intros; auto; discriminate || lra. Qed.

Lemma ltb_false_iff (a b : R) : (a <? b) = false <-> b <= a.
Proof. unfold ltb; destruct (Rlt_dec a b); split; intros; auto; discriminate || lra. Qed.

Lemma leb_true_iff (a b : R) : (a <=? b) = true <-> a <= b.
Proof. unfold leb; destruct (Rle_dec a b); split; intros; auto; discriminate || lra. Qed.

Lemma leb_false_iff (a b : R) : (a <=? b) = false <-> b < a.
Proof. unfold leb; destruct (Rle_dec a b); split; intros; auto; discriminate || lra. Qed.

Lemma shape_eqb_eq (a b : Shape) : shape_eqb a b = true <-> a = b.
Proof. destruct a, b; simpl; split; congruence. Qed.

Ltac unfold_constants :=
  unfold effectiveAllowed, GROUND_LEVEL, BLOCK_SPAWN_HEIGHT_OFFSET,
    GAME_OVER_FALL_THRESHOLD_Y, FALLEN_BLOCK_DOT_THRESHOLD,
    TOWER_INSTABILITY_WARNING_DOT_THRESHOLD,
    PLACEMENT_STABILITY_GREEN_THRESHOLD_BOX, PLACEMENT_STABILITY_YELLOW_THRESHOLD_BOX,
    PLACEMENT_STABILITY_GREEN_THRESHOLD_CYLINDER,
    PLACEMENT_STABILITY_YELLOW_THRESHOLD_CYLINDER,
    CAMERA_MIN_ZOOM_DISTANCE, CAMERA_MAX_ZOOM_DISTANCE, CAMERA_ZOOM_SPEED,
    pinchThreshold, panThreshold in *.

(** Evaluates comparisons, absolute values, maxima and minima of closed
    expressions, one rewrite at a time. *)
Ltac Rcompute_step :=
  match goal with
  | |- context [Rabs ?a] =>
      first [rewrite (Rabs_right a) by lra | rewrite (Rabs_left a) by lra]
  | |- context [Rmax ?a ?b] =>
      first [rewrite (Rmax_right a b) by lra | rewrite (Rmax_left a b) by lra]
  | |- context [Rmin ?a ?b] =>
      first [rewrite (Rmin_left a b) by lra | rewrite (Rmin_right a b) by lra]
  | |- context [?a <? ?b] =>
      first [rewrite (proj2 (ltb_true_iff a b)) by lra
            | rewrite (proj2 (ltb_false_iff a b)) by lra]
  | |- context [?a <=? ?b] =>
      first [rewrite (proj2 (leb_true_iff a b)) by lra
            | rewrite (proj2 (leb_false_iff a b)) by lra]
  end.

Ltac Rcompute :=
  unfold_constants;
  repeat (Rcompute_step; cbn [andb orb negb]);
  try reflexivity; try lra; try discriminate.

(** The same, interleaved with evaluation of the model's functions. *)
Ltac model_eval :=
  cbv beta iota zeta delta
    [fold_left fst snd length app andb orb negb Nat.eqb Nat.ltb Nat.leb
     blockAt sceneWith slabAndPillar BLOCK_DEFINITIONS
     body definition position up_dot vec_x vec_y vec_z
     dimensions dim_x dim_y dim_z shape shape_eqb
     worldRef sceneRef cameraRef rendererRef physicsObjectsRef ghostBlockRef
     ghostBlockPositionY stabilityIndicatorRef ghostBlockXOffset ghostBlockYRotation
     isGameOverRef blockToPlaceRef maxAchievedHeightInGameRef currentHighestBlockYRef
     isSceneReady canAddBlock stabilityIndicatorColor
     findHighestBlock highestBlockStep exceeds centerY topY
     calculatePlacementStability stabilityAgainst
     scanTower scanBlock scanStart tipCheckGuard
     highestBlockYForFrame anyBlockFallenOffWorld anyBlockTippedOverGameEnd
     unstableBlockCountForWarning
     set_physicsObjectsRef set_ghostBlockPositionY setGhostBlockXOffset
     setGhostBlockYRotation set_isGameOverRef set_blockToPlaceRef
     set_maxAchievedHeightInGameRef set_currentHighestBlockYRef setCanAddBlock
     set_stabilityIndicatorColor
     worldStep currentTowerHeightForScore
     frameScan frameHeight terminalCondition refsReady newGame
     concat flat_map gameOverArgs scoreArgs].

Ltac Reval :=
  model_eval; unfold_constants;
  repeat (Rcompute_step; model_eval);
  try reflexivity; try lra; try discriminate.

(** ** The target of the stability evaluator *)

Lemma selected_step seen acc obj :
  selected seen acc -> selected (seen ++ [obj]) (highestBlockStep acc obj).
Proof.
  intros [[-> ->] | (b & -> & Hin & Hmax)]; right.
  - exists obj. cbn. repeat split; auto.
    intros o [<- | []]. unfold centerY; lra.
  - unfold highestBlockStep; cbn [fst exceeds].
    fold (centerY obj).
    destruct (centerY b <? centerY obj) eqn:E.
    + apply ltb_true_iff in E. exists obj. repeat split.
      * apply in_or_app; right; left; reflexivity.
      * intros o Ho. apply in_app_or in Ho as [Ho | [<- | []]]; [|lra].
        specialize (Hmax o Ho); lra.
    + apply ltb_false_iff in E. exists b. repeat split.
      * apply in_or_app; now left.
      * intros o Ho. apply in_app_or in Ho as [Ho | [<- | []]]; auto.
Qed.

Lemma selected_fold objs : forall seen acc,
  selected seen acc -> selected (seen ++ objs) (fold_left highestBlockStep objs acc).
Proof.
  induction objs as [|obj objs IH]; intros seen acc H; cbn.
  - now rewrite app_nil_r.
  - replace (seen ++ obj :: objs) with ((seen ++ [obj]) ++ objs)
      by (rewrite <- app_assoc; reflexivity).
    apply IH, selected_step, H.
Qed.

Lemma findHighestBlock_nil : findHighestBlock [] = None.
Proof. reflexivity. Qed.

Lemma findHighestBlock_spec objs b :
  findHighestBlock objs = Some b ->
  In b objs /\ forall o, In o objs -> centerY o <= centerY b.
Proof.
  unfold findHighestBlock. intros H.
  destruct (selected_fold objs [] (None, None)) as [[_ E] | (b' & E & Hin & Hmax)].
  - left; auto.
  - rewrite E in H; discriminate.
  - rewrite E in H; cbn in H. injection H as <-. cbn in Hin, Hmax. auto.
Qed.

Lemma findHighestBlock_some objs :
  objs <> [] -> exists b, findHighestBlock objs = Some b.
Proof.
  intros Hne. unfold findHighestBlock.
  destruct (selected_fold objs [] (None, None)) as [[E _] | (b & E & _)].
  - left; auto.
  - cbn in E; contradiction.
  - exists b. now rewrite E.
Qed.

Lemma calculatePlacementStability_target s ghostDef b :
  ghostBlockRef s = true ->
  blockToPlaceRef s = Some ghostDef ->
  findHighestBlock (physicsObjectsRef s) = Some b ->
  calculatePlacementStability s = stabilityAgainst ghostDef (ghostBlockXOffset s) b.
Proof.
  intros Hg Hd Hb. unfold calculatePlacementStability.
  rewrite Hd, Hg, Hb.
  destruct (physicsObjectsRef s); [discriminate Hb|reflexivity].
Qed.

(** ** Box on box *)

(** C1. With a box ghost over a box top block, the verdict is GREEN exactly
    when both planar offsets are within
    [max(0, targetHalf - ghostHalf) + ghostHalf * 0.4] on their axis, YELLOW
    exactly when that fails and both are within the same bound with factor
    [0.8], and RED otherwise. *)
Theorem box_on_box_verdict (s : Scene) (ghostDef : BlockDefinition) (topBlock : PhysicsObject) :
  ghostBlockRef s = true ->
  blockToPlaceRef s = Some ghostDef ->
  findHighestBlock (physicsObjectsRef s) = Some topBlock ->
  shape ghostDef = Box ->
  shape (definition topBlock) = Box ->
  let offsetX := Rabs (ghostBlockXOffset s - vec_x (position (body topBlock))) in
  let offsetZ := Rabs (0 - vec_z (position (body topBlock))) in
  let allowedX factor :=
    Rmax 0 (dim_x (dimensions (definition topBlock)) - dim_x (dimensions ghostDef))
    + dim_x (dimensions ghostDef) * factor in
  let allowedZ factor :=
    Rmax 0 (dim_z (dimensions (definition topBlock)) - dim_z (dimensions ghostDef))
    + dim_z (dimensions ghostDef) * factor in
  let within factor := offsetX <= allowedX factor /\ offsetZ <= allowedZ factor in
  (calculatePlacementStability s = GREEN <-> within 0.4)
  /\ (calculatePlacementStability s = YELLOW <-> ~ within 0.4 /\ within 0.8)
  /\ (calculatePlacementStability s = RED <-> ~ within 0.4 /\ ~ within 0.8).
Proof.
  intros Hg Hd Hb Hs1 Hs2 offsetX offsetZ allowedX allowedZ within.
  rewrite (calculatePlacementStability_target s ghostDef topBlock Hg Hd Hb).
  unfold stabilityAgainst. rewrite Hs1, Hs2. cbn [shape_eqb andb].
  unfold effectiveAllowed, PLACEMENT_STABILITY_GREEN_THRESHOLD_BOX,
    PLACEMENT_STABILITY_YELLOW_THRESHOLD_BOX.
  fold offsetX offsetZ. fold (allowedX 0.4) (allowedZ 0.4) (allowedX 0.8) (allowedZ 0.8).
  destruct (offsetX <=? allowedX 0.4) eqn:E1; destruct (offsetZ <=? allowedZ 0.4) eqn:E2;
    destruct (offsetX <=? allowedX 0.8) eqn:E3; destruct (offsetZ <=? allowedZ 0.8) eqn:E4;
    cbn [andb];
    repeat match goal with
           | H : (_ <=? _) = true |- _ => apply leb_true_iff in H
           | H : (_ <=? _) = false |- _ => apply leb_false_iff in H
           end;
    unfold within; repeat split; intros; try discriminate; try tauto; try lra.
Qed.

Lemma box_on_box_verdict_witness :
  calculatePlacementStability (sceneWith [blockAt CUBE_S 0 0.5 0 1] CUBE_S 0) = GREEN.
Proof.
  apply (proj1 (box_on_box_verdict
                  (sceneWith [blockAt CUBE_S 0 0.5 0 1] CUBE_S 0)
                  (BLOCK_DEFINITIONS CUBE_S) (blockAt CUBE_S 0 0.5 0 1)
                  eq_refl eq_refl eq_refl eq_refl eq_refl)).
  cbn. split; Rcompute.
Defined.

(** ** Mixed box and cylinder *)

Lemma sqrt_zero_offsets : sqrt (Rabs (0 - 0) * Rabs (0 - 0) + Rabs (0 - 0) * Rabs (0 - 0)) = 0.
Proof.
  replace (0 - 0) with 0 by lra. rewrite Rabs_R0.
  replace (0 * 0 + 0 * 0) with 0 by lra. apply sqrt_0.
Qed.

(** C6 as stated fails: a cylinder ghost centred over a box top block is
    judged GREEN by the radial rule, not given the YELLOW fallback. *)
Lemma mixed_pair_is_not_fallback :
  let s := sceneWith [blockAt CUBE_S 0 0.5 0 1] CYLINDER_S 0 in
  blockToPlaceRef s = Some (BLOCK_DEFINITIONS CYLINDER_S)
  /\ shape (BLOCK_DEFINITIONS CYLINDER_S) = Cylinder
  /\ findHighestBlock (physicsObjectsRef s) = Some (blockAt CUBE_S 0 0.5 0 1)
  /\ shape (definition (blockAt CUBE_S 0 0.5 0 1)) = Box
  /\ calculatePlacementStability s = GREEN
  /\ calculatePlacementStability s <> YELLOW.
Proof.
  assert (H : calculatePlacementStability
                (sceneWith [blockAt CUBE_S 0 0.5 0 1] CYLINDER_S 0) = GREEN).
  { cbn. rewrite sqrt_zero_offsets. Rcompute. }
  cbv zeta. rewrite H. repeat split; discriminate.
Qed.

(** C6, amended. When one of the ghost and the top block is a cylinder and
    the other a box, the verdict is computed from the radial distance
    [sqrt(offsetX^2 + offsetZ^2)] against
    [max(0, targetRadius - ghostRadius) + ghostRadius * factor], with factor
    [0.3] for GREEN and [0.7] for YELLOW, and RED otherwise. *)
Theorem mixed_pair_uses_radial_rule (s : Scene) (ghostDef : BlockDefinition)
    (topBlock : PhysicsObject) :
  ghostBlockRef s = true ->
  blockToPlaceRef s = Some ghostDef ->
  findHighestBlock (physicsObjectsRef s) = Some topBlock ->
  shape ghostDef <> shape (definition topBlock) ->
  let offsetX := Rabs (ghostBlockXOffset s - vec_x (position (body topBlock))) in
  let offsetZ := Rabs (0 - vec_z (position (body topBlock))) in
  let radialDistance := sqrt (offsetX * offsetX + offsetZ * offsetZ) in
  let allowed factor :=
    Rmax 0 (dim_x (dimensions (definition topBlock)) - dim_x (dimensions ghostDef))
    + dim_x (dimensions ghostDef) * factor in
  (calculatePlacementStability s = GREEN <-> radialDistance <= allowed 0.3)
  /\ (calculatePlacementStability s = YELLOW <->
      ~ radialDistance <= allowed 0.3 /\ radialDistance <= allowed 0.7)
  /\ (calculatePlacementStability s = RED <->
      ~ radialDistance <= allowed 0.3 /\ ~ radialDistance <= allowed 0.7).
Proof.
  intros Hg Hd Hb Hne offsetX offsetZ radialDistance allowed.
  rewrite (calculatePlacementStability_target s ghostDef topBlock Hg Hd Hb).
  unfold stabilityAgainst.
  assert (Hsel : shape_eqb (shape ghostDef) Box && shape_eqb (shape (definition topBlock)) Box = false
                 /\ shape_eqb (shape ghostDef) Cylinder
                    || shape_eqb (shape (definition topBlock)) Cylinder = true).
  { destruct (shape ghostDef), (shape (definition topBlock)); cbn; auto; congruence. }
  destruct Hsel as [-> ->].
  unfold effectiveAllowed, PLACEMENT_STABILITY_GREEN_THRESHOLD_CYLINDER,
    PLACEMENT_STABILITY_YELLOW_THRESHOLD_CYLINDER.
  fold offsetX offsetZ. fold radialDistance. fold (allowed 0.3) (allowed 0.7).
  destruct (radialDistance <=? allowed 0.3) eqn:E1;
    destruct (radialDistance <=? allowed 0.7) eqn:E2;
    repeat match goal with
           | H : (_ <=? _) = true |- _ => apply leb_true_iff in H
           | H : (_ <=? _) = false |- _ => apply leb_false_iff in H
           end;
    repeat split; intros; try discriminate; try tauto; try lra.
Qed.

Lemma mixed_pair_uses_radial_rule_witness :
  calculatePlacementStability (sceneWith [blockAt CUBE_S 0 0.5 0 1] CYLINDER_S 0) = GREEN.
Proof.
  apply (proj1 (mixed_pair_uses_radial_rule
                  (sceneWith [blockAt CUBE_S 0 0.5 0 1] CYLINDER_S 0)
                  (BLOCK_DEFINITIONS CYLINDER_S) (blockAt CUBE_S 0 0.5 0 1)
                  eq_refl eq_refl eq_refl ltac:(discriminate))).
  cbn. rewrite sqrt_zero_offsets. Rcompute.
Defined.

(** ** The comparison target *)

Lemma slabAndPillar_target :
  findHighestBlock slabAndPillar = Some (blockAt RECT_WIDE 1 1.25 0 1).
Proof. unfold findHighestBlock, slabAndPillar. Reval. Qed.

(** C9. With at least two placed blocks the evaluator judges the ghost
    against a placed block whose body centre is highest; that block need not
    be the one whose top surface is highest. *)
Theorem target_is_highest_center :
  (forall (s : Scene) (ghostDef : BlockDefinition),
      ghostBlockRef s = true ->
      blockToPlaceRef s = Some ghostDef ->
      (2 <= length (physicsObjectsRef s))%nat ->
      exists b,
        In b (physicsObjectsRef s)
        /\ (forall o, In o (physicsObjectsRef s) -> centerY o <= centerY b)
        /\ calculatePlacementStability s
           = stabilityAgainst ghostDef (ghostBlockXOffset s) b)
  /\ (exists (objs : list PhysicsObject) (b o : PhysicsObject),
         (2 <= length objs)%nat
         /\ findHighestBlock objs = Some b
         /\ In o objs
         /\ topY b < topY o).
Proof.
  split.
  - intros s ghostDef Hg Hd Hlen.
    destruct (findHighestBlock_some (physicsObjectsRef s)) as [b Hb].
    { destruct (physicsObjectsRef s); [cbn in Hlen; lia | discriminate]. }
    exists b. destruct (findHighestBlock_spec _ _ Hb) as [Hin Hmax].
    repeat split; auto.
    now apply calculatePlacementStability_target.
  - exists slabAndPillar, (blockAt RECT_WIDE 1 1.25 0 1), (blockAt RECT_TALL (-1) 1 0 1).
    repeat split.
    + cbn; lia.
    + apply slabAndPillar_target.
    + cbn; auto.
    + unfold topY; cbn; lra.
Qed.

Lemma target_is_highest_center_witness :
  exists b,
    In b slabAndPillar
    /\ (forall o, In o slabAndPillar -> centerY o <= centerY b)
    /\ calculatePlacementStability (sceneWith slabAndPillar CUBE_S 0)
       = stabilityAgainst (BLOCK_DEFINITIONS CUBE_S) 0 b.
Proof.
  apply (proj1 target_is_highest_center (sceneWith slabAndPillar CUBE_S 0)
           (BLOCK_DEFINITIONS CUBE_S) eq_refl eq_refl).
  cbn; lia.
Defined.

(** ** Ghost rotation *)

(** C10. The verdict does not depend on the ghost's yaw: with the offset, the
    pending block and the placed blocks fixed, any two rotations give the
    same result, for the evaluator and for the indicator colour a frame
    publishes. *)
Theorem stability_ignores_rotation (s : Scene) (rotation1 rotation2 : R) :
  calculatePlacementStability (setGhostBlockYRotation rotation1 s)
  = calculatePlacementStability (setGhostBlockYRotation rotation2 s)
  /\ forall poses,
      stabilityIndicatorColor (fst (animate poses (setGhostBlockYRotation rotation1 s)))
      = stabilityIndicatorColor (fst (animate poses (setGhostBlockYRotation rotation2 s))).
Proof.
  split; [reflexivity|].
  intros poses. destruct s as [w sc cam rend objs gb gy ind gx rot over def mx hy ready can col].
  unfold animate; cbn.
  destruct (negb w || negb sc || negb cam || negb rend); [reflexivity|].
  destruct over; cbn.
  - destruct def; [rewrite !andb_false_r|]; reflexivity.
  - destruct def; [|reflexivity].
    destruct (gb && ind && true && ready); reflexivity.
Qed.

(** ** Tower monitor *)

Lemma scanBlock_tipped n over acc obj :
  anyBlockTippedOverGameEnd (scanBlock n over acc obj) = true <->
  anyBlockTippedOverGameEnd acc = true
  \/ ((2 <= n)%nat /\ over = false /\ up_dot (body obj) < FALLEN_BLOCK_DOT_THRESHOLD).
Proof.
  unfold scanBlock, tipCheckGuard; cbn [anyBlockTippedOverGameEnd].
  destruct (Nat.leb_spec 2 n); destruct over; destruct (anyBlockTippedOverGameEnd acc);
    cbn [andb negb];
    try destruct (up_dot (body obj) <? FALLEN_BLOCK_DOT_THRESHOLD) eqn:E;
    try apply ltb_true_iff in E; try apply ltb_false_iff in E;
    split; intros; auto; try tauto;
    repeat match goal with
           | H : _ \/ _ |- _ => destruct H
           | H : _ /\ _ |- _ => destruct H
           end;
    try discriminate; try lia; try lra.
Qed.

Lemma scan_fold_tipped n over objs : forall acc,
  anyBlockTippedOverGameEnd (fold_left (scanBlock n over) objs acc) = true <->
  anyBlockTippedOverGameEnd acc = true
  \/ ((2 <= n)%nat /\ over = false
      /\ exists o, In o objs /\ up_dot (body o) < FALLEN_BLOCK_DOT_THRESHOLD).
Proof.
  induction objs as [|obj objs IH]; intros acc; cbn [fold_left].
  - split; [auto|]. intros [H | (_ & _ & o & [] & _)]; exact H.
  - rewrite IH, scanBlock_tipped. split.
    + intros [[H | (Hn & Ho & Hd)] | (Hn & Ho & o & Hin & Hd)]; auto.
      * right; repeat split; auto. exists obj; split; [now left | exact Hd].
      * right; repeat split; auto. exists o; split; [now right | exact Hd].
    + intros [H | (Hn & Ho & o & [<- | Hin] & Hd)]; auto.
      right; repeat split; auto. exists o; auto.
Qed.

(** The physics step keeps the number of placed blocks. *)
Lemma worldStep_length poses : forall objs, length (worldStep poses objs) = length objs.
Proof.
  induction poses as [|pose poses IH]; intros [|obj objs]; cbn; auto.
Qed.

(** C3. The tip-over flag of a frame is set exactly when at least two blocks
    are placed, the game is active and some block is tilted past the
    threshold; so it is never set with fewer than two blocks, whatever their
    orientation.  A block changes the flag only under the guard: two or more
    blocks, game active, flag not yet set in this frame. *)
Theorem tip_over_needs_two_blocks (objs : list PhysicsObject) (gameOver : bool) :
  (anyBlockTippedOverGameEnd (scanTower objs gameOver) = true <->
   (2 <= length objs)%nat /\ gameOver = false
   /\ exists o, In o objs /\ up_dot (body o) < FALLEN_BLOCK_DOT_THRESHOLD)
  /\ ((length objs < 2)%nat -> anyBlockTippedOverGameEnd (scanTower objs gameOver) = false)
  /\ (forall n acc obj,
         anyBlockTippedOverGameEnd (scanBlock n gameOver acc obj)
         <> anyBlockTippedOverGameEnd acc ->
         tipCheckGuard n gameOver acc = true
         /\ (2 <= n)%nat /\ gameOver = false /\ anyBlockTippedOverGameEnd acc = false)
  /\ (forall s poses,
         physicsObjectsRef s = objs -> isGameOverRef s = gameOver ->
         (length objs < 2)%nat ->
         anyBlockTippedOverGameEnd (frameScan poses s) = false).
Proof.
  assert (Hiff : forall l, anyBlockTippedOverGameEnd (scanTower l gameOver) = true <->
                 (2 <= length l)%nat /\ gameOver = false
                 /\ exists o, In o l /\ up_dot (body o) < FALLEN_BLOCK_DOT_THRESHOLD).
  { intros l. unfold scanTower. rewrite scan_fold_tipped. cbn. split; [|auto].
    intros [H | H]; [discriminate | exact H]. }
  assert (Hfew : forall l, (length l < 2)%nat ->
                 anyBlockTippedOverGameEnd (scanTower l gameOver) = false).
  { intros l Hlen. apply not_true_is_false. intros E. apply Hiff in E. lia. }
  split; [apply Hiff|]. split; [apply Hfew|]. split.
  - intros n acc obj Hchg. unfold scanBlock in Hchg; cbn [anyBlockTippedOverGameEnd] in Hchg.
    destruct (tipCheckGuard n gameOver acc) eqn:G; [|congruence].
    split; [reflexivity|]. unfold tipCheckGuard in G.
    apply andb_true_iff in G as [G G3]. apply andb_true_iff in G as [G1 G2].
    apply Nat.leb_le in G1. apply negb_true_iff in G2, G3. auto.
  - intros s poses Hobjs Hover Hlen. unfold frameScan. rewrite Hobjs, Hover.
    apply Hfew. now rewrite worldStep_length.
Qed.

Lemma tip_over_needs_two_blocks_witness :
  anyBlockTippedOverGameEnd (scanTower [blockAt CUBE_S 0 0.5 0 0] false) = false.
Proof.
  apply (proj1 (proj2 (tip_over_needs_two_blocks [blockAt CUBE_S 0 0.5 0 0] false))).
  cbn; lia.
Defined.

(** C7 as stated fails: in an active game with two blocks, one of them with
    up-vector alignment 0.9, no block is counted as unstable. *)
Lemma tilt_0_9_is_not_counted :
  up_dot (body (blockAt CUBE_S 0 1.5 0 0.9)) = 0.9
  /\ unstableBlockCountForWarning
       (scanTower [blockAt CUBE_S 0 0.5 0 1; blockAt CUBE_S 0 1.5 0 0.9] false) = 0%nat.
Proof. split; [reflexivity|]. Reval. Qed.

(** C7, amended. While the game is active, a block with alignment 0.9 leaves
    the unstable count and the tip-over flag as they were: 0.9 is not below
    the warning threshold 0.866.  A block counts as unstable without setting
    the tip-over flag when its alignment is below 0.866 and at least 0.5. *)
Theorem tilt_0_9_neither_warns_nor_ends (n : nat) (acc : TowerScan) (obj : PhysicsObject) :
  up_dot (body obj) = 0.9 ->
  unstableBlockCountForWarning (scanBlock n false acc obj)
  = unstableBlockCountForWarning acc
  /\ anyBlockTippedOverGameEnd (scanBlock n false acc obj)
     = anyBlockTippedOverGameEnd acc
  /\ forall obj',
      0.5 <= up_dot (body obj') < 0.866 ->
      unstableBlockCountForWarning (scanBlock n false acc obj')
      = S (unstableBlockCountForWarning acc)
      /\ anyBlockTippedOverGameEnd (scanBlock n false acc obj')
         = anyBlockTippedOverGameEnd acc.
Proof.
  intros Hdot. unfold scanBlock.
  cbn [unstableBlockCountForWarning anyBlockTippedOverGameEnd negb andb].
  rewrite Hdot. repeat split.
  - Rcompute.
  - destruct (tipCheckGuard n false acc); Rcompute.
  - unfold_constants.
    rewrite (proj2 (ltb_true_iff (up_dot (body obj')) 0.866)) by lra. reflexivity.
  - unfold_constants.
    rewrite (proj2 (ltb_false_iff (up_dot (body obj')) 0.5)) by lra.
    destruct (tipCheckGuard n false acc); reflexivity.
Qed.

Lemma tilt_0_9_neither_warns_nor_ends_witness :
  unstableBlockCountForWarning (scanBlock 2 false scanStart (blockAt CUBE_S 0 1.5 0 0.9))
  = unstableBlockCountForWarning scanStart.
Proof.
  apply (proj1 (tilt_0_9_neither_warns_nor_ends 2 scanStart
                  (blockAt CUBE_S 0 1.5 0 0.9) eq_refl)).
Defined.

(** ** One frame *)

Lemma animate_not_ready poses s :
  refsReady s = false -> animate poses s = (s, []).
Proof.
  unfold refsReady, animate. intros H.
  destruct (worldRef s), (sceneRef s), (cameraRef s), (rendererRef s);
    try discriminate; reflexivity.
Qed.

Lemma animate_callbacks poses s :
  refsReady s = true ->
  snd (animate poses s)
  = (if negb (isGameOverRef s) then [onScoreUpdate (Rmax 0 (frameHeight poses s))] else [])
    ++ (if terminalCondition poses s && negb (isGameOverRef s)
        then [onGameOver (Rmax 0 (Rmax (maxAchievedHeightInGameRef s) (frameHeight poses s)))]
        else []).
Proof.
  unfold refsReady, animate, frameHeight, terminalCondition, frameScan.
  destruct s as [w sc cam rend objs gb gy ind gx rot over def mx hy ready can col]; cbn.
  intros H. destruct w, sc, cam, rend; try discriminate; cbn.
  destruct over; cbn; rewrite ?andb_false_r, ?andb_true_r; reflexivity.
Qed.

Lemma animate_isGameOverRef poses s :
  isGameOverRef (fst (animate poses s)) = isGameOverRef s.
Proof.
  unfold animate.
  destruct s as [w sc cam rend objs gb gy ind gx rot over def mx hy ready can col]; cbn.
  destruct (negb w || negb sc || negb cam || negb rend); [reflexivity|].
  destruct over; cbn; destruct def; try reflexivity.
  - rewrite !andb_false_r; reflexivity.
  - destruct (gb && ind && true && ready); reflexivity.
Qed.

Lemma animate_maxAchieved poses s :
  refsReady s = true ->
  maxAchievedHeightInGameRef (fst (animate poses s))
  = if isGameOverRef s then maxAchievedHeightInGameRef s
    else Rmax (maxAchievedHeightInGameRef s) (frameHeight poses s).
Proof.
  unfold refsReady, animate, frameHeight, frameScan.
  destruct s as [w sc cam rend objs gb gy ind gx rot over def mx hy ready can col]; cbn.
  intros H. destruct w, sc, cam, rend; try discriminate; cbn.
  destruct over; cbn; destruct def; try reflexivity.
  - rewrite !andb_false_r; reflexivity.
  - destruct (gb && ind && true && ready); reflexivity.
Qed.

Lemma animate_refsReady poses s :
  refsReady (fst (animate poses s)) = refsReady s.
Proof.
  unfold refsReady, animate.
  destruct s as [w sc cam rend objs gb gy ind gx rot over def mx hy ready can col]; cbn.
  destruct (negb w || negb sc || negb cam || negb rend); [reflexivity|].
  destruct over; cbn; destruct def; try reflexivity.
  - rewrite !andb_false_r; reflexivity.
  - destruct (gb && ind && true && ready); reflexivity.
Qed.

(** ** Single inputs *)

Lemma animate_physicsObjects poses s :
  refsReady s = true ->
  physicsObjectsRef (fst (animate poses s)) = worldStep poses (physicsObjectsRef s).
Proof.
  unfold refsReady, animate.
  destruct s as [w sc cam rend objs gb gy ind gx rot over def mx hy ready can col]; cbn.
  intros H. destruct w, sc, cam, rend; try discriminate; cbn.
  destruct over; cbn; destruct def; try reflexivity.
  - rewrite !andb_false_r; reflexivity.
  - destruct (gb && ind && true && ready); reflexivity.
Qed.

(** The placement either is rejected and changes nothing, or appends the new
    block, starts the cooldown and resets the ghost. *)
Lemma internalAddBlock_cases s :
  internalAddBlock s = (s, [])
  \/ exists definition,
      blockToPlaceRef s = Some definition
      /\ internalAddBlock s
         = (setGhostBlockYRotation 0
              (setGhostBlockXOffset 0
                 (set_physicsObjectsRef (physicsObjectsRef s ++ [newBlock definition s])
                    (setCanAddBlock false s))),
            [onBlockSuccessfullyPlaced]).
Proof.
  unfold internalAddBlock. destruct (blockToPlaceRef s) as [d|]; [|now left].
  destruct (negb (worldRef s) || negb (sceneRef s) || isGameOverRef s
            || negb (canAddBlock s) || negb (ghostBlockRef s)); [now left|].
  right. exists d. split; reflexivity.
Qed.

Lemma internalAddBlock_over s :
  isGameOverRef s = true -> internalAddBlock s = (s, []).
Proof.
  intros H. unfold internalAddBlock. rewrite H.
  destruct (blockToPlaceRef s); [|reflexivity].
  rewrite !orb_true_r. reflexivity.
Qed.

(** Handing callbacks to the application leaves the game-over flag alone. *)
Lemma deliver_isGameOverRef next cbs : forall s,
  isGameOverRef (fold_left (deliver next) cbs s) = isGameOverRef s.
Proof.
  induction cbs as [|cb cbs IH]; intros s; [reflexivity|].
  cbn [fold_left]. rewrite IH. destruct cb; reflexivity.
Qed.

(** What an input other than a frame or the game-over commit does to the
    game-over flag, the best height, the refs and the callbacks. *)
Lemma step_no_frame s i next :
  (forall poses, i <> Frame poses) ->
  i <> GameOverCommitted ->
  (snd (step s (i, next)) = [] \/ snd (step s (i, next)) = [onBlockSuccessfullyPlaced])
  /\ isGameOverRef (fst (step s (i, next))) = isGameOverRef s
  /\ maxAchievedHeightInGameRef (fst (step s (i, next))) = maxAchievedHeightInGameRef s
  /\ refsReady (fst (step s (i, next))) = refsReady s.
Proof.
  intros Hi Hcommit.
  assert (Hadd : forall r, r = internalAddBlock s ->
            (snd r = [] \/ snd r = [onBlockSuccessfullyPlaced])
            /\ isGameOverRef (fold_left (deliver next) (snd r) (fst r)) = isGameOverRef s
            /\ maxAchievedHeightInGameRef (fold_left (deliver next) (snd r) (fst r))
               = maxAchievedHeightInGameRef s
            /\ refsReady (fold_left (deliver next) (snd r) (fst r)) = refsReady s).
  { intros r ->. destruct (internalAddBlock_cases s) as [-> | (d & _ & ->)]; cbn; auto. }
  unfold step; cbn [fst snd].
  destruct i as [poses|key| | |].
  - exfalso; now apply (Hi poses).
  - unfold handleBlockKey.
    destruct (isGameOverRef s || negb (isSceneReady s) || negb (ghostBlockRef s)
              || match blockToPlaceRef s with None => true | Some _ => false end);
      [cbn; auto|].
    destruct key; try (cbn; auto; fail).
    + specialize (Hadd _ eq_refl). destruct (internalAddBlock s); exact Hadd.
    + specialize (Hadd _ eq_refl). destruct (internalAddBlock s); exact Hadd.
  - specialize (Hadd _ eq_refl). destruct (internalAddBlock s); exact Hadd.
  - cbn; auto.
  - now contradiction Hcommit.
Qed.

(** The game-over commit: the flag is set, nothing else changes and nothing
    is called back. *)
Lemma step_commit s next :
  step s (GameOverCommitted, next) = (set_isGameOverRef true s, []).
Proof. reflexivity. Qed.

(** A frame of an active game: the score is published, the best height is
    raised, and the game-over callback is issued exactly when the terminal
    condition holds; the game-over flag stays unset. *)
Lemma step_frame_active s poses next :
  refsReady s = true ->
  isGameOverRef s = false ->
  snd (step s (Frame poses, next))
  = onScoreUpdate (Rmax 0 (frameHeight poses s))
    :: (if terminalCondition poses s
        then [onGameOver (Rmax 0 (Rmax (maxAchievedHeightInGameRef s) (frameHeight poses s)))]
        else [])
  /\ isGameOverRef (fst (step s (Frame poses, next))) = false
  /\ maxAchievedHeightInGameRef (fst (step s (Frame poses, next)))
     = Rmax (maxAchievedHeightInGameRef s) (frameHeight poses s)
  /\ physicsObjectsRef (fst (step s (Frame poses, next)))
     = worldStep poses (physicsObjectsRef s)
  /\ refsReady (fst (step s (Frame poses, next))) = true.
Proof.
  intros Hr Ho.
  pose proof (animate_callbacks poses s Hr) as Hc.
  pose proof (animate_isGameOverRef poses s) as Hg.
  pose proof (animate_maxAchieved poses s Hr) as Hm.
  pose proof (animate_physicsObjects poses s Hr) as Hp.
  pose proof (animate_refsReady poses s) as Hrr.
  rewrite Ho in Hc, Hg, Hm. cbn [negb] in Hc. rewrite andb_true_r in Hc. rewrite Hr in Hrr.
  unfold step; cbn [fst snd]. destruct (animate poses s) as [s' cbs].
  cbn [fst snd] in *. subst cbs.
  destruct (terminalCondition poses s); cbn; repeat split; auto.
Qed.

Lemma step_frame_idle s poses next :
  refsReady s = false \/ isGameOverRef s = true ->
  snd (step s (Frame poses, next)) = []
  /\ isGameOverRef (fst (step s (Frame poses, next))) = isGameOverRef s
  /\ maxAchievedHeightInGameRef (fst (step s (Frame poses, next)))
     = maxAchievedHeightInGameRef s
  /\ refsReady (fst (step s (Frame poses, next))) = refsReady s.
Proof.
  intros H. destruct (refsReady s) eqn:Hr.
  - destruct H as [H | Ho]; [discriminate|].
    pose proof (animate_callbacks poses s Hr) as Hc.
    pose proof (animate_isGameOverRef poses s) as Hg.
    pose proof (animate_maxAchieved poses s Hr) as Hm.
    pose proof (animate_refsReady poses s) as Hrr.
    rewrite Ho in Hc, Hm. cbn [negb] in Hc. rewrite andb_false_r in Hc. cbn in Hc.
    unfold step; cbn [fst snd]. destruct (animate poses s) as [s' cbs].
    cbn [fst snd] in *. subst cbs. cbn. rewrite Hrr, Hr. auto.
  - unfold step; cbn [fst snd]. rewrite (animate_not_ready poses s Hr). cbn. auto.
Qed.

(** No frame touches the game-over flag. *)
Lemma step_frame_isGameOverRef s poses next :
  isGameOverRef (fst (step s (Frame poses, next))) = isGameOverRef s.
Proof.
  unfold step; cbn [fst snd]. destruct (animate poses s) as [s' cbs] eqn:E.
  cbn [fst snd]. rewrite deliver_isGameOverRef.
  change s' with (fst (s', cbs)). rewrite <- E. apply animate_isGameOverRef.
Qed.

(** With the flag set, no input calls anything back, and the flag stays. *)
Lemma step_over s i :
  isGameOverRef s = true ->
  snd (step s i) = [] /\ isGameOverRef (fst (step s i)) = true.
Proof.
  intros Ho. destruct i as [[poses|key| | |] next].
  - destruct (step_frame_idle s poses next (or_intror Ho)) as (-> & -> & _). auto.
  - unfold step, handleBlockKey; cbn [fst snd]. rewrite Ho. cbn. auto.
  - unfold step; cbn [fst snd]. rewrite (internalAddBlock_over s Ho). cbn. auto.
  - unfold step; cbn [fst snd fold_left]. auto.
  - rewrite step_commit. auto.
Qed.

(** ** Whole games *)

Lemma callbacksOf_cons s i rest :
  callbacksOf s (i :: rest) = snd (step s i) ++ callbacksOf (fst (step s i)) rest.
Proof.
  unfold callbacksOf; cbn [run].
  destruct (step s i) as [s1 cbs]; cbn [fst snd].
  destruct (run s1 rest) as [s2 trace]; reflexivity.
Qed.

Lemma gameOverArgs_app a b : gameOverArgs (a ++ b) = gameOverArgs a ++ gameOverArgs b.
Proof. apply flat_map_app. Qed.

Lemma scoreArgs_app a b : scoreArgs (a ++ b) = scoreArgs a ++ scoreArgs b.
Proof. apply flat_map_app. Qed.

Lemma quiet_callbacks cbs :
  cbs = [] \/ cbs = [onBlockSuccessfullyPlaced] ->
  gameOverArgs cbs = [] /\ scoreArgs cbs = [].
Proof. intros [-> | ->]; split; reflexivity. Qed.

(** Once the flag is set, nothing is called back any more. *)
Lemma run_over_silent inputs : forall s,
  isGameOverRef s = true -> callbacksOf s inputs = [].
Proof.
  induction inputs as [|i rest IH]; intros s Ho; [reflexivity|].
  rewrite callbacksOf_cons. destruct (step_over s i Ho) as [-> Ho'].
  cbn [app]. now apply IH.
Qed.

Lemma run_over inputs : forall s,
  isGameOverRef s = true ->
  gameOverArgs (callbacksOf s inputs) = [] /\ scoreArgs (callbacksOf s inputs) = [].
Proof.
  intros s Ho. rewrite (run_over_silent inputs s Ho). split; reflexivity.
Qed.

Lemma best_scored m seen h :
  best m seen -> best (Rmax m h) (seen ++ [Rmax 0 h]).
Proof.
  intros (H0 & Hub & Hin). repeat split.
  - pose proof (Rmax_l m h); lra.
  - intros sc Hsc. apply in_app_or in Hsc as [Hsc | [<- | []]].
    + specialize (Hub sc Hsc). pose proof (Rmax_l m h); lra.
    + apply Rmax_lub; [pose proof (Rmax_l m h); lra | apply Rmax_r].
  - left. apply in_or_app.
    destruct (Rle_dec m h) as [Hle | Hgt].
    + right; left. rewrite (Rmax_right m h Hle). apply Rmax_right; lra.
    + rewrite (Rmax_left m h) by lra.
      destruct Hin as [Hin | [-> ->]]; [now left|].
      right; left. apply Rmax_left; lra.
Qed.

Lemma best_start : best 0 [].
Proof.
  unfold best. split; [lra|]. split; [intros sc []|]. right; split; reflexivity.
Qed.

Lemma best_max_attained m seen :
  best m seen -> seen <> [] -> In m seen /\ forall sc, In sc seen -> sc <= m.
Proof.
  intros (H0 & Hub & [Hin | [-> _]]) Hne; [auto | contradiction].
Qed.

Lemma gameOversCarryBest_app a : forall seen b,
  gameOversCarryBest seen a ->
  gameOversCarryBest (seen ++ scoreArgs a) b ->
  gameOversCarryBest seen (a ++ b).
Proof.
  induction a as [|cb a IH]; intros seen b Ha Hb.
  - cbn in Hb. rewrite app_nil_r in Hb. exact Hb.
  - destruct cb as [sc|v|]; cbn [app gameOversCarryBest] in *.
    + apply IH; [exact Ha|].
      change (scoreArgs (onScoreUpdate sc :: a)) with ([sc] ++ scoreArgs a) in Hb.
      rewrite <- app_assoc. exact Hb.
    + destruct Ha as [Hv Ha]. split; [exact Hv|]. apply IH; assumption.
    + apply IH; assumption.
Qed.

(** While the flag is unset the best height is the largest published
    score, so every game-over callback carries that score, however many
    frames pass before the flag is set. *)
Lemma run_carry inputs : forall s seen,
  (isGameOverRef s = false -> best (maxAchievedHeightInGameRef s) seen) ->
  gameOversCarryBest seen (callbacksOf s inputs).
Proof.
  induction inputs as [|[i next] rest IH]; intros s seen Hbest; [exact I|].
  rewrite callbacksOf_cons.
  destruct (isGameOverRef s) eqn:Ho.
  { destruct (step_over s (i, next) Ho) as [-> Ho'].
    cbn [app]. apply IH. rewrite Ho'. discriminate. }
  specialize (Hbest eq_refl).
  assert (Hquiet :
    (snd (step s (i, next)) = [] \/ snd (step s (i, next)) = [onBlockSuccessfullyPlaced]) ->
    (isGameOverRef (fst (step s (i, next))) = false ->
     maxAchievedHeightInGameRef (fst (step s (i, next))) = maxAchievedHeightInGameRef s) ->
    gameOversCarryBest seen (snd (step s (i, next)) ++ callbacksOf (fst (step s (i, next))) rest)).
  { intros Hc Hm. apply gameOversCarryBest_app.
    - destruct Hc as [-> | ->]; exact I.
    - destruct (quiet_callbacks _ Hc) as [_ ->]. rewrite app_nil_r.
      apply IH. intros Ho'. rewrite (Hm Ho'). exact Hbest. }
  destruct i as [poses|key| | |].
  - destruct (refsReady s) eqn:Hr.
    + destruct (step_frame_active s poses next Hr Ho) as (Hc & Hg & Hm & _).
      pose proof (best_scored _ _ (frameHeight poses s) Hbest) as Hb.
      apply gameOversCarryBest_app.
      * rewrite Hc. cbn [gameOversCarryBest].
        destruct (terminalCondition poses s); [|exact I].
        cbn [gameOversCarryBest]. split; [|exact I].
        destruct (best_max_attained _ _ Hb) as [Hin Hub]; [now destruct seen|].
        destruct Hb as (Hnn & _). rewrite (Rmax_right 0 _ Hnn). auto.
      * replace (scoreArgs (snd (step s (Frame poses, next))))
          with [Rmax 0 (frameHeight poses s)]
          by (rewrite Hc; destruct (terminalCondition poses s); reflexivity).
        apply IH. intros _. rewrite Hm. exact Hb.
    + destruct (step_frame_idle s poses next (or_introl Hr)) as (Hc & Hg & Hm & _).
      apply Hquiet; [left; exact Hc | intros _; exact Hm].
  - destruct (step_no_frame s (Key key) next) as (Hc & _ & Hm & _);
      [discriminate | discriminate |]. apply Hquiet; auto.
  - destruct (step_no_frame s PlaceButton next) as (Hc & _ & Hm & _);
      [discriminate | discriminate |]. apply Hquiet; auto.
  - destruct (step_no_frame s CooldownTimer next) as (Hc & _ & Hm & _);
      [discriminate | discriminate |]. apply Hquiet; auto.
  - apply Hquiet; [left; reflexivity|]. rewrite step_commit. discriminate.
Qed.

(** One input issues the game-over callback at most once. *)
Lemma step_gameOver_count s i :
  (length (gameOverArgs (snd (step s i))) <= 1)%nat.
Proof.
  destruct i as [[poses|key| | |] next].
  - destruct (refsReady s) eqn:Hr; [destruct (isGameOverRef s) eqn:Ho|].
    + destruct (step_frame_idle s poses next (or_intror Ho)) as (-> & _). cbn; lia.
    + destruct (step_frame_active s poses next Hr Ho) as (-> & _).
      destruct (terminalCondition poses s); cbn; lia.
    + destruct (step_frame_idle s poses next (or_introl Hr)) as (-> & _). cbn; lia.
  - destruct (step_no_frame s (Key key) next) as (Hc & _); [discriminate | discriminate |].
    destruct (quiet_callbacks _ Hc) as [-> _]. cbn; lia.
  - destruct (step_no_frame s PlaceButton next) as (Hc & _); [discriminate | discriminate |].
    destruct (quiet_callbacks _ Hc) as [-> _]. cbn; lia.
  - destruct (step_no_frame s CooldownTimer next) as (Hc & _); [discriminate | discriminate |].
    destruct (quiet_callbacks _ Hc) as [-> _]. cbn; lia.
  - rewrite step_commit. cbn; lia.
Qed.

(** When the commit follows the callback at once, a game issues the
    game-over callback at most once. *)
Lemma promptly_once inputs : forall s,
  (length (gameOverArgs (callbacksOf s (promptly s inputs))) <= 1)%nat.
Proof.
  induction inputs as [|i rest IH]; intros s; [cbn; lia|].
  cbn [promptly]. pose proof (step_gameOver_count s i) as Hn.
  destruct (step s i) as [s1 cbs] eqn:E. cbn [snd] in Hn.
  destruct (gameOverArgs cbs) as [|v vs] eqn:G.
  - rewrite callbacksOf_cons, gameOverArgs_app, E. cbn [fst snd]. rewrite G. apply IH.
  - rewrite !callbacksOf_cons, !gameOverArgs_app, E. cbn [fst snd].
    rewrite G, step_commit. cbn [fst snd].
    rewrite (run_over_silent _ (set_isGameOverRef true s1) eq_refl).
    cbn [gameOverArgs flat_map app]. rewrite app_nil_r. exact Hn.
Qed.

(** The cube that rests for a frame and then falls: the score drops to 0 in
    the falling frame, the game-over callback carries the earlier 1; a
    further frame before the flag is set issues the callback again. *)
Lemma cube_games :
  callbacksOf (newGame (BLOCK_DEFINITIONS CUBE_S)) cubeFallsOff
  = [onBlockSuccessfullyPlaced; onScoreUpdate 1; onScoreUpdate 0; onGameOver 1]
  /\ callbacksOf (newGame (BLOCK_DEFINITIONS CUBE_S)) cubeFallsTwice
     = [onBlockSuccessfullyPlaced; onScoreUpdate 1; onScoreUpdate 0; onGameOver 1;
        onScoreUpdate 0; onGameOver 1].
Proof.
  unfold cubeFallsTwice, cubeFallsOff. cbn [app].
  set (d := BLOCK_DEFINITIONS CUBE_S).
  set (s0 := newGame d).
  set (s1 := fst (step s0 (PlaceButton, d))).
  set (p1 := [mkBody (mkVec 0 0.5 0) 1]).
  set (p2 := [mkBody (mkVec 0 (-6) 0) 1]).
  set (p3 := [mkBody (mkVec 0 (-7) 0) 1]).
  set (s2 := fst (step s1 (Frame p1, d))).
  set (s3 := fst (step s2 (Frame p2, d))).
  rewrite !callbacksOf_cons. fold s1. fold s2. fold s3.
  change (snd (step s0 (PlaceButton, d))) with [onBlockSuccessfullyPlaced].
  assert (Hobjs1 : physicsObjectsRef s1 = [mkObj (mkBody (mkVec 0 0 0) 1) d]) by reflexivity.
  assert (Hover1 : isGameOverRef s1 = false) by reflexivity.
  assert (Hmax1 : maxAchievedHeightInGameRef s1 = 0) by reflexivity.
  assert (Hh1 : frameHeight p1 s1 = 1).
  { unfold frameHeight, frameScan. rewrite Hobjs1, Hover1. unfold p1, d. Reval. }
  assert (Ht1 : terminalCondition p1 s1 = false).
  { unfold terminalCondition, frameScan. rewrite Hobjs1, Hover1. unfold p1, d. Reval. }
  destruct (step_frame_active s1 p1 d eq_refl Hover1) as (Hc1 & Hover2 & Hmax2 & Hobjs2 & Hr2).
  fold s2 in Hover2, Hmax2, Hobjs2, Hr2.
  rewrite Hc1, Ht1, Hh1.
  rewrite Hmax1, Hh1 in Hmax2. rewrite Hobjs1 in Hobjs2.
  assert (Hh2 : frameHeight p2 s2 = 0).
  { unfold frameHeight, frameScan. rewrite Hobjs2, Hover2. unfold p1, p2, d. Reval. }
  assert (Ht2 : terminalCondition p2 s2 = true).
  { unfold terminalCondition, frameScan. rewrite Hobjs2, Hover2. unfold p1, p2, d. Reval. }
  destruct (step_frame_active s2 p2 d Hr2 Hover2) as (Hc2 & Hover3 & Hmax3 & Hobjs3 & Hr3).
  fold s3 in Hover3, Hmax3, Hobjs3, Hr3.
  rewrite Hc2, Ht2, Hh2, Hmax2.
  rewrite Hmax2, Hh2 in Hmax3. rewrite Hobjs2 in Hobjs3.
  assert (Hh3 : frameHeight p3 s3 = 0).
  { unfold frameHeight, frameScan. rewrite Hobjs3, Hover3. unfold p1, p2, p3, d. Reval. }
  assert (Ht3 : terminalCondition p3 s3 = true).
  { unfold terminalCondition, frameScan. rewrite Hobjs3, Hover3. unfold p1, p2, p3, d. Reval. }
  destruct (step_frame_active s3 p3 d Hr3 Hover3) as (Hc3 & _).
  rewrite Hc3, Ht3, Hh3, Hmax3.
  cbn [app callbacksOf run concat snd].
  split; repeat f_equal; Rcompute.
Qed.

(** C2 as stated fails: in the game [cubeFallsTwice], where one more frame
    runs before the game-over flag is set, the frame after the fall issues
    the game-over callback a second time. *)
Lemma game_over_fires_again_before_commit :
  Forall (fun i => fst i <> GameOverCommitted) cubeFallsTwice
  /\ gameOverArgs (callbacksOf (newGame (BLOCK_DEFINITIONS CUBE_S)) cubeFallsTwice) = [1; 1]
  /\ ~ (length (gameOverArgs (callbacksOf (newGame (BLOCK_DEFINITIONS CUBE_S)) cubeFallsTwice))
        <= 1)%nat.
Proof.
  split; [repeat constructor; discriminate|].
  destruct cube_games as [_ ->]. cbn. split; [reflexivity | lia].
Qed.

(** C2. A frame of an active game publishes the score, and issues the
    game-over callback, once, exactly when the terminal condition holds,
    with the best height so far floored at zero.  No frame sets the
    game-over flag; the commit of the application's [isGameOver] does, and
    from then on nothing is called back.  In every game each game-over
    callback carries the largest score (tower height floored at zero)
    published up to it, which can differ from the height in the falling
    frame; and a game in which the commit follows the callback at once
    issues the callback at most once. *)
Theorem game_over_once_when_committed :
  (forall s poses next,
      refsReady s = true -> isGameOverRef s = false ->
      scoreArgs (snd (step s (Frame poses, next))) = [Rmax 0 (frameHeight poses s)]
      /\ gameOverArgs (snd (step s (Frame poses, next)))
         = if terminalCondition poses s
           then [Rmax 0 (Rmax (maxAchievedHeightInGameRef s) (frameHeight poses s))]
           else [])
  /\ (forall s poses next,
         isGameOverRef (fst (step s (Frame poses, next))) = isGameOverRef s)
  /\ (forall s next, isGameOverRef (fst (step s (GameOverCommitted, next))) = true)
  /\ (forall s inputs,
         isGameOverRef s = true -> gameOverArgs (callbacksOf s inputs) = [])
  /\ (forall first inputs,
         gameOversCarryBest [] (callbacksOf (newGame first) inputs))
  /\ (forall first inputs,
         (length (gameOverArgs
                    (callbacksOf (newGame first) (promptly (newGame first) inputs)))
          <= 1)%nat)
  /\ callbacksOf (newGame (BLOCK_DEFINITIONS CUBE_S)) cubeFallsOff
     = [onBlockSuccessfullyPlaced; onScoreUpdate 1; onScoreUpdate 0; onGameOver 1].
Proof.
  split; [|split; [|split; [|split; [|split; [|split]]]]].
  - intros s poses next Hr Ho.
    destruct (step_frame_active s poses next Hr Ho) as (Hc & _).
    rewrite Hc. destruct (terminalCondition poses s); split; reflexivity.
  - apply step_frame_isGameOverRef.
  - intros s next. rewrite step_commit. reflexivity.
  - intros s inputs Ho. apply (run_over inputs s Ho).
  - intros first inputs. apply run_carry. intros _. apply best_start.
  - intros first inputs. apply promptly_once.
  - apply cube_games.
Qed.

Lemma game_over_once_when_committed_witness :
  scoreArgs
    (snd (step (sceneWith [blockAt CUBE_S 0 0.5 0 1] CUBE_S 0)
            (Frame [mkBody (mkVec 0 (-6) 0) 1], BLOCK_DEFINITIONS CUBE_S)))
  = [Rmax 0 (frameHeight [mkBody (mkVec 0 (-6) 0) 1]
               (sceneWith [blockAt CUBE_S 0 0.5 0 1] CUBE_S 0))]
  /\ gameOverArgs
       (snd (step (sceneWith [blockAt CUBE_S 0 0.5 0 1] CUBE_S 0)
               (Frame [mkBody (mkVec 0 (-6) 0) 1], BLOCK_DEFINITIONS CUBE_S)))
     = if terminalCondition [mkBody (mkVec 0 (-6) 0) 1]
            (sceneWith [blockAt CUBE_S 0 0.5 0 1] CUBE_S 0)
       then [Rmax 0 (Rmax 0 (frameHeight [mkBody (mkVec 0 (-6) 0) 1]
                               (sceneWith [blockAt CUBE_S 0 0.5 0 1] CUBE_S 0)))]
       else [].
Proof.
  exact (proj1 game_over_once_when_committed
           (sceneWith [blockAt CUBE_S 0 0.5 0 1] CUBE_S 0)
           [mkBody (mkVec 0 (-6) 0) 1] (BLOCK_DEFINITIONS CUBE_S)
           eq_refl eq_refl).
Defined.

(** ** Commit placement *)

Lemma animate_canAddBlock poses s :
  canAddBlock (fst (animate poses s)) = canAddBlock s.
Proof.
  unfold animate.
  destruct s as [w sc cam rend objs gb gy ind gx rot over def mx hy ready can col]; cbn.
  destruct (negb w || negb sc || negb cam || negb rend); [reflexivity|].
  destruct over; cbn; destruct def; try reflexivity.
  - rewrite !andb_false_r; reflexivity.
  - destruct (gb && ind && true && ready); reflexivity.
Qed.

Lemma deliver_canAddBlock next cbs : forall s,
  canAddBlock (fold_left (deliver next) cbs s) = canAddBlock s.
Proof.
  induction cbs as [|cb cbs IH]; intros s; [reflexivity|].
  cbn [fold_left]. rewrite IH. destruct cb; reflexivity.
Qed.

Lemma internalAddBlock_cooling s :
  canAddBlock s = false -> internalAddBlock s = (s, []).
Proof.
  intros H. unfold internalAddBlock. rewrite H.
  destruct (blockToPlaceRef s); [|reflexivity].
  cbn [negb]. rewrite orb_true_r. reflexivity.
Qed.

Lemma step_cooling s i :
  canAddBlock s = false -> fst i <> CooldownTimer ->
  canAddBlock (fst (step s i)) = false.
Proof.
  intros Hc Hi. destruct i as [i next]. cbn [fst] in Hi.
  unfold step; cbn [fst snd].
  destruct i as [poses|key| | |].
  - pose proof (animate_canAddBlock poses s) as Ha.
    destruct (animate poses s) as [s' cbs]. cbn [fst] in *.
    now rewrite deliver_canAddBlock, Ha.
  - unfold handleBlockKey.
    destruct (isGameOverRef s || negb (isSceneReady s) || negb (ghostBlockRef s)
              || match blockToPlaceRef s with None => true | Some _ => false end);
      [exact Hc|].
    destruct key; try exact Hc; rewrite (internalAddBlock_cooling s Hc); exact Hc.
  - rewrite (internalAddBlock_cooling s Hc); exact Hc.
  - contradiction.
  - exact Hc.
Qed.

Lemma run_cooling inputs : forall s,
  canAddBlock s = false -> noCooldownTimer inputs ->
  canAddBlock (fst (run s inputs)) = false.
Proof.
  induction inputs as [|i rest IH]; intros s Hc Hn; [exact Hc|].
  inversion Hn as [|? ? Hi Hrest]; subst.
  cbn [run]. pose proof (step_cooling s i Hc Hi) as Hc'.
  destruct (step s i) as [s1 cbs]. cbn [fst] in Hc'.
  specialize (IH s1 Hc' Hrest). destruct (run s1 rest) as [s2 trace]. exact IH.
Qed.

(** C8. The commit-placement operation changes nothing and issues no
    callback when the game is over, the physics world or the scene is not
    set up, or the cooldown is running: no block is appended and the ghost
    offset and rotation stay.  The cooldown runs from a successful placement
    until its timer fires. *)
Theorem rejected_placement_is_noop (s : Scene) :
  isGameOverRef s = true \/ worldRef s = false \/ sceneRef s = false
  \/ canAddBlock s = false ->
  internalAddBlock s = (s, [])
  /\ physicsObjectsRef (fst (internalAddBlock s)) = physicsObjectsRef s
  /\ ghostBlockXOffset (fst (internalAddBlock s)) = ghostBlockXOffset s
  /\ ghostBlockYRotation (fst (internalAddBlock s)) = ghostBlockYRotation s
  /\ snd (internalAddBlock s) = []
  /\ forall s0 next inputs,
      snd (internalAddBlock s0) <> [] ->
      noCooldownTimer inputs ->
      let s' := fst (run (fst (step s0 (PlaceButton, next))) inputs) in
      canAddBlock s' = false /\ internalAddBlock s' = (s', []).
Proof.
  intros H.
  assert (E : internalAddBlock s = (s, [])).
  { unfold internalAddBlock. destruct (blockToPlaceRef s); [|reflexivity].
    destruct H as [-> | [-> | [-> | ->]]]; cbn [negb orb];
      rewrite ?orb_true_r; reflexivity. }
  rewrite E. cbn [fst snd]. do 5 (split; [reflexivity|]).
  intros s0 next inputs Hok Hn.
  assert (Hc : canAddBlock (fst (step s0 (PlaceButton, next))) = false).
  { unfold step; cbn [fst snd].
    destruct (internalAddBlock_cases s0) as [E0 | (d & _ & E0)].
    - rewrite E0 in Hok. now contradiction Hok.
    - rewrite E0. reflexivity. }
  pose proof (run_cooling inputs _ Hc Hn) as Hc'.
  split; [exact Hc' | now apply internalAddBlock_cooling].
Qed.

Lemma rejected_placement_is_noop_witness :
  internalAddBlock (set_isGameOverRef true (sceneWith [] CUBE_S 0))
  = (set_isGameOverRef true (sceneWith [] CUBE_S 0), []).
Proof.
  apply (proj1 (rejected_placement_is_noop
                  (set_isGameOverRef true (sceneWith [] CUBE_S 0))
                  (or_introl eq_refl))).
Defined.

Lemma accepted_placement_appends :
  physicsObjectsRef (fst (internalAddBlock (sceneWith [] CUBE_S 0.2)))
  = [mkObj (mkBody (mkVec 0.2 0 0) 1) (BLOCK_DEFINITIONS CUBE_S)]
  /\ snd (internalAddBlock (sceneWith [] CUBE_S 0.2)) = [onBlockSuccessfullyPlaced].
Proof. split; reflexivity. Qed.

(** ** Camera ranges *)

Lemma polar_bounds_ordered : CAMERA_MIN_POLAR_ANGLE <= CAMERA_MAX_POLAR_ANGLE.
Proof.
  unfold CAMERA_MIN_POLAR_ANGLE, CAMERA_MAX_POLAR_ANGLE, degToRad.
  pose proof PI_RGT_0. lra.
Qed.

Lemma clampPolar_range v :
  CAMERA_MIN_POLAR_ANGLE <= clampPolar v <= CAMERA_MAX_POLAR_ANGLE.
Proof.
  pose proof polar_bounds_ordered. unfold clampPolar. split.
  - apply Rmax_l.
  - apply Rmax_lub; [assumption | apply Rmin_l].
Qed.

Lemma clampZoom_range v :
  CAMERA_MIN_ZOOM_DISTANCE <= clampZoom v <= CAMERA_MAX_ZOOM_DISTANCE.
Proof.
  unfold clampZoom. split.
  - apply Rmax_l.
  - apply Rmax_lub; [unfold_constants; lra | apply Rmin_l].
Qed.

Lemma initial_distance :
  distanceTo INITIAL_CAMERA_POSITION_VECTOR INITIAL_CAMERA_LOOK_AT_VECTOR = sqrt 141.
Proof. unfold distanceTo; cbn. f_equal; lra. Qed.

Lemma sqrt_141_bounds : 11 <= sqrt 141 <= 12.
Proof.
  split.
  - rewrite <- (sqrt_square 11) by lra. apply sqrt_le_1_alt; lra.
  - rewrite <- (sqrt_square 12) by lra. apply sqrt_le_1_alt; lra.
Qed.

Lemma initial_cosine_bounds : 1 / 3 <= 4 / sqrt 141 <= 4 / 11.
Proof.
  destruct sqrt_141_bounds as [Hlo Hhi].
  assert (Hpos : 0 < sqrt 141) by lra.
  split.
  - apply (Rmult_le_reg_r (sqrt 141)); [assumption|].
    replace (4 / sqrt 141 * sqrt 141) with 4 by (field; lra). lra.
  - apply (Rmult_le_reg_r (sqrt 141)); [assumption|].
    replace (4 / sqrt 141 * sqrt 141) with 4 by (field; lra). lra.
Qed.

(** The initial polar angle [acos(4 / sqrt 141)] lies between 60 and 88
    degrees. *)
Lemma initial_phi_bounds :
  CAMERA_MIN_POLAR_ANGLE <= acos (4 / sqrt 141) <= CAMERA_MAX_POLAR_ANGLE.
Proof.
  destruct initial_cosine_bounds as [Hlo Hhi].
  pose proof PI_RGT_0 as Hpi. pose proof PI_4 as Hpi4.
  destruct (acos_bound (4 / sqrt 141)) as [Ha0 Ha1].
  assert (Hcos : cos (acos (4 / sqrt 141)) = 4 / sqrt 141) by (apply cos_acos; lra).
  unfold CAMERA_MIN_POLAR_ANGLE, CAMERA_MAX_POLAR_ANGLE, degToRad. split.
  - destruct (Rle_dec (PI / 3) (acos (4 / sqrt 141))) as [H | H]; [lra|].
    exfalso. assert (Hlt : acos (4 / sqrt 141) < PI / 3) by lra.
    apply cos_decreasing_1 in Hlt; try lra.
    rewrite cos_PI3, Hcos in Hlt. lra.
  - destruct (Rle_dec (acos (4 / sqrt 141)) (PI / 2 - PI / 90)) as [H | H]; [lra|].
    exfalso. assert (Hlt : PI / 2 - PI / 90 < acos (4 / sqrt 141)) by lra.
    apply cos_decreasing_1 in Hlt; try lra.
    rewrite cos_shift, Hcos in Hlt.
    assert (Hsin : sin (PI / 90) < PI / 90) by (apply sin_lt_x; lra).
    lra.
Qed.

Lemma initialController_inRange : cameraInRange initialController.
Proof.
  unfold cameraInRange, initialController, initialCameraState; cbn [cs phi radius].
  rewrite initial_distance. split.
  - replace (vec_y INITIAL_CAMERA_POSITION_VECTOR - vec_y INITIAL_CAMERA_LOOK_AT_VECTOR)
      with 4 by (cbn; lra).
    apply initial_phi_bounds.
  - pose proof sqrt_141_bounds. unfold_constants. lra.
Qed.

Lemma preset_radius_range preset :
  CAMERA_MIN_ZOOM_DISTANCE
  <= preset_radius match preset with
                   | front => CAMERA_PRESET_FRONT
                   | top => CAMERA_PRESET_TOP
                   | side => CAMERA_PRESET_SIDE
                   end
  <= CAMERA_MAX_ZOOM_DISTANCE.
Proof. destruct preset; cbn; unfold_constants; lra. Qed.

Lemma cameraStep_inRange c i : cameraInRange c -> cameraInRange (cameraStep c i).
Proof.
  unfold cameraInRange. intros [Hphi Hrad].
  pose proof clampPolar_range as HP. pose proof clampZoom_range as HZ.
  destruct i as [button x y|x y| |deltaY|touches|touches forward|touches|key|preset hy n];
    cbn [cameraStep].
  - unfold handleMouseDown.
    destruct (negb (button =? 0)%nat || isInteracting (ts c)); cbn; auto.
  - unfold handleMouseMove.
    destruct (negb (isDragging (cs c)) || isInteracting (ts c)); cbn; auto.
  - cbn; auto.
  - unfold handleWheel. destruct (isInteracting (ts c)); cbn; auto.
  - unfold handleTouchStart. destruct touches as [|t0 [|t1 [|t2 rest]]]; cbn; auto.
  - unfold handleTouchMove.
    destruct (negb (isInteracting (ts c))); [auto|].
    destruct touches as [|t0 [|t1 [|t2 rest]]]; auto.
    + destruct (isOrbiting (ts c)); cbn; auto.
    + match goal with
      | |- context [decideGesture ?a ?b ?d ?t] => destruct (decideGesture a b d t) eqn:E
      end.
      cbn [isPinching isP_anning].
      destruct isPinching0; [cbn; auto|].
      destruct isP_anning0; [|cbn; auto].
      destruct forward; cbn; auto.
  - unfold handleTouchEnd. destruct touches as [|t0 [|t1 rest]]; cbn; auto.
  - cbn; auto.
  - unfold setCameraPreset; cbn [cs phi radius]. split; [apply HP | apply preset_radius_range].
Qed.

(** C4. From the initial camera state, after any sequence of mouse drags,
    wheel zooms, one-finger orbits, pinches, two-finger pans, camera keys and
    preset selections, the polar angle lies within
    [[CAMERA_MIN_POLAR_ANGLE, CAMERA_MAX_POLAR_ANGLE]] and the zoom distance
    within [[CAMERA_MIN_ZOOM_DISTANCE, CAMERA_MAX_ZOOM_DISTANCE]]. *)
Theorem camera_stays_in_range (inputs : list CameraInput) :
  CAMERA_MIN_POLAR_ANGLE <= phi (cs (cameraRun initialController inputs))
                         <= CAMERA_MAX_POLAR_ANGLE
  /\ CAMERA_MIN_ZOOM_DISTANCE <= radius (cs (cameraRun initialController inputs))
                              <= CAMERA_MAX_ZOOM_DISTANCE.
Proof.
  change (cameraInRange (cameraRun initialController inputs)).
  unfold cameraRun. generalize initialController_inRange.
  generalize initialController as c.
  induction inputs as [|i rest IH]; intros c Hc; [exact Hc|].
  cbn [fold_left]. apply IH, cameraStep_inRange, Hc.
Qed.

(** ** Two-finger gestures *)

(** After a two-finger touch start the pan flag is set, so the mode decision
    of a later move is never taken. *)
Lemma decideGesture_after_two_finger_start c t0 t1 pinchDelta panDeltaX panDeltaY :
  decideGesture pinchDelta panDeltaX panDeltaY (ts (handleTouchStart [t0; t1] c))
  = ts (handleTouchStart [t0; t1] c).
Proof. reflexivity. Qed.

(** Reached with neither flag set, the decision does lock pinch mode for a
    dominating distance change. *)
Lemma decideGesture_locks_pinch pinchDelta panDeltaX panDeltaY t :
  isPinching t = false -> isP_anning t = false ->
  Rmax (Rabs panDeltaX) (Rabs panDeltaY) < Rabs pinchDelta ->
  pinchThreshold < Rabs pinchDelta ->
  isPinching (decideGesture pinchDelta panDeltaX panDeltaY t) = true.
Proof.
  intros Hp Ha H1 H2. unfold decideGesture. rewrite Hp, Ha. cbn [negb andb].
  rewrite (proj2 (ltb_true_iff _ _) H1), (proj2 (ltb_true_iff _ _) H2). reflexivity.
Qed.

Lemma panning_move_keeps_mode t0 t1 forward c :
  isInteracting (ts c) = true -> isPinching (ts c) = false -> isP_anning (ts c) = true ->
  let c' := handleTouchMove [t0; t1] forward c in
  isInteracting (ts c') = true /\ isPinching (ts c') = false
  /\ isP_anning (ts c') = true /\ radius (cs c') = radius (cs c).
Proof.
  intros Hi Hp Ha. unfold handleTouchMove. rewrite Hi. cbn [negb].
  unfold decideGesture. rewrite Hp, Ha. cbn [negb andb]. rewrite Hp, Ha.
  destruct forward; cbn; auto.
Qed.

Lemma fingersDown_distance :
  sqrt ((0 - 100) * (0 - 100) + (0 - 0) * (0 - 0)) = 100.
Proof. apply sqrt_lem_1; lra. Qed.

Lemma fingersSpread_distance :
  sqrt ((-50 - 150) * (-50 - 150) + (0 - 0) * (0 - 0)) = 200.
Proof. apply sqrt_lem_1; lra. Qed.

(** C5, as the code has it.  A two-finger touch start sets pan mode at once,
    so no two-finger move of that contact ever locks pinch mode or changes
    the zoom distance.  In particular fingers that land 100 pixels apart and
    spread to 200 pixels about a fixed midpoint, a pinch signal of 100
    against a pan signal of 0 and a threshold of 2, leave the camera in pan
    mode at its old distance. *)
Theorem two_finger_contact_never_pinches :
  (forall c t0 t1 moves,
      let c' := twoFingerMoves moves (handleTouchStart [t0; t1] c) in
      isPinching (ts c') = false /\ isP_anning (ts c') = true
      /\ radius (cs c') = radius (cs c))
  /\ (let c1 := handleTouchStart fingersDown initialController in
      let c2 := handleTouchMove fingersSpread (Some (mkVec 0 0 (-1))) c1 in
      isPinching (ts c1) = false /\ isP_anning (ts c1) = true
      /\ pinchSignal (mkTouchPoint (-50) 0) (mkTouchPoint 150 0) (ts c1) = 100
      /\ panSignal (mkTouchPoint (-50) 0) (mkTouchPoint 150 0) (ts c1) = 0
      /\ pinchThreshold = 2
      /\ isPinching (ts c2) = false /\ isP_anning (ts c2) = true
      /\ radius (cs c2) = radius (cs initialController)).
Proof.
  split.
  - intros c t0 t1 moves.
    assert (H : forall c0,
               isInteracting (ts c0) = true -> isPinching (ts c0) = false ->
               isP_anning (ts c0) = true ->
               isPinching (ts (twoFingerMoves moves c0)) = false
               /\ isP_anning (ts (twoFingerMoves moves c0)) = true
               /\ radius (cs (twoFingerMoves moves c0)) = radius (cs c0)).
    { unfold twoFingerMoves.
      induction moves as [|[[a b] fwd] rest IH]; intros c0 Hi Hp Ha; [cbn; auto|].
      cbn [fold_left fst snd].
      destruct (panning_move_keeps_mode a b fwd c0 Hi Hp Ha) as (Hi' & Hp' & Ha' & Hr').
      destruct (IH _ Hi' Hp' Ha') as (H1 & H2 & H3).
      rewrite <- Hr'. auto. }
    apply (H (handleTouchStart [t0; t1] c)); reflexivity.
  - cbv zeta.
    destruct (panning_move_keeps_mode (mkTouchPoint (-50) 0) (mkTouchPoint 150 0)
                (Some (mkVec 0 0 (-1))) (handleTouchStart fingersDown initialController)
                eq_refl eq_refl eq_refl) as (_ & Hp & Ha & Hr).
    unfold fingersSpread. rewrite Hp, Ha, Hr.
    repeat split.
    + unfold pinchSignal; cbn. rewrite fingersDown_distance, fingersSpread_distance. Rcompute.
    + unfold panSignal; cbn. Rcompute.
Qed.

(** * Further properties *)

(** ** The tower scan of a frame *)

Lemma scan_fold_highest n over objs : forall acc,
  highestBlockYForFrame acc
  <= highestBlockYForFrame (fold_left (scanBlock n over) objs acc)
  /\ (forall o, In o objs ->
        topY o <= highestBlockYForFrame (fold_left (scanBlock n over) objs acc))
  /\ (highestBlockYForFrame (fold_left (scanBlock n over) objs acc)
      = highestBlockYForFrame acc
      \/ exists o, In o objs
           /\ highestBlockYForFrame (fold_left (scanBlock n over) objs acc) = topY o).
Proof.
  induction objs as [|obj objs IH]; intros acc; cbn [fold_left].
  - split; [lra|]. split; [intros o []|]. now left.
  - destruct (IH (scanBlock n over acc obj)) as (H1 & H2 & H3).
    assert (Hstep : highestBlockYForFrame acc
                    <= highestBlockYForFrame (scanBlock n over acc obj)
                    /\ topY obj <= highestBlockYForFrame (scanBlock n over acc obj)
                    /\ (highestBlockYForFrame (scanBlock n over acc obj)
                        = highestBlockYForFrame acc
                        \/ highestBlockYForFrame (scanBlock n over acc obj) = topY obj)).
    { unfold scanBlock; cbn [highestBlockYForFrame]. fold (topY obj).
      destruct (highestBlockYForFrame acc <? topY obj) eqn:E.
      - apply ltb_true_iff in E. repeat split; try lra.
      - apply ltb_false_iff in E. repeat split; try lra. }
    destruct Hstep as (S1 & S2 & S3).
    split; [lra|]. split.
    + intros o [<- | Hin]; [lra | now apply H2].
    + destruct H3 as [H3 | (o & Hin & H3)].
      * destruct S3 as [S3 | S3].
        -- left. now rewrite H3.
        -- right. exists obj. split; [now left | now rewrite H3].
      * right. exists o. split; [now right | exact H3].
Qed.

(** X1. The height a frame measures is the highest block top, floored at ground
    level: it bounds every top, is attained by a block unless no top is
    above the ground, and the score published from it is never negative. *)
Theorem tower_height_is_highest_top (objs : list PhysicsObject) (gameOver : bool) :
  GROUND_LEVEL <= highestBlockYForFrame (scanTower objs gameOver)
  /\ (forall o, In o objs -> topY o <= highestBlockYForFrame (scanTower objs gameOver))
  /\ (highestBlockYForFrame (scanTower objs gameOver) = GROUND_LEVEL
      \/ exists o, In o objs /\ highestBlockYForFrame (scanTower objs gameOver) = topY o)
  /\ 0 <= currentTowerHeightForScore objs (highestBlockYForFrame (scanTower objs gameOver))
  /\ Rmax 0 (currentTowerHeightForScore objs
               (highestBlockYForFrame (scanTower objs gameOver)))
     = currentTowerHeightForScore objs (highestBlockYForFrame (scanTower objs gameOver)).
Proof.
  unfold scanTower.
  destruct (scan_fold_highest (length objs) gameOver objs scanStart) as (H1 & H2 & H3).
  cbn [scanStart highestBlockYForFrame] in H1, H3.
  assert (Hnn : 0 <= currentTowerHeightForScore objs
                       (highestBlockYForFrame
                          (fold_left (scanBlock (length objs) gameOver) objs scanStart))).
  { unfold currentTowerHeightForScore. destruct (0 <? length objs)%nat; [|lra].
    unfold GROUND_LEVEL in *. lra. }
  repeat split; auto. apply Rmax_right, Hnn.
Qed.

Lemma scanBlock_fallen n over acc obj :
  anyBlockFallenOffWorld (scanBlock n over acc obj) = true <->
  anyBlockFallenOffWorld acc = true
  \/ (over = false /\ centerY obj < GAME_OVER_FALL_THRESHOLD_Y).
Proof.
  unfold scanBlock; cbn [anyBlockFallenOffWorld]. fold (centerY obj).
  destruct (centerY obj <? GAME_OVER_FALL_THRESHOLD_Y) eqn:E;
    [apply ltb_true_iff in E | apply ltb_false_iff in E];
    destruct over; cbn [andb negb]; split; intros H; auto;
    try (destruct H as [H | [H1 H2]]; auto; try discriminate; lra).
Qed.

Lemma scan_fold_fallen n over objs : forall acc,
  anyBlockFallenOffWorld (fold_left (scanBlock n over) objs acc) = true <->
  anyBlockFallenOffWorld acc = true
  \/ (over = false /\ exists o, In o objs /\ centerY o < GAME_OVER_FALL_THRESHOLD_Y).
Proof.
  induction objs as [|obj objs IH]; intros acc; cbn [fold_left].
  - split; [auto|]. intros [H | (_ & o & [] & _)]; exact H.
  - rewrite IH, scanBlock_fallen. split.
    + intros [[H | (Ho & Hd)] | (Ho & o & Hin & Hd)]; auto.
      * right; split; auto. exists obj; split; [now left | exact Hd].
      * right; split; auto. exists o; split; [now right | exact Hd].
    + intros [H | (Ho & o & [<- | Hin] & Hd)]; auto.
      right; split; auto. exists o; auto.
Qed.

(** X2. A frame ends the game exactly when the game is active and either some
    block is below the fall threshold, however many blocks there are, or at
    least two blocks are placed and one is tilted past the tip threshold.
    With an empty registry no frame ends the game. *)
Theorem frame_ends_game_iff (poses : list Body) (s : Scene) :
  (terminalCondition poses s = true <->
   isGameOverRef s = false
   /\ ((exists o, In o (worldStep poses (physicsObjectsRef s))
                  /\ centerY o < GAME_OVER_FALL_THRESHOLD_Y)
       \/ ((2 <= length (physicsObjectsRef s))%nat
           /\ exists o, In o (worldStep poses (physicsObjectsRef s))
                        /\ up_dot (body o) < FALLEN_BLOCK_DOT_THRESHOLD)))
  /\ (physicsObjectsRef s = [] -> terminalCondition poses s = false).
Proof.
  assert (Hiff : terminalCondition poses s = true <->
   isGameOverRef s = false
   /\ ((exists o, In o (worldStep poses (physicsObjectsRef s))
                  /\ centerY o < GAME_OVER_FALL_THRESHOLD_Y)
       \/ ((2 <= length (physicsObjectsRef s))%nat
           /\ exists o, In o (worldStep poses (physicsObjectsRef s))
                        /\ up_dot (body o) < FALLEN_BLOCK_DOT_THRESHOLD))).
  { unfold terminalCondition, frameScan, scanTower.
    rewrite orb_true_iff, scan_fold_fallen, scan_fold_tipped, worldStep_length.
    cbn [scanStart anyBlockFallenOffWorld anyBlockTippedOverGameEnd]. split.
    - intros [[H | (Ho & H)] | [H | (Hn & Ho & H)]]; try discriminate; auto.
    - intros (Ho & [H | (Hn & H)]); [left | right]; right; auto. }
  split; [exact Hiff|].
  intros Hnil. apply not_true_is_false. intros E. apply Hiff in E.
  rewrite Hnil in E. destruct poses; cbn in E;
    destruct E as (_ & [(o & [] & _) | (Hn & _)]); lia.
Qed.

Lemma scan_fold_unstable n objs : forall acc,
  unstableBlockCountForWarning (fold_left (scanBlock n false) objs acc)
  = (unstableBlockCountForWarning acc + length (filter isUnstable objs))%nat.
Proof.
  induction objs as [|obj objs IH]; intros acc; cbn [fold_left filter].
  - cbn; lia.
  - rewrite IH. unfold scanBlock; cbn [unstableBlockCountForWarning negb andb].
    change (up_dot (body obj) <? TOWER_INSTABILITY_WARNING_DOT_THRESHOLD)
      with (isUnstable obj).
    destruct (isUnstable obj); cbn [length]; lia.
Qed.

Lemma scan_fold_unstable_over n objs : forall acc,
  unstableBlockCountForWarning (fold_left (scanBlock n true) objs acc)
  = unstableBlockCountForWarning acc.
Proof.
  induction objs as [|obj objs IH]; intros acc; cbn [fold_left]; [reflexivity|].
  rewrite IH. reflexivity.
Qed.

(** X3. While the game is active the warning count is the number of blocks
    tilted past the warning threshold, and zero once the game is over; it
    never exceeds the number of blocks, and whenever the tip-over flag is set
    at least one block is counted: the warning never lags behind the
    tip-over. *)
Theorem warning_count_counts_tilted (objs : list PhysicsObject) (gameOver : bool) :
  unstableBlockCountForWarning (scanTower objs gameOver)
  = (if gameOver then 0 else length (filter isUnstable objs))%nat
  /\ (unstableBlockCountForWarning (scanTower objs gameOver) <= length objs)%nat
  /\ (anyBlockTippedOverGameEnd (scanTower objs gameOver) = true ->
      (1 <= unstableBlockCountForWarning (scanTower objs gameOver))%nat).
Proof.
  assert (Hc : unstableBlockCountForWarning (scanTower objs gameOver)
               = (if gameOver then 0 else length (filter isUnstable objs))%nat).
  { unfold scanTower. destruct gameOver.
    - now rewrite scan_fold_unstable_over.
    - now rewrite scan_fold_unstable. }
  split; [exact Hc|]. split.
  - rewrite Hc. destruct gameOver; [lia | apply filter_length_le].
  - intros Ht. rewrite Hc. unfold scanTower in Ht.
    apply scan_fold_tipped in Ht. cbn [scanStart anyBlockTippedOverGameEnd] in Ht.
    destruct Ht as [Ht | (_ & -> & o & Hin & Hd)]; [discriminate|].
    assert (Hf : In o (filter isUnstable objs)).
    { apply filter_In. split; [exact Hin|]. unfold isUnstable.
      apply ltb_true_iff. unfold_constants. lra. }
    destruct (filter isUnstable objs); [destruct Hf | cbn; lia].
Qed.

(** ** The registry and the score over a game *)

Lemma worldStep_definitions poses : forall objs,
  map definition (worldStep poses objs) = map definition objs.
Proof.
  induction poses as [|pose poses IH]; intros [|obj objs]; cbn; auto.
  now rewrite IH.
Qed.

Lemma animate_registry poses s :
  map definition (physicsObjectsRef (fst (animate poses s)))
  = map definition (physicsObjectsRef s).
Proof.
  destruct (refsReady s) eqn:Hr.
  - rewrite (animate_physicsObjects poses s Hr). apply worldStep_definitions.
  - now rewrite (animate_not_ready poses s Hr).
Qed.

Lemma animate_ghost poses s :
  ghostBlockXOffset (fst (animate poses s)) = ghostBlockXOffset s
  /\ ghostBlockYRotation (fst (animate poses s)) = ghostBlockYRotation s
  /\ blockToPlaceRef (fst (animate poses s)) = blockToPlaceRef s.
Proof.
  unfold animate.
  destruct s as [w sc cam rend objs gb gy ind gx rot over def mx hy ready can col]; cbn.
  destruct (negb w || negb sc || negb cam || negb rend); [auto|].
  destruct over; cbn; destruct def; auto.
  - rewrite !andb_false_r; auto.
  - destruct (gb && ind && true && ready); auto.
Qed.

Lemma animate_placedCount poses s : placedCount (snd (animate poses s)) = 0%nat.
Proof.
  destruct (refsReady s) eqn:Hr.
  - rewrite (animate_callbacks poses s Hr).
    destruct (negb (isGameOverRef s)), (terminalCondition poses s); reflexivity.
  - now rewrite (animate_not_ready poses s Hr).
Qed.

Lemma deliver_fields next cbs : forall s,
  physicsObjectsRef (fold_left (deliver next) cbs s) = physicsObjectsRef s
  /\ maxAchievedHeightInGameRef (fold_left (deliver next) cbs s)
     = maxAchievedHeightInGameRef s
  /\ (isGameOverRef s = true -> isGameOverRef (fold_left (deliver next) cbs s) = true).
Proof.
  induction cbs as [|cb cbs IH]; intros s; [auto|].
  cbn [fold_left]. destruct (IH (deliver next s cb)) as (H1 & H2 & H3).
  rewrite H1, H2. destruct cb; cbn; auto.
Qed.

(** What one input does to the registry: nothing, or it appends the
    pending block and signals the placement. *)
Lemma step_registry s i :
  (placedCount (snd (step s i)) = 0%nat
   /\ map definition (physicsObjectsRef (fst (step s i)))
      = map definition (physicsObjectsRef s))
  \/ (placedCount (snd (step s i)) = 1%nat
      /\ canAddBlock s = true
      /\ canAddBlock (fst (step s i)) = false
      /\ exists d, blockToPlaceRef s = Some d
           /\ map definition (physicsObjectsRef (fst (step s i)))
              = map definition (physicsObjectsRef s) ++ [d]).
Proof.
  destruct i as [i next].
  assert (Hadd : forall r, r = internalAddBlock s ->
    (placedCount (snd r) = 0%nat
     /\ map definition (physicsObjectsRef (fold_left (deliver next) (snd r) (fst r)))
        = map definition (physicsObjectsRef s))
    \/ (placedCount (snd r) = 1%nat
        /\ canAddBlock s = true
        /\ canAddBlock (fold_left (deliver next) (snd r) (fst r)) = false
        /\ exists d, blockToPlaceRef s = Some d
             /\ map definition (physicsObjectsRef (fold_left (deliver next) (snd r) (fst r)))
                = map definition (physicsObjectsRef s) ++ [d])).
  { intros r ->. destruct (canAddBlock s) eqn:Hc.
    - destruct (internalAddBlock_cases s) as [-> | (d & Hd & ->)]; [left; auto|].
      right. cbn. repeat split. exists d. split; [exact Hd|].
      now rewrite map_app.
    - rewrite (internalAddBlock_cooling s Hc). left; auto. }
  unfold step; cbn [fst snd].
  destruct i as [poses|key| | |].
  - left. pose proof (animate_placedCount poses s) as Hp.
    pose proof (animate_registry poses s) as Hr.
    destruct (animate poses s) as [s' cbs]. cbn [fst snd] in *.
    destruct (deliver_fields next cbs s') as (-> & _). auto.
  - unfold handleBlockKey.
    destruct (isGameOverRef s || negb (isSceneReady s) || negb (ghostBlockRef s)
              || match blockToPlaceRef s with None => true | Some _ => false end);
      [left; auto|].
    destruct key; try (left; cbn; auto; fail).
    + specialize (Hadd _ eq_refl). destruct (internalAddBlock s); exact Hadd.
    + specialize (Hadd _ eq_refl). destruct (internalAddBlock s); exact Hadd.
  - specialize (Hadd _ eq_refl). destruct (internalAddBlock s); exact Hadd.
  - left; cbn; auto.
  - left; cbn; auto.
Qed.

Lemma placedCount_app a b : placedCount (a ++ b) = (placedCount a + placedCount b)%nat.
Proof. unfold placedCount. now rewrite filter_app, length_app. Qed.

Lemma run_cons s i rest :
  fst (run s (i :: rest)) = fst (run (fst (step s i)) rest).
Proof.
  cbn [run]. destruct (step s i) as [s1 cbs]; cbn [fst].
  destruct (run s1 rest) as [s2 trace]; reflexivity.
Qed.

(** X4. Blocks are only ever appended: after any inputs the registry holds the
    definitions it held before, in order, followed by one definition per
    signalled placement.  A game started fresh therefore has exactly as many
    blocks as placements were signalled. *)
Theorem registry_is_append_only (s : Scene) (inputs : list (Input * BlockDefinition)) :
  (exists added,
      map definition (physicsObjectsRef (fst (run s inputs)))
      = map definition (physicsObjectsRef s) ++ added
      /\ length added = placedCount (callbacksOf s inputs))
  /\ forall first,
      length (physicsObjectsRef (fst (run (newGame first) inputs)))
      = placedCount (callbacksOf (newGame first) inputs).
Proof.
  assert (H : forall inputs s, exists added,
      map definition (physicsObjectsRef (fst (run s inputs)))
      = map definition (physicsObjectsRef s) ++ added
      /\ length added = placedCount (callbacksOf s inputs)).
  { clear. induction inputs as [|i rest IH]; intros s.
    - exists []. cbn. now rewrite app_nil_r.
    - rewrite run_cons, callbacksOf_cons, placedCount_app.
      destruct (IH (fst (step s i))) as (added & Ha & Hl).
      destruct (step_registry s i) as [(Hp & Hd) | (Hp & _ & _ & d & _ & Hd)].
      + exists added. rewrite Ha, Hd, Hp. auto.
      + exists (d :: added). rewrite Ha, Hd, Hp, <- app_assoc. cbn. auto. }
  split; [apply H|].
  intros first. destruct (H inputs (newGame first)) as (added & Ha & Hl).
  cbn [newGame physicsObjectsRef map app] in Ha.
  rewrite <- Hl, <- Ha. now rewrite length_map.
Qed.

Lemma animate_canAddBlock_step s poses next :
  canAddBlock (fst (step s (Frame poses, next))) = canAddBlock s.
Proof.
  unfold step; cbn [fst snd]. pose proof (animate_canAddBlock poses s) as Ha.
  destruct (animate poses s) as [s' cbs]. cbn [fst] in *.
  now rewrite deliver_canAddBlock.
Qed.

Lemma step_budget s i :
  (placedCount (snd (step s i)) + placementBudget (fst (step s i))
   <= placementBudget s + timerCount [i])%nat.
Proof.
  destruct (step_registry s i) as [(Hp & _) | (Hp & Hc & Hc' & _)].
  - rewrite Hp. unfold placementBudget, timerCount.
    destruct i as [[poses|key| | |] next]; cbn [filter fst length].
    + rewrite (animate_canAddBlock_step s poses next). lia.
    + destruct (canAddBlock s) eqn:Hc.
      * destruct (canAddBlock (fst (step s (Key key, next)))); lia.
      * rewrite (step_cooling s (Key key, next) Hc); [lia | discriminate].
    + destruct (canAddBlock s) eqn:Hc.
      * destruct (canAddBlock (fst (step s (PlaceButton, next)))); lia.
      * rewrite (step_cooling s (PlaceButton, next) Hc); [lia | discriminate].
    + destruct (canAddBlock (fst (step s (CooldownTimer, next)))), (canAddBlock s); lia.
    + rewrite step_commit. cbn [fst]. change (canAddBlock (set_isGameOverRef true s))
        with (canAddBlock s). lia.
  - rewrite Hp. unfold placementBudget. rewrite Hc, Hc'. lia.
Qed.

(** X5. The cooldown limits the placement rate: over any inputs, the placements
    signalled are at most the one the flag allows at the start plus one per
    firing of the cooldown timer. *)
Theorem placements_bounded_by_timers (s : Scene) (inputs : list (Input * BlockDefinition)) :
  (placedCount (callbacksOf s inputs) <= placementBudget s + timerCount inputs)%nat.
Proof.
  revert s. induction inputs as [|i rest IH]; intros s; [cbn; lia|].
  rewrite callbacksOf_cons, placedCount_app.
  specialize (IH (fst (step s i))). pose proof (step_budget s i) as Hb.
  change (timerCount (i :: rest)) with (timerCount ([i] ++ rest)).
  unfold timerCount in *. rewrite filter_app, length_app. lia.
Qed.

(** ** After the game is over *)

Lemma step_over_frozen s i :
  isGameOverRef s = true ->
  snd (step s i) = []
  /\ isGameOverRef (fst (step s i)) = true
  /\ maxAchievedHeightInGameRef (fst (step s i)) = maxAchievedHeightInGameRef s
  /\ map definition (physicsObjectsRef (fst (step s i)))
     = map definition (physicsObjectsRef s)
  /\ ghostBlockXOffset (fst (step s i)) = ghostBlockXOffset s
  /\ ghostBlockYRotation (fst (step s i)) = ghostBlockYRotation s
  /\ blockToPlaceRef (fst (step s i)) = blockToPlaceRef s.
Proof.
  intros Ho. destruct i as [[poses|key| | |] next].
  - destruct (step_frame_idle s poses next (or_intror Ho)) as (Hc & Hg & Hm & _).
    rewrite Hc, Hg, Hm. repeat split; auto;
      unfold step in *; cbn [fst snd] in *;
      pose proof (animate_registry poses s) as Hr;
      destruct (animate_ghost poses s) as (Hx & Hrot & Hb);
      destruct (animate poses s) as [s' cbs]; cbn [fst snd] in *; subst cbs; cbn; auto.
  - unfold step; cbn [fst snd]. unfold handleBlockKey. rewrite Ho. cbn.
    repeat split; auto.
  - unfold step; cbn [fst snd]. rewrite (internalAddBlock_over s Ho). cbn.
    repeat split; auto.
  - unfold step; cbn. repeat split; auto.
  - rewrite step_commit. cbn. repeat split; auto.
Qed.

(** X6. Once the game is over it stays over and is frozen: no input issues any
    callback, places a block, moves or turns the ghost, changes the pending
    block or the best height. *)
Theorem game_over_freezes (s : Scene) (inputs : list (Input * BlockDefinition)) :
  isGameOverRef s = true ->
  callbacksOf s inputs = []
  /\ isGameOverRef (fst (run s inputs)) = true
  /\ maxAchievedHeightInGameRef (fst (run s inputs)) = maxAchievedHeightInGameRef s
  /\ map definition (physicsObjectsRef (fst (run s inputs)))
     = map definition (physicsObjectsRef s)
  /\ ghostBlockXOffset (fst (run s inputs)) = ghostBlockXOffset s
  /\ ghostBlockYRotation (fst (run s inputs)) = ghostBlockYRotation s
  /\ blockToPlaceRef (fst (run s inputs)) = blockToPlaceRef s.
Proof.
  revert s. induction inputs as [|i rest IH]; intros s Ho; [cbn; auto 10|].
  destruct (step_over_frozen s i Ho) as (Hc & Hg & Hm & Hd & Hx & Hr & Hb).
  rewrite run_cons, callbacksOf_cons, Hc.
  destruct (IH _ Hg) as (Ic & Ig & Im & Id & Ix & Ir & Ib).
  rewrite Ic, Ig, Im, Id, Ix, Ir, Ib. auto 10.
Qed.

Lemma game_over_freezes_witness :
  callbacksOf (set_isGameOverRef true (sceneWith [blockAt CUBE_S 0 0.5 0 1] CUBE_S 0))
    [(PlaceButton, BLOCK_DEFINITIONS CUBE_S); (Key ArrowLeft, BLOCK_DEFINITIONS CUBE_S)]
  = [].
Proof.
  apply (proj1 (game_over_freezes
                  (set_isGameOverRef true (sceneWith [blockAt CUBE_S 0 0.5 0 1] CUBE_S 0))
                  [(PlaceButton, BLOCK_DEFINITIONS CUBE_S);
                   (Key ArrowLeft, BLOCK_DEFINITIONS CUBE_S)]
                  eq_refl)).
Defined.

(** ** The best height *)

Lemma step_maxAchieved_grows s i :
  maxAchievedHeightInGameRef s <= maxAchievedHeightInGameRef (fst (step s i)).
Proof.
  destruct i as [[poses|key| | |] next].
  - destruct (refsReady s) eqn:Hr; destruct (isGameOverRef s) eqn:Ho.
    + destruct (step_frame_idle s poses next (or_intror Ho)) as (_ & _ & -> & _). lra.
    + destruct (step_frame_active s poses next Hr Ho) as (_ & _ & -> & _). apply Rmax_l.
    + destruct (step_frame_idle s poses next (or_introl Hr)) as (_ & _ & -> & _). lra.
    + destruct (step_frame_idle s poses next (or_introl Hr)) as (_ & _ & -> & _). lra.
  - destruct (step_no_frame s (Key key) next) as (_ & _ & -> & _);
      [discriminate | discriminate | lra].
  - destruct (step_no_frame s PlaceButton next) as (_ & _ & -> & _);
      [discriminate | discriminate | lra].
  - destruct (step_no_frame s CooldownTimer next) as (_ & _ & -> & _);
      [discriminate | discriminate | lra].
  - rewrite step_commit. cbn. lra.
Qed.

(** X7. The best height of a game never decreases, and every score published
    along the way is at most the best height at the end. *)
Theorem best_height_never_decreases (s : Scene) (inputs : list (Input * BlockDefinition)) :
  maxAchievedHeightInGameRef s <= maxAchievedHeightInGameRef (fst (run s inputs))
  /\ forall sc, In sc (scoreArgs (callbacksOf s inputs)) ->
                0 <= maxAchievedHeightInGameRef s ->
                sc <= maxAchievedHeightInGameRef (fst (run s inputs)).
Proof.
  revert s. induction inputs as [|i rest IH]; intros s; [cbn; split; [lra | intros sc []]|].
  rewrite run_cons, callbacksOf_cons, scoreArgs_app.
  destruct (IH (fst (step s i))) as (Hm & Hs).
  pose proof (step_maxAchieved_grows s i) as Hg.
  split; [lra|].
  intros sc Hin H0. apply in_app_or in Hin as [Hin | Hin]; [|apply Hs; [exact Hin | lra]].
  assert (Hsc : sc <= maxAchievedHeightInGameRef (fst (step s i))); [|lra].
  destruct i as [[poses|key| | |] next].
  - destruct (refsReady s) eqn:Hr; destruct (isGameOverRef s) eqn:Ho.
    + destruct (step_frame_idle s poses next (or_intror Ho)) as (Hc & _).
      rewrite Hc in Hin. destruct Hin.
    + destruct (step_frame_active s poses next Hr Ho) as (Hc & _ & -> & _).
      rewrite Hc in Hin.
      assert (Hsc : sc = Rmax 0 (frameHeight poses s)).
      { destruct (terminalCondition poses s); cbn in Hin; destruct Hin as [<- | []]; auto. }
      rewrite Hsc. apply Rmax_lub; [pose proof (Rmax_l (maxAchievedHeightInGameRef s)
                                                  (frameHeight poses s)); lra
                                   | apply Rmax_r].
    + destruct (step_frame_idle s poses next (or_introl Hr)) as (Hc & _).
      rewrite Hc in Hin. destruct Hin.
    + destruct (step_frame_idle s poses next (or_introl Hr)) as (Hc & _).
      rewrite Hc in Hin. destruct Hin.
  - destruct (step_no_frame s (Key key) next) as (Hc & _); [discriminate|discriminate|].
    destruct (quiet_callbacks _ Hc) as [_ Hq]. rewrite Hq in Hin. destruct Hin.
  - destruct (step_no_frame s PlaceButton next) as (Hc & _); [discriminate|discriminate|].
    destruct (quiet_callbacks _ Hc) as [_ Hq]. rewrite Hq in Hin. destruct Hin.
  - destruct (step_no_frame s CooldownTimer next) as (Hc & _); [discriminate|discriminate|].
    destruct (quiet_callbacks _ Hc) as [_ Hq]. rewrite Hq in Hin. destruct Hin.
  - rewrite step_commit in Hin. destruct Hin.
Qed.

(** ** The ghost *)

Lemma jsRem_range a b : 0 <= a -> 0 < b -> 0 <= jsRem a b < b.
Proof.
  intros Ha Hb. unfold jsRem.
  assert (Hq : 0 <= a / b) by (apply Rmult_le_pos; [lra | left; now apply Rinv_0_lt_compat]).
  rewrite (proj2 (leb_true_iff 0 (a / b)) Hq).
  destruct (base_Int_part (a / b)) as [H1 H2].
  set (k := IZR (Int_part (a / b))) in *.
  assert (Ea : a = a / b * b) by (field; lra).
  split.
  - assert (b * k <= a / b * b) by (rewrite (Rmult_comm b k); apply Rmult_le_compat_r; lra).
    lra.
  - assert ((a / b - 1) * b < k * b) by (apply Rmult_lt_compat_r; lra).
    lra.
Qed.

Lemma rotation_steps_positive :
  0 < GHOST_BLOCK_ROTATION_STEP /\ 0 < GHOST_BLOCK_FINE_ROTATION_STEP.
Proof.
  unfold GHOST_BLOCK_ROTATION_STEP, GHOST_BLOCK_FINE_ROTATION_STEP.
  pose proof PI_RGT_0. lra.
Qed.

Lemma deliver_rotation next cbs : forall s,
  0 <= ghostBlockYRotation s < 2 * PI ->
  0 <= ghostBlockYRotation (fold_left (deliver next) cbs s) < 2 * PI.
Proof.
  pose proof PI_RGT_0 as Hpi.
  induction cbs as [|cb cbs IH]; intros s H; [exact H|].
  cbn [fold_left]. apply IH. destruct cb; cbn; auto; lra.
Qed.

Lemma step_rotation s i :
  0 <= ghostBlockYRotation s < 2 * PI ->
  0 <= ghostBlockYRotation (fst (step s i)) < 2 * PI.
Proof.
  intros H. pose proof PI_RGT_0 as Hpi. destruct i as [i next].
  assert (Hadd : forall r, r = internalAddBlock s ->
            0 <= ghostBlockYRotation (fold_left (deliver next) (snd r) (fst r)) < 2 * PI).
  { intros r ->. apply deliver_rotation.
    destruct (internalAddBlock_cases s) as [-> | (d & _ & ->)]; cbn; auto; lra. }
  unfold step; cbn [fst snd]. destruct i as [poses|key| | |].
  - destruct (animate_ghost poses s) as (_ & Hr & _).
    destruct (animate poses s) as [s' cbs]. cbn [fst snd] in *.
    apply deliver_rotation. now rewrite Hr.
  - unfold handleBlockKey.
    destruct (isGameOverRef s || negb (isSceneReady s) || negb (ghostBlockRef s)
              || match blockToPlaceRef s with None => true | Some _ => false end);
      [exact H|].
    destruct key as [| |shiftKey| |]; try exact H.
    + cbn. destruct rotation_steps_positive as [Hc Hf].
      apply jsRem_range; [destruct shiftKey; lra | lra].
    + specialize (Hadd _ eq_refl). destruct (internalAddBlock s); exact Hadd.
    + specialize (Hadd _ eq_refl). destruct (internalAddBlock s); exact Hadd.
  - specialize (Hadd _ eq_refl). destruct (internalAddBlock s); exact Hadd.
  - exact H.
  - exact H.
Qed.

(** X8. The ghost's yaw stays in [[0, 2 PI)]: from a fresh game, whatever keys
    are pressed and blocks placed, the rotation wraps around and never
    leaves that range. *)
Theorem ghost_rotation_wraps (first : BlockDefinition)
    (inputs : list (Input * BlockDefinition)) :
  0 <= ghostBlockYRotation (fst (run (newGame first) inputs)) < 2 * PI.
Proof.
  assert (H : forall inputs s, 0 <= ghostBlockYRotation s < 2 * PI ->
                               0 <= ghostBlockYRotation (fst (run s inputs)) < 2 * PI).
  { clear. induction inputs as [|i rest IH]; intros s Hs; [exact Hs|].
    rewrite run_cons. apply IH, step_rotation, Hs. }
  apply H. cbn. pose proof PI_RGT_0. lra.
Qed.

Lemma animate_ghostPosition poses s d :
  refsReady s = true -> isGameOverRef s = false ->
  ghostBlockRef s = true -> stabilityIndicatorRef s = true -> isSceneReady s = true ->
  blockToPlaceRef s = Some d ->
  ghostBlockPositionY (fst (animate poses s))
  = (if (0 <? length (physicsObjectsRef s))%nat
     then highestBlockYForFrame (frameScan poses s) + dim_y (dimensions d)
          + BLOCK_SPAWN_HEIGHT_OFFSET
     else GROUND_LEVEL + dim_y (dimensions d) + BLOCK_SPAWN_HEIGHT_OFFSET)
  /\ stabilityIndicatorColor (fst (animate poses s))
     = calculatePlacementStability
         (set_physicsObjectsRef (worldStep poses (physicsObjectsRef s)) s)
  /\ ghostBlockRef (fst (animate poses s)) = true
  /\ worldRef (fst (animate poses s)) = true
  /\ sceneRef (fst (animate poses s)) = true
  /\ canAddBlock (fst (animate poses s)) = canAddBlock s.
Proof.
  unfold refsReady, animate, frameScan.
  destruct s as [w sc cam rend objs gb gy ind gx rot over def mx hy ready can col]; cbn.
  intros Hr -> -> -> -> ->. destruct w, sc, cam, rend; try discriminate; cbn.
  unfold scanTower. rewrite !worldStep_length. repeat split.
Qed.

(** X9. In a running game every frame puts the ghost so that its underside is
    exactly the spawn clearance above the highest point of the tower, the
    largest of the ground level and the block tops of that frame; hence it
    is that clearance or more above every block and above the ground.  A
    block committed right after the frame is the pending block, created at
    the ghost's lateral offset and at exactly the ghost's height, so its
    underside is the spawn clearance above that highest point. *)
Theorem ghost_spawns_clear_of_tower (poses : list Body) (s : Scene) (d : BlockDefinition) :
  refsReady s = true -> isGameOverRef s = false ->
  ghostBlockRef s = true -> stabilityIndicatorRef s = true -> isSceneReady s = true ->
  blockToPlaceRef s = Some d -> canAddBlock s = true ->
  let s1 := fst (animate poses s) in
  let top := highestBlockYForFrame (frameScan poses s) in
  ghostBlockPositionY s1 - dim_y (dimensions d) = top + BLOCK_SPAWN_HEIGHT_OFFSET
  /\ GROUND_LEVEL <= top
  /\ (forall o, In o (physicsObjectsRef s1) -> topY o <= top)
  /\ (top = GROUND_LEVEL \/ exists o, In o (physicsObjectsRef s1) /\ top = topY o)
  /\ GROUND_LEVEL + BLOCK_SPAWN_HEIGHT_OFFSET <= ghostBlockPositionY s1 - dim_y (dimensions d)
  /\ (forall o, In o (physicsObjectsRef s1) ->
        topY o + BLOCK_SPAWN_HEIGHT_OFFSET
        <= ghostBlockPositionY s1 - dim_y (dimensions d))
  /\ exists b,
      physicsObjectsRef (fst (internalAddBlock s1)) = physicsObjectsRef s1 ++ [b]
      /\ definition b = d
      /\ vec_x (position (body b)) = ghostBlockXOffset s
      /\ vec_y (position (body b)) = ghostBlockPositionY s1
      /\ vec_z (position (body b)) = 0
      /\ bottomY b = top + BLOCK_SPAWN_HEIGHT_OFFSET
      /\ forall o, In o (physicsObjectsRef s1) ->
           topY o + BLOCK_SPAWN_HEIGHT_OFFSET <= bottomY b.
Proof.
  intros Hr Ho Hg Hi Hsr Hd Hc s1 top.
  destruct (animate_ghostPosition poses s d Hr Ho Hg Hi Hsr Hd)
    as (Hy & _ & Hg1 & Hw1 & Hs1 & Hc1).
  pose proof (animate_physicsObjects poses s Hr) as Hp.
  pose proof (animate_isGameOverRef poses s) as Ho1.
  destruct (animate_ghost poses s) as (Hx1 & _ & Hd1).
  fold s1 in Hy, Hg1, Hw1, Hs1, Hc1, Hp, Ho1, Hx1, Hd1.
  destruct (scan_fold_highest (length (worldStep poses (physicsObjectsRef s)))
              (isGameOverRef s) (worldStep poses (physicsObjectsRef s)) scanStart)
    as (Hground & Htops & Hattained).
  change (highestBlockYForFrame scanStart) with GROUND_LEVEL in Hground, Hattained.
  change (highestBlockYForFrame
            (fold_left (scanBlock (length (worldStep poses (physicsObjectsRef s)))
                          (isGameOverRef s))
               (worldStep poses (physicsObjectsRef s)) scanStart))
    with top in Hground, Htops, Hattained.
  rewrite <- Hp in Htops, Hattained.
  assert (Hexact : ghostBlockPositionY s1 - dim_y (dimensions d)
                   = top + BLOCK_SPAWN_HEIGHT_OFFSET).
  { rewrite Hy. destruct (physicsObjectsRef s) as [|o0 objs] eqn:E.
    - assert (Ht : top = GROUND_LEVEL).
      { unfold top, frameScan. rewrite E. destruct poses; reflexivity. }
      cbn [length Nat.ltb Nat.leb]. rewrite Ht. lra.
    - cbn [length Nat.ltb Nat.leb]. fold top. lra. }
  assert (Hclear : forall o, In o (physicsObjectsRef s1) ->
                     topY o + BLOCK_SPAWN_HEIGHT_OFFSET
                     <= ghostBlockPositionY s1 - dim_y (dimensions d)).
  { intros o Hin. specialize (Htops o Hin). lra. }
  split; [exact Hexact|]. split; [exact Hground|]. split; [exact Htops|].
  split; [exact Hattained|]. split; [lra|]. split; [exact Hclear|].
  exists (newBlock d (setCanAddBlock false s1)).
  assert (E : internalAddBlock s1
              = (setGhostBlockYRotation 0
                   (setGhostBlockXOffset 0
                      (set_physicsObjectsRef
                         (physicsObjectsRef s1 ++ [newBlock d (setCanAddBlock false s1)])
                         (setCanAddBlock false s1))),
                 [onBlockSuccessfullyPlaced])).
  { unfold internalAddBlock. rewrite Hd1, Hd, Hw1, Hs1, Ho1, Ho, Hc1, Hc, Hg1. reflexivity. }
  rewrite E.
  split; [reflexivity|]. split; [reflexivity|]. split; [exact Hx1|].
  split; [reflexivity|]. split; [reflexivity|].
  split; [exact Hexact | exact Hclear].
Qed.

Lemma ghost_spawns_clear_of_tower_witness :
  ghostBlockPositionY
    (fst (animate [] (sceneWith [blockAt CUBE_S 0 0.5 0 1] CUBE_S 0.2)))
  - dim_y (dimensions (BLOCK_DEFINITIONS CUBE_S))
  = highestBlockYForFrame (frameScan [] (sceneWith [blockAt CUBE_S 0 0.5 0 1] CUBE_S 0.2))
    + BLOCK_SPAWN_HEIGHT_OFFSET.
Proof.
  exact (proj1 (ghost_spawns_clear_of_tower []
                  (sceneWith [blockAt CUBE_S 0 0.5 0 1] CUBE_S 0.2)
                  (BLOCK_DEFINITIONS CUBE_S)
                  eq_refl eq_refl eq_refl eq_refl eq_refl eq_refl eq_refl)).
Defined.

(** ** More on the stability verdict *)

Ltac leb_cases :=
  repeat match goal with
         | |- context [?a <=? ?b] =>
             let E := fresh "E" in
             destruct (a <=? b) eqn:E;
             [apply leb_true_iff in E | apply leb_false_iff in E]
         end.

(** X10. Any pair with a cylinder on either side, cylinder on cylinder included,
    is judged by the radial rule: GREEN iff the radial distance is within
    [max(0, targetRadius - ghostRadius) + ghostRadius * 0.3], YELLOW iff
    within the same bound with [0.7] but not GREEN, RED otherwise. *)
Theorem cylinder_pairs_use_radial_rule (ghostDef : BlockDefinition) (ghostX : R)
    (target : PhysicsObject) :
  shape ghostDef = Cylinder \/ shape (definition target) = Cylinder ->
  let offsetX := Rabs (ghostX - vec_x (position (body target))) in
  let offsetZ := Rabs (0 - vec_z (position (body target))) in
  let radialDistance := sqrt (offsetX * offsetX + offsetZ * offsetZ) in
  let allowed factor :=
    Rmax 0 (dim_x (dimensions (definition target)) - dim_x (dimensions ghostDef))
    + dim_x (dimensions ghostDef) * factor in
  (stabilityAgainst ghostDef ghostX target = GREEN <-> radialDistance <= allowed 0.3)
  /\ (stabilityAgainst ghostDef ghostX target = YELLOW <->
      allowed 0.3 < radialDistance <= allowed 0.7)
  /\ (stabilityAgainst ghostDef ghostX target = RED <->
      allowed 0.3 < radialDistance /\ allowed 0.7 < radialDistance).
Proof.
  intros Hc offsetX offsetZ radialDistance allowed.
  unfold stabilityAgainst.
  assert (Hsel : shape_eqb (shape ghostDef) Box && shape_eqb (shape (definition target)) Box
                 = false
                 /\ shape_eqb (shape ghostDef) Cylinder
                    || shape_eqb (shape (definition target)) Cylinder = true).
  { destruct Hc as [-> | ->]; [|destruct (shape ghostDef)]; cbn; auto. }
  destruct Hsel as [-> ->].
  unfold effectiveAllowed, PLACEMENT_STABILITY_GREEN_THRESHOLD_CYLINDER,
    PLACEMENT_STABILITY_YELLOW_THRESHOLD_CYLINDER.
  fold offsetX offsetZ. fold radialDistance. fold (allowed 0.3) (allowed 0.7).
  leb_cases; repeat split; intros; try discriminate; try lra.
Qed.

Lemma cylinder_pairs_use_radial_rule_witness :
  stabilityAgainst (BLOCK_DEFINITIONS CYLINDER_S) 0 (blockAt CYLINDER_S 0 0.75 0 1) = GREEN.
Proof.
  apply (proj1 (cylinder_pairs_use_radial_rule (BLOCK_DEFINITIONS CYLINDER_S) 0
                  (blockAt CYLINDER_S 0 0.75 0 1) (or_introl eq_refl))).
  cbn. rewrite sqrt_zero_offsets. Rcompute.
Defined.

(** X11. The verdict depends on the ghost's offset only through its distance from
    the target's centre: it is the same on either side, and moving the ghost
    closer to the centre never makes the verdict worse. *)
Theorem centering_never_hurts (ghostDef : BlockDefinition) (target : PhysicsObject)
    (ghostX ghostX' : R) :
  Rabs (ghostX' - vec_x (position (body target)))
  <= Rabs (ghostX - vec_x (position (body target))) ->
  (severity (stabilityAgainst ghostDef ghostX' target)
   <= severity (stabilityAgainst ghostDef ghostX target))%nat
  /\ forall d,
      stabilityAgainst ghostDef (vec_x (position (body target)) + d) target
      = stabilityAgainst ghostDef (vec_x (position (body target)) - d) target.
Proof.
  intros Hle. split.
  - unfold stabilityAgainst.
    set (a' := Rabs (ghostX' - vec_x (position (body target)))) in *.
    set (a := Rabs (ghostX - vec_x (position (body target)))) in *.
    set (z := Rabs (0 - vec_z (position (body target)))).
    assert (Ha' : 0 <= a') by apply Rabs_pos.
    assert (Hr : sqrt (a' * a' + z * z) <= sqrt (a * a + z * z)).
    { apply sqrt_le_1_alt. nra. }
    destruct (shape_eqb (shape ghostDef) Box && shape_eqb (shape (definition target)) Box).
    + leb_cases; cbn; try lia; lra.
    + destruct (shape_eqb (shape ghostDef) Cylinder
                || shape_eqb (shape (definition target)) Cylinder); [|cbn; lia].
      leb_cases; cbn; try lia; lra.
  - intros d. unfold stabilityAgainst.
    replace (vec_x (position (body target)) + d - vec_x (position (body target)))
      with d by lra.
    replace (vec_x (position (body target)) - d - vec_x (position (body target)))
      with (- d) by lra.
    now rewrite Rabs_Ropp.
Qed.

Lemma centering_never_hurts_witness :
  (severity (stabilityAgainst (BLOCK_DEFINITIONS CUBE_S) 0.2 (blockAt CUBE_S 0 0.5 0 1))
   <= severity (stabilityAgainst (BLOCK_DEFINITIONS CUBE_S) 0.4 (blockAt CUBE_S 0 0.5 0 1)))%nat.
Proof.
  apply (proj1 (centering_never_hurts (BLOCK_DEFINITIONS CUBE_S)
                  (blockAt CUBE_S 0 0.5 0 1) 0.4 0.2
                  ltac:(cbn; Rcompute))).
Defined.

(** X12. The verdict is GREEN whenever nothing is placed yet, the ghost mesh or
    the pending block is missing, or the ghost is exactly above the centre
    of a target that sits on the plane [z = 0], whatever the two shapes and
    sizes. *)
Theorem green_when_empty_or_centred (s : Scene) :
  (physicsObjectsRef s = [] \/ ghostBlockRef s = false \/ blockToPlaceRef s = None ->
   calculatePlacementStability s = GREEN)
  /\ forall ghostDef target,
      blockToPlaceRef s = Some ghostDef ->
      findHighestBlock (physicsObjectsRef s) = Some target ->
      0 <= dim_x (dimensions ghostDef) -> 0 <= dim_z (dimensions ghostDef) ->
      ghostBlockXOffset s = vec_x (position (body target)) ->
      vec_z (position (body target)) = 0 ->
      calculatePlacementStability s = GREEN.
Proof.
  split.
  - unfold calculatePlacementStability. intros [H | [H | H]]; rewrite H.
    + destruct (blockToPlaceRef s); [|reflexivity]. cbn. now rewrite orb_true_r.
    + destruct (blockToPlaceRef s); reflexivity.
    + reflexivity.
  - intros ghostDef target Hd Hb Hx Hz Hgx Htz.
    unfold calculatePlacementStability. rewrite Hd, Hb.
    destruct (negb (ghostBlockRef s) || (length (physicsObjectsRef s) =? 0)%nat);
      [reflexivity|].
    unfold stabilityAgainst. rewrite Hgx, Htz.
    replace (vec_x (position (body target)) - vec_x (position (body target))) with 0 by lra.
    replace (0 - 0) with 0 by lra. rewrite Rabs_R0.
    replace (0 * 0 + 0 * 0) with 0 by lra. rewrite sqrt_0.
    unfold effectiveAllowed.
    assert (Hm : forall u v f, 0 <= v -> 0 <= f -> 0 <= Rmax 0 (u - v) + v * f).
    { intros u v f Hv Hf. pose proof (Rmax_l 0 (u - v)).
      assert (0 <= v * f) by now apply Rmult_le_pos. lra. }
    destruct (shape ghostDef), (shape (definition target)); cbn [shape_eqb andb orb];
      repeat (rewrite (proj2 (leb_true_iff _ _))
                by (apply Hm; auto; unfold_constants; lra));
      reflexivity.
Qed.

Lemma green_when_empty_or_centred_witness :
  calculatePlacementStability (sceneWith [] RECT_WIDE 1.4) = GREEN.
Proof.
  apply (proj1 (green_when_empty_or_centred (sceneWith [] RECT_WIDE 1.4))).
  left; reflexivity.
Defined.

(** ** More on the camera *)

Lemma cameraRun_inRange inputs : forall c,
  cameraInRange c -> cameraInRange (cameraRun c inputs).
Proof.
  unfold cameraRun. induction inputs as [|i rest IH]; intros c Hc; [exact Hc|].
  cbn [fold_left]. apply IH, cameraStep_inRange, Hc.
Qed.

Lemma cos_positive_in_range p :
  CAMERA_MIN_POLAR_ANGLE <= p <= CAMERA_MAX_POLAR_ANGLE -> 0 < cos p.
Proof.
  unfold CAMERA_MIN_POLAR_ANGLE, CAMERA_MAX_POLAR_ANGLE, degToRad.
  intros [H1 H2]. pose proof PI_RGT_0. apply cos_gt_0; lra.
Qed.

Lemma cameraPosition_distance cam :
  0 <= radius cam -> distanceTo (cameraPosition cam) (lookAt cam) = radius cam.
Proof.
  intros Hr. unfold distanceTo, cameraPosition; cbn [vec_x vec_y vec_z].
  apply sqrt_lem_1; [nra | exact Hr |].
  pose proof (sin2_cos2 (phi cam)) as Hp. pose proof (sin2_cos2 (theta cam)) as Ht.
  unfold Rsqr in Hp, Ht.
  set (S := sin (phi cam)) in *. set (C := cos (phi cam)) in *.
  set (s := sin (theta cam)) in *. set (c := cos (theta cam)) in *.
  set (r := radius cam).
  replace ((vec_x (lookAt cam) + r * S * s - vec_x (lookAt cam))
           * (vec_x (lookAt cam) + r * S * s - vec_x (lookAt cam))
           + (vec_y (lookAt cam) + r * C - vec_y (lookAt cam))
             * (vec_y (lookAt cam) + r * C - vec_y (lookAt cam))
           + (vec_z (lookAt cam) + r * S * c - vec_z (lookAt cam))
             * (vec_z (lookAt cam) + r * S * c - vec_z (lookAt cam)))
    with (r * r * (S * S * (s * s + c * c) + C * C)) by ring.
  rewrite Ht, Rmult_1_r, Hp. ring.
Qed.

(** X13. Whatever the player does with mouse, wheel, touch, keys and presets,
    the frame places the camera on the sphere of the current zoom radius
    around the look-at target, strictly above the target's height. *)
Theorem camera_orbits_above_target (inputs : list CameraInput) :
  let cam := cs (cameraRun initialController inputs) in
  distanceTo (cameraPosition cam) (lookAt cam) = radius cam
  /\ vec_y (lookAt cam) < vec_y (cameraPosition cam).
Proof.
  cbv zeta.
  destruct (cameraRun_inRange inputs _ initialController_inRange) as [Hphi Hrad].
  set (cam := cs (cameraRun initialController inputs)) in *.
  unfold CAMERA_MIN_ZOOM_DISTANCE in Hrad. split.
  - apply cameraPosition_distance. lra.
  - cbn [cameraPosition vec_y]. pose proof (cos_positive_in_range _ Hphi).
    assert (0 < radius cam * cos (phi cam)) by (apply Rmult_lt_0_compat; lra).
    lra.
Qed.

Lemma cameraStep_lookAt_height c i :
  isPresetInput i = false ->
  vec_y (lookAt (cs (cameraStep c i))) = vec_y (lookAt (cs c)).
Proof.
  intros Hi.
  destruct i as [button x y|x y| |deltaY|touches|touches forward|touches|key|preset hy n];
    try discriminate; cbn [cameraStep].
  - unfold handleMouseDown.
    destruct (negb (button =? 0)%nat || isInteracting (ts c)); reflexivity.
  - unfold handleMouseMove.
    destruct (negb (isDragging (cs c)) || isInteracting (ts c)); reflexivity.
  - reflexivity.
  - unfold handleWheel. destruct (isInteracting (ts c)); reflexivity.
  - unfold handleTouchStart. destruct touches as [|t0 [|t1 [|t2 rest]]]; reflexivity.
  - unfold handleTouchMove.
    destruct (negb (isInteracting (ts c))); [reflexivity|].
    destruct touches as [|t0 [|t1 [|t2 rest]]]; try reflexivity.
    + destruct (isOrbiting (ts c)); reflexivity.
    + match goal with
      | |- context [decideGesture ?a ?b ?d ?t] => destruct (decideGesture a b d t) eqn:E
      end.
      cbn [isPinching isP_anning].
      destruct isPinching0; [reflexivity|].
      destruct isP_anning0; [|reflexivity].
      destruct forward; [|reflexivity].
      cbn. ring.
  - unfold handleTouchEnd. destruct touches as [|t0 [|t1 rest]]; reflexivity.
  - destruct key; reflexivity.
Qed.

(** X14. Only a preset changes the height of the look-at target: orbiting,
    zooming, two-finger panning and the camera keys move it, if at all,
    within its horizontal plane. *)
Theorem only_presets_change_target_height (c : Controller) (inputs : list CameraInput) :
  forallb (fun i => negb (isPresetInput i)) inputs = true ->
  vec_y (lookAt (cs (cameraRun c inputs))) = vec_y (lookAt (cs c)).
Proof.
  unfold cameraRun. revert c.
  induction inputs as [|i rest IH]; intros c H; [reflexivity|].
  cbn [forallb] in H. apply andb_true_iff in H as [Hi Hrest].
  cbn [fold_left]. rewrite (IH _ Hrest).
  apply cameraStep_lookAt_height. now apply negb_true_iff.
Qed.

Lemma only_presets_change_target_height_witness :
  vec_y (lookAt (cs (cameraRun initialController
                       [TouchStart fingersDown;
                        TouchMove fingersSpread (Some (mkVec 0 0 (-1)));
                        CameraKeyDown KeyW])))
  = vec_y (lookAt (cs initialController)).
Proof.
  apply (only_presets_change_target_height initialController
           [TouchStart fingersDown;
            TouchMove fingersSpread (Some (mkVec 0 0 (-1)));
            CameraKeyDown KeyW] eq_refl).
Defined.

Lemma mouse_step_while_touching c i :
  isMouseInput i = true -> isInteracting (ts c) = true ->
  sameView (cs (cameraStep c i)) (cs c) /\ ts (cameraStep c i) = ts c.
Proof.
  intros Hi Ht. unfold sameView.
  destruct i as [button x y|x y| |deltaY|touches|touches forward|touches|key|preset hy n];
    try discriminate; cbn [cameraStep].
  - unfold handleMouseDown. rewrite Ht, orb_true_r. auto.
  - unfold handleMouseMove. rewrite Ht, orb_true_r. auto.
  - cbn. auto.
  - unfold handleWheel. rewrite Ht. auto.
Qed.

(** X15. Touch takes precedence over the mouse: while a touch interaction is in
    progress no mouse button, mouse move or wheel event changes the view or
    the gesture state; and a mouse drag that a touch interrupted does not
    resume when the fingers are lifted. *)
Theorem touch_blocks_mouse (c : Controller) (inputs : list CameraInput) :
  isInteracting (ts c) = true ->
  forallb isMouseInput inputs = true ->
  sameView (cs (cameraRun c inputs)) (cs c)
  /\ ts (cameraRun c inputs) = ts c
  /\ forall touches x y,
      handleMouseMove x y (handleTouchEnd [] (handleTouchStart touches (cameraRun c inputs)))
      = handleTouchEnd [] (handleTouchStart touches (cameraRun c inputs)).
Proof.
  intros Ht Hm.
  assert (H : sameView (cs (cameraRun c inputs)) (cs c) /\ ts (cameraRun c inputs) = ts c).
  { unfold cameraRun. revert c Ht.
    induction inputs as [|i rest IH]; intros c Ht; [unfold sameView; auto|].
    cbn [forallb] in Hm. apply andb_true_iff in Hm as [Hi Hrest].
    destruct (mouse_step_while_touching c i Hi Ht) as [(H1 & H2 & H3 & H4) Hts].
    cbn [fold_left].
    destruct (IH Hrest (cameraStep c i)) as [(I1 & I2 & I3 & I4) Its];
      [now rewrite Hts|].
    unfold sameView. rewrite I1, I2, I3, I4, Its. auto. }
  destruct H as [Hv Hts]. split; [exact Hv|]. split; [exact Hts|].
  intros touches x y. unfold handleMouseMove, handleTouchEnd, handleTouchStart.
  destruct touches as [|t0 [|t1 [|t2 rest]]]; reflexivity.
Qed.

Lemma touch_blocks_mouse_witness :
  ts (cameraRun (handleTouchStart fingersDown initialController) [Wheel 100; MouseMove 5 5])
  = ts (handleTouchStart fingersDown initialController).
Proof.
  apply (proj1 (proj2 (touch_blocks_mouse
                  (handleTouchStart fingersDown initialController)
                  [Wheel 100; MouseMove 5 5] eq_refl eq_refl))).
Defined.

Lemma clampPolar_in_range p :
  CAMERA_MIN_POLAR_ANGLE <= p <= CAMERA_MAX_POLAR_ANGLE -> clampPolar p = p.
Proof.
  intros [H1 H2]. unfold clampPolar.
  rewrite (Rmin_right _ _ H2). now apply Rmax_right.
Qed.

(** X16. No jump when a gesture hands over to one finger: after a touch start
    with one finger, or a touch end that leaves one finger, a move event of
    that finger at the same position leaves the view as it was. *)
Theorem one_finger_handover_does_not_jump (c : Controller) (t : Touch)
    (forward : option Vec3) :
  cameraInRange c ->
  sameView (cs (handleTouchMove [t] forward (handleTouchStart [t] c))) (cs c)
  /\ (isInteracting (ts c) = true ->
      sameView (cs (handleTouchMove [t] forward (handleTouchEnd [t] c))) (cs c)).
Proof.
  intros [Hphi _]. unfold sameView. split.
  - unfold handleTouchMove, handleTouchStart; cbn.
    replace (phi (cs c) - (clientY t - clientY t) * CAMERA_ROTATION_SPEED_Y * 0.75)
      with (phi (cs c)) by ring.
    rewrite (clampPolar_in_range _ Hphi). repeat split. ring.
  - intros Ht. unfold handleTouchMove, handleTouchEnd; cbn. rewrite Ht; cbn.
    replace (phi (cs c) - (clientY t - clientY t) * CAMERA_ROTATION_SPEED_Y * 0.75)
      with (phi (cs c)) by ring.
    rewrite (clampPolar_in_range _ Hphi). repeat split. ring.
Qed.

Lemma one_finger_handover_does_not_jump_witness :
  sameView (cs (handleTouchMove [mkTouchPoint 10 20] None
                  (handleTouchStart [mkTouchPoint 10 20] initialController)))
           (cs initialController).
Proof.
  apply (proj1 (one_finger_handover_does_not_jump initialController
                  (mkTouchPoint 10 20) None initialController_inRange)).
Defined.

Lemma pinching_move_keeps_mode t0 t1 forward c :
  isInteracting (ts c) = true -> isPinching (ts c) = true ->
  let c' := handleTouchMove [t0; t1] forward c in
  isInteracting (ts c') = true /\ isPinching (ts c') = true
  /\ lookAt (cs c') = lookAt (cs c) /\ phi (cs c') = phi (cs c)
  /\ theta (cs c') = theta (cs c)
  /\ CAMERA_MIN_ZOOM_DISTANCE <= radius (cs c') <= CAMERA_MAX_ZOOM_DISTANCE.
Proof.
  intros Hi Hp. unfold handleTouchMove. rewrite Hi. cbn [negb].
  unfold decideGesture. rewrite Hp. cbn [negb andb]. rewrite Hp.
  cbn. repeat split; auto; apply clampZoom_range.
Qed.

(** X17. The pinch lock is sticky: once pinch mode is set, no two-finger move of
    the contact leaves it or moves the look-at target or the angles; it only
    sets the zoom distance, within the zoom range. *)
Theorem pinch_lock_is_sticky (c : Controller) (moves : list (Touch * Touch * option Vec3)) :
  isInteracting (ts c) = true -> isPinching (ts c) = true ->
  isPinching (ts (twoFingerMoves moves c)) = true
  /\ lookAt (cs (twoFingerMoves moves c)) = lookAt (cs c)
  /\ phi (cs (twoFingerMoves moves c)) = phi (cs c)
  /\ theta (cs (twoFingerMoves moves c)) = theta (cs c)
  /\ (moves <> [] ->
      CAMERA_MIN_ZOOM_DISTANCE <= radius (cs (twoFingerMoves moves c))
                               <= CAMERA_MAX_ZOOM_DISTANCE).
Proof.
  unfold twoFingerMoves. revert c.
  induction moves as [|[[a b] fwd] rest IH]; intros c Hi Hp;
    [cbn; do 4 (split; [auto|]); congruence|].
  cbn [fold_left fst snd].
  destruct (pinching_move_keeps_mode a b fwd c Hi Hp) as (Hi' & Hp' & Hl & Hphi & Hth & Hr).
  destruct (IH _ Hi' Hp') as (I1 & I2 & I3 & I4 & I5).
  rewrite I2, I3, I4, Hl, Hphi, Hth. do 4 (split; [auto|]).
  intros _. destruct rest as [|m rest']; [exact Hr | apply I5; discriminate].
Qed.

Lemma pinchReached_mode :
  isInteracting (ts pinchReached) = true /\ isPinching (ts pinchReached) = true.
Proof.
  assert (Hd : sqrt ((-100 - 100) * (-100 - 100) + (0 - 0) * (0 - 0)) = 200)
    by (apply sqrt_lem_1; lra).
  unfold pinchReached, handleTouchMove, handleTouchEnd, handleTouchStart, decideGesture,
    initialController, initialTouchState; cbn.
  rewrite Hd. unfold_constants.
  repeat (Rcompute_step; cbn). split; reflexivity.
Qed.

Lemma pinch_lock_is_sticky_witness :
  isPinching (ts (twoFingerMoves
                    [(mkTouchPoint (-50) 0, mkTouchPoint 50 0, Some (mkVec 0 0 (-1)))]
                    pinchReached)) = true.
Proof.
  apply (proj1 (pinch_lock_is_sticky pinchReached
                  [(mkTouchPoint (-50) 0, mkTouchPoint 50 0, Some (mkVec 0 0 (-1)))]
                  (proj1 pinchReached_mode) (proj2 pinchReached_mode))).
Defined.

Lemma PI_gt_3 : 3 < PI.
Proof. pose proof PI2_3_2. lra. Qed.

(** X18. A preset fixes the whole view: the angles, the zoom distance and the
    look-at target after it do not depend on the view before it, and they
    are within the camera ranges even if the view before was not.  The top
    preset's configured polar angle of 0.01 is below the minimum, so the
    top view is at the minimum polar angle; front and side are at
    [PI / 2.5]. *)
Theorem preset_fixes_view (preset : CameraPreset) (currentHighestBlockY : R)
    (blockCount : nat) (c c' : Controller) :
  sameView (cs (setCameraPreset preset currentHighestBlockY blockCount c))
           (cs (setCameraPreset preset currentHighestBlockY blockCount c'))
  /\ cameraInRange (setCameraPreset preset currentHighestBlockY blockCount c)
  /\ phi (cs (setCameraPreset preset currentHighestBlockY blockCount c))
     = match preset with
       | top => CAMERA_MIN_POLAR_ANGLE
       | front | side => PI / 2.5
       end
  /\ vec_y (lookAt (cs (setCameraPreset preset currentHighestBlockY blockCount c)))
     = match preset with
       | top => if (0 <? blockCount)%nat then currentHighestBlockY / 2 else 1
       | front | side => currentHighestBlockY * 0.4
       end.
Proof.
  pose proof PI_gt_3 as Hpi.
  assert (Hphi : phi (cs (setCameraPreset preset currentHighestBlockY blockCount c))
     = match preset with
       | top => CAMERA_MIN_POLAR_ANGLE
       | front | side => PI / 2.5
       end).
  { unfold setCameraPreset; cbn [cs phi]. unfold clampPolar,
      CAMERA_MIN_POLAR_ANGLE, CAMERA_MAX_POLAR_ANGLE, degToRad.
    destruct preset; cbn [preset_phi CAMERA_PRESET_FRONT CAMERA_PRESET_TOP CAMERA_PRESET_SIDE].
    - rewrite Rmin_right by lra. apply Rmax_right; lra.
    - rewrite Rmin_right by lra. apply Rmax_left; lra.
    - rewrite Rmin_right by lra. apply Rmax_right; lra. }
  split; [unfold sameView, setCameraPreset; cbn; auto|].
  split; [|split; [exact Hphi|]].
  - split; [apply clampPolar_range | apply preset_radius_range].
  - unfold setCameraPreset; cbn [cs lookAt vec_y].
    destruct preset, blockCount; cbn; unfold GROUND_LEVEL; lra.
Qed.

(** ** Shapes, contacts and the vignette *)

(** X19. The render geometry and the physics shape of a definition have the same
    height and width, box or cylinder; the height is twice [dimensions.y],
    so the top the tower monitor computes is the centre plus half the
    height of the physical shape. *)
Theorem geometry_and_shape_agree (obj : PhysicsObject) :
  geometryHeight (createThreeGeometry (definition obj))
  = shapeHeight (createCannonShape (definition obj))
  /\ geometryWidth (createThreeGeometry (definition obj))
     = shapeWidth (createCannonShape (definition obj))
  /\ topY obj = centerY obj + shapeHeight (createCannonShape (definition obj)) / 2
  /\ bottomY obj = centerY obj - shapeHeight (createCannonShape (definition obj)) / 2.
Proof.
  unfold createThreeGeometry, createCannonShape, topY, bottomY, centerY.
  destruct (shape (definition obj)); cbn; repeat split; lra.
Qed.

(** X20. A placement registers one contact material per placed block, plus the
    ground contact; a block-on-block contact has at most nine tenths of the
    friction and half the restitution of either block, and is the same
    whichever of the two blocks is the new one. *)
Theorem block_contacts_are_softer (groundMat : bool) (newDef : BlockDefinition)
    (objs : list PhysicsObject) :
  length (contactMaterialsFor groundMat newDef objs)
  = ((if groundMat then 1 else 0) + length objs)%nat
  /\ (forall existing,
         0 <= friction newDef -> 0 <= friction (definition existing) ->
         0 <= restitution newDef -> 0 <= restitution (definition existing) ->
         contact_friction (blockBlockContactMaterial newDef existing)
         <= 0.9 * friction newDef
         /\ contact_friction (blockBlockContactMaterial newDef existing)
            <= 0.9 * friction (definition existing)
         /\ contact_restitution (blockBlockContactMaterial newDef existing)
            <= 0.5 * restitution newDef
         /\ contact_restitution (blockBlockContactMaterial newDef existing)
            <= 0.5 * restitution (definition existing))
  /\ forall existing pose pose',
      blockBlockContactMaterial newDef (mkObj pose (definition existing))
      = blockBlockContactMaterial (definition existing) (mkObj pose' newDef).
Proof.
  split; [|split].
  - unfold contactMaterialsFor. rewrite length_app, length_map.
    destruct groundMat; reflexivity.
  - intros existing H1 H2 H3 H4. unfold blockBlockContactMaterial; cbn.
    pose proof (Rmin_l (friction newDef) (friction (definition existing))).
    pose proof (Rmin_r (friction newDef) (friction (definition existing))).
    pose proof (Rmin_l (restitution newDef) (restitution (definition existing))).
    pose proof (Rmin_r (restitution newDef) (restitution (definition existing))).
    repeat split; lra.
  - intros existing pose pose'. unfold blockBlockContactMaterial; cbn.
    now rewrite (Rmin_comm (friction newDef)), (Rmin_comm (restitution newDef)).
Qed.

Lemma block_contacts_are_softer_witness :
  contact_friction (blockBlockContactMaterial (BLOCK_DEFINITIONS CUBE_S)
                      (blockAt CYLINDER_S 0 0.75 0 1))
  <= 0.9 * friction (BLOCK_DEFINITIONS CUBE_S).
Proof.
  apply (proj1 (proj2 (block_contacts_are_softer true (BLOCK_DEFINITIONS CUBE_S) []))
           (blockAt CYLINDER_S 0 0.75 0 1));
    cbn; lra.
Defined.

Lemma vignette_factor_bounds n :
  (1 <= n)%nat ->
  1 / 3 <= Rmin 1 (INR n / 3) <= 1 /\ ((3 <= n)%nat -> Rmin 1 (INR n / 3) = 1).
Proof.
  intros Hn. apply le_INR in Hn as Hr. cbn [INR] in Hr. split.
  - split; [|apply Rmin_l]. apply Rmin_glb; lra.
  - intros H3. apply le_INR in H3. replace (INR 3) with 3 in H3 by (cbn; lra).
    apply Rmin_left. lra.
Qed.

(** X21. While the game is active and some block is unstable the overlay shows a
    red inset shadow whose opacity lies between 0.1 + 0.4/3 and 0.5, whose
    spread lies between 40 and 80 and whose blur is three quarters of the
    spread; both grow with the number of unstable blocks and are at their
    maximum from three blocks on.  With no unstable block the shadow has
    zero size, and once the game is over there is none. *)
Theorem vignette_is_bounded (count count' : nat) :
  towerInstabilityVignette true count = NoShadow
  /\ towerInstabilityVignette false 0 = InsetShadow 0 0 0
  /\ ((1 <= count)%nat ->
      0.1 + 0.4 / 3 <= vignetteOpacity (towerInstabilityVignette false count) <= 0.5
      /\ 40 <= vignetteSpread (towerInstabilityVignette false count) <= 80
      /\ vignetteBlur (towerInstabilityVignette false count)
         = vignetteSpread (towerInstabilityVignette false count) * 0.75
      /\ ((3 <= count)%nat ->
          towerInstabilityVignette false count = InsetShadow 60 80 0.5)
      /\ ((count <= count')%nat ->
          vignetteOpacity (towerInstabilityVignette false count)
          <= vignetteOpacity (towerInstabilityVignette false count')
          /\ vignetteSpread (towerInstabilityVignette false count)
             <= vignetteSpread (towerInstabilityVignette false count'))).
Proof.
  split; [reflexivity|]. split; [reflexivity|].
  intros Hc. destruct (vignette_factor_bounds count Hc) as [[Hlo Hhi] Hmax].
  assert (Hform : forall n, (1 <= n)%nat ->
            towerInstabilityVignette false n
            = InsetShadow ((20 + (80 - 20) * Rmin 1 (INR n / 3)) * 0.75)
                          (20 + (80 - 20) * Rmin 1 (INR n / 3))
                          (0.1 + (0.5 - 0.1) * Rmin 1 (INR n / 3))).
  { intros n Hn. unfold towerInstabilityVignette; cbn [negb].
    destruct n; [lia | reflexivity]. }
  rewrite (Hform count Hc). cbn [vignetteOpacity vignetteSpread vignetteBlur].
  split; [lra|]. split; [lra|]. split; [reflexivity|]. split.
  - intros H3. rewrite (Hmax H3). f_equal; lra.
  - intros Hle. rewrite (Hform count') by lia.
    cbn [vignetteOpacity vignetteSpread].
    assert (Hf : Rmin 1 (INR count / 3) <= Rmin 1 (INR count' / 3)).
    { apply Rle_min_compat_l. apply le_INR in Hle. lra. }
    lra.
Qed.

Lemma vignette_is_bounded_witness :
  0.1 + 0.4 / 3 <= vignetteOpacity (towerInstabilityVignette false 2) <= 0.5.
Proof.
  apply (proj1 (proj2 (proj2 (vignette_is_bounded 2 3)) ltac:(lia))).
Defined.

(** ** The application *)

Lemma appStep_highScore a i :
  highScore a = loadHighScore (storedHighScore a) ->
  highScore (appStep a i) = loadHighScore (storedHighScore (appStep a i))
  /\ highScore a <= highScore (appStep a i)
  /\ (forall v, i = GameOver v -> v <= highScore (appStep a i))
  /\ (highScore (appStep a i) = highScore a
      \/ i = GameOver (highScore (appStep a i))).
Proof.
  intros Hinv.
  assert (Hquiet : forall a', highScore a' = highScore a ->
            storedHighScore a' = storedHighScore a ->
            (forall v, i <> GameOver v) ->
            highScore a' = loadHighScore (storedHighScore a')
            /\ highScore a <= highScore a'
            /\ (forall v, i = GameOver v -> v <= highScore a')
            /\ (highScore a' = highScore a \/ i = GameOver (highScore a'))).
  { intros a' H1 H2 Hi. rewrite H1, H2. split; [exact Hinv|]. split; [lra|].
    split; [|now left]. intros v E. now destruct (Hi v). }
  destruct i as [d1 d2|v|v|d1 d2|]; cbn [appStep].
  - apply Hquiet; try discriminate;
      unfold handleBlockSuccessfullyPlaced, initializeGameBlocks;
      destruct (nextBlockDefinition a); reflexivity.
  - unfold handleGameOver. destruct (highScore a <? v) eqn:E;
      [apply ltb_true_iff in E | apply ltb_false_iff in E]; cbn.
    + split; [reflexivity|]. split; [lra|]. split; [|now right].
      intros v' Hv. injection Hv as <-. lra.
    + split; [exact Hinv|]. split; [lra|]. split; [|now left].
      intros v' Hv. injection Hv as <-. lra.
  - apply Hquiet; try discriminate; reflexivity.
  - apply Hquiet; try discriminate; reflexivity.
  - apply Hquiet; try discriminate; reflexivity.
Qed.

(** X22. The high score is the persisted maximum: after any sequence of
    placements, score updates, game overs and restarts the displayed high
    score equals what the stored item would load to, so a reload shows the
    same value; it never decreases, is at least every final score reported,
    and is the loaded start value or one of the reported final scores. *)
Theorem high_score_is_persisted_maximum (stored : option R) (draw : BlockShapeType)
    (inputs : list AppInput) :
  let a := appRun (initialApp stored draw) inputs in
  highScore a = loadHighScore (storedHighScore a)
  /\ highScore (initialApp (storedHighScore a) draw) = highScore a
  /\ loadHighScore stored <= highScore a
  /\ (forall v, In v (finalScores inputs) -> v <= highScore a)
  /\ (highScore a = loadHighScore stored \/ In (highScore a) (finalScores inputs)).
Proof.
  cbv zeta.
  assert (H : forall inputs a0,
    highScore a0 = loadHighScore (storedHighScore a0) ->
    highScore (appRun a0 inputs) = loadHighScore (storedHighScore (appRun a0 inputs))
    /\ highScore a0 <= highScore (appRun a0 inputs)
    /\ (forall v, In v (finalScores inputs) -> v <= highScore (appRun a0 inputs))
    /\ (highScore (appRun a0 inputs) = highScore a0
        \/ In (highScore (appRun a0 inputs)) (finalScores inputs))).
  { clear. unfold appRun.
    induction inputs as [|i rest IH]; intros a0 Hinv; cbn [fold_left].
    - repeat split; auto; try lra. intros v [].
    - destruct (appStep_highScore a0 i Hinv) as (S1 & S2 & S3 & S4).
      destruct (IH _ S1) as (I1 & I2 & I3 & I4).
      split; [exact I1|]. split; [lra|]. split.
      + intros v Hin. cbn [finalScores flat_map] in Hin.
        apply in_app_or in Hin as [Hin | Hin]; [|now apply I3].
        destruct i; cbn in Hin; try contradiction.
        destruct Hin as [<- | []]. specialize (S3 _ eq_refl). lra.
      + cbn [finalScores flat_map].
        destruct I4 as [I4 | I4]; [|right; apply in_or_app; now right].
        destruct S4 as [S4 | S4]; [left; lra|].
        right. apply in_or_app. left. rewrite I4.
        destruct i; try discriminate S4. injection S4 as S4. cbn. now left. }
  destruct (H inputs (initialApp stored draw) eq_refl) as (H1 & H2 & H3 & H4).
  cbn [initialApp highScore] in H2, H4 |- *.
  repeat split; auto.
Qed.

Lemma appStep_queue a i :
  fromCatalogue (selectedBlockDefinition a) ->
  (exists n, nextBlockDefinition a = Some n /\ fromCatalogue n) ->
  fromCatalogue (selectedBlockDefinition (appStep a i))
  /\ (exists n, nextBlockDefinition (appStep a i) = Some n /\ fromCatalogue n).
Proof.
  intros Hs (n & Hn & Hc).
  destruct i as [d1 d2|v|v|d1 d2|]; cbn [appStep].
  - unfold handleBlockSuccessfullyPlaced. rewrite Hn. cbn. split; [exact Hc|].
    exists (BLOCK_DEFINITIONS d1). split; [reflexivity | now exists d1].
  - unfold handleGameOver. destruct (highScore a <? v); cbn; split; auto; now exists n.
  - cbn. split; auto. now exists n.
  - cbn. split; [now exists d1|]. exists (BLOCK_DEFINITIONS d2). split; [reflexivity | now exists d2].
  - cbn. split; auto. now exists n.
Qed.

Lemma catalogue_positive d :
  fromCatalogue d ->
  0 < dim_x (dimensions d) /\ 0 < dim_y (dimensions d) /\ 0 < dim_z (dimensions d)
  /\ 0 < mass d /\ 0 < friction d /\ 0 < restitution d.
Proof. intros [t ->]. destruct t; cbn; repeat split; lra. Qed.

(** X23. The block queue: once mounted, the application always holds a preview
    block, so a signalled placement hands the scene exactly the block that
    was previewed and never takes the re-initialising fallback; and the
    block handed to the scene is always a catalogue definition, with all
    its dimensions, mass, friction and restitution positive. *)
Theorem placed_block_is_the_previewed_one (stored : option R)
    (draw0 draw1 draw2 : BlockShapeType) (inputs : list AppInput) :
  let a := appRun (mountedApp stored draw0 draw1 draw2) inputs in
  (exists next,
      nextBlockDefinition a = Some next
      /\ forall d1 d2,
          selectedBlockDefinition (handleBlockSuccessfullyPlaced d1 d2 a) = next
          /\ nextBlockDefinition (handleBlockSuccessfullyPlaced d1 d2 a)
             = Some (BLOCK_DEFINITIONS d1))
  /\ fromCatalogue (selectedBlockDefinition a)
  /\ 0 < dim_x (dimensions (selectedBlockDefinition a))
  /\ 0 < dim_y (dimensions (selectedBlockDefinition a))
  /\ 0 < dim_z (dimensions (selectedBlockDefinition a))
  /\ 0 < mass (selectedBlockDefinition a)
  /\ 0 < friction (selectedBlockDefinition a)
  /\ 0 < restitution (selectedBlockDefinition a).
Proof.
  cbv zeta.
  assert (H : forall inputs a0,
    fromCatalogue (selectedBlockDefinition a0) ->
    (exists n, nextBlockDefinition a0 = Some n /\ fromCatalogue n) ->
    fromCatalogue (selectedBlockDefinition (appRun a0 inputs))
    /\ (exists n, nextBlockDefinition (appRun a0 inputs) = Some n /\ fromCatalogue n)).
  { clear. unfold appRun. induction inputs as [|i rest IH]; intros a0 Hs Hn; [auto|].
    cbn [fold_left]. destruct (appStep_queue a0 i Hs Hn) as [Hs' Hn']. now apply IH. }
  destruct (H inputs (mountedApp stored draw0 draw1 draw2)) as [Hs (n & Hn & _)].
  - now exists draw1.
  - exists (BLOCK_DEFINITIONS draw2). split; [reflexivity | now exists draw2].
  - split.
    + exists n. split; [exact Hn|]. intros d1 d2.
      unfold handleBlockSuccessfullyPlaced. rewrite Hn. split; reflexivity.
    + split; [exact Hs | apply catalogue_positive, Hs].
Qed.

(** ** Ghost and indicator meshes *)

Lemma blockType_eqb_eq a b : blockType_eqb a b = true <-> a = b.
Proof. destruct a, b; cbn; split; congruence. Qed.

Lemma ghostEffect_catalogue t m :
  ghostShowsItsType m ->
  ghostMesh (fst (ghostEffect true true false (Some (BLOCK_DEFINITIONS t)) m))
  = Some (mkGhost (createThreeGeometry (BLOCK_DEFINITIONS t))
                  (color (BLOCK_DEFINITIONS t)) t true)
  /\ snd (ghostEffect true true false (Some (BLOCK_DEFINITIONS t)) m) = true.
Proof.
  unfold ghostShowsItsType, ghostEffect; cbn [negb orb fst snd ghostMesh].
  destruct (ghostMesh m) as [g|]; [|destruct t; split; reflexivity].
  intros [Hg Hc].
  assert (Ht : type (BLOCK_DEFINITIONS t) = t) by (destruct t; reflexivity).
  rewrite Ht.
  destruct (blockType_eqb (ghost_blockType g) t) eqn:E; cbn [negb orb].
  - apply blockType_eqb_eq in E. rewrite Hc, E, Z.eqb_refl. cbn [negb].
    rewrite Hg, E. split; reflexivity.
  - split; reflexivity.
Qed.

Lemma ghostEffect_keeps_invariant t m :
  ghostShowsItsType m ->
  ghostShowsItsType (fst (ghostEffect true true false (Some (BLOCK_DEFINITIONS t)) m)).
Proof.
  intros H. unfold ghostShowsItsType.
  destruct (ghostEffect_catalogue t m H) as [-> _]. cbn. split; reflexivity.
Qed.

(** X24. In a running game the ghost mesh always shows the pending block: after
    the effect has run for any series of catalogue blocks, the ghost has the
    geometry and colour of the last one and is visible, and each run re-
    centres the ghost. *)
Theorem ghost_shows_pending_block (types : list BlockShapeType) (t : BlockShapeType) :
  ghostMesh (showBlocks (types ++ [t]) noMeshes)
  = Some (mkGhost (createThreeGeometry (BLOCK_DEFINITIONS t))
                  (color (BLOCK_DEFINITIONS t)) t true)
  /\ snd (ghostEffect true true false (Some (BLOCK_DEFINITIONS t))
            (showBlocks types noMeshes)) = true.
Proof.
  assert (H : forall types m, ghostShowsItsType m -> ghostShowsItsType (showBlocks types m)).
  { clear. unfold showBlocks. induction types as [|t types IH]; intros m Hm; [exact Hm|].
    cbn [fold_left]. apply IH, ghostEffect_keeps_invariant, Hm. }
  unfold showBlocks at 1. rewrite fold_left_app. cbn [fold_left].
  apply ghostEffect_catalogue. apply H. exact I.
Qed.

(** X25. The indicator follows the shape kind only: when the pending block
    changes to one of the same kind, box to box, the indicator mesh is left
    exactly as it was, footprint included; its geometry is rebuilt for the
    new block only when the kind changes.  After a small cube and then a
    wide slab it is still the cube's 1 by 1 plane under a block 2 wide. *)
Theorem indicator_follows_shape_kind_only (m : Meshes) (d1 d2 : BlockDefinition) :
  let m1 := fst (ghostEffect true true false (Some d1) m) in
  let m2 := fst (ghostEffect true true false (Some d2) m1) in
  (shape d1 = shape d2 -> indicatorMesh m2 = indicatorMesh m1)
  /\ (shape d1 <> shape d2 ->
      option_map indicator_geometry (indicatorMesh m2) = Some (indicatorGeometryFor d2))
  /\ option_map indicator_geometry (indicatorMesh (showBlocks [CUBE_S; RECT_WIDE] noMeshes))
     = Some (indicatorGeometryFor (BLOCK_DEFINITIONS CUBE_S))
  /\ geometryWidth (indicatorGeometryFor (BLOCK_DEFINITIONS CUBE_S)) = 1
  /\ geometryWidth (indicatorGeometryFor (BLOCK_DEFINITIONS RECT_WIDE)) = 2.
Proof.
  cbv zeta. split; [|split; [|split; [|split]]].
  - intros Hs. unfold ghostEffect; cbn [negb orb fst indicatorMesh].
    destruct (indicatorMesh m) as [i|]; cbn [indicator_blockShape indicator_geometry];
      rewrite Hs; destruct (shape d2); reflexivity.
  - intros Hs. unfold ghostEffect; cbn [negb orb fst indicatorMesh option_map].
    destruct (indicatorMesh m) as [i|]; cbn [indicator_blockShape indicator_geometry];
      destruct (shape d1), (shape d2); try contradiction; reflexivity.
  - reflexivity.
  - cbn; lra.
  - cbn; lra.
Qed.

Lemma indicator_follows_shape_kind_only_witness :
  indicatorMesh (fst (ghostEffect true true false (Some (BLOCK_DEFINITIONS RECT_WIDE))
                        (fst (ghostEffect true true false
                                (Some (BLOCK_DEFINITIONS CUBE_S)) noMeshes))))
  = indicatorMesh (fst (ghostEffect true true false
                          (Some (BLOCK_DEFINITIONS CUBE_S)) noMeshes)).
Proof.
  apply (proj1 (indicator_follows_shape_kind_only noMeshes
                  (BLOCK_DEFINITIONS CUBE_S) (BLOCK_DEFINITIONS RECT_WIDE)) eq_refl).
Defined.
